(** * Flocking and steering of Permafrost Engine (game/movement.c)

    A shallow embedding of the movement module: the flock registry
    [s_flocks], the motion state table [s_entity_state_table], the steering
    forces, the 30 Hz tick and the handler of the mouse, followed by the
    properties of the module's specification and by further properties of
    the code.

    Conventions of the embedding.
    - [float] is idealised as a real number ([R]): rounding, infinities and
      NaN are outside the model.
    - A [struct entity *] is represented by the uid of the entity it points
      to (the engine gives every entity a distinct uid); the entity structs
      live in a store indexed by uid that the tick mutates in place.
    - A failed [assert] aborts the program: fallible code returns [option],
      and [None] is the abort.
    - [E_Entity_Notify] appends to an event log kept in the state. *)

From Stdlib Require Import Reals Lra Lia ZArith.
From stdpp Require Import base option list relations gmap sets.

#[local] Set Warnings "-clear-no-such-hyp".

(** The comparisons of [float] are decided by those of [R]. *)
#[global] Instance R_eq_dec : EqDecision R := Req_dec_T.
#[global] Instance Rlt_decision (a b : R) : Decision (a < b)%R := Rlt_dec a b.
#[global] Instance Rle_decision (a b : R) : Decision (a <= b)%R := Rle_dec a b.
#[global] Instance Rgt_decision (a b : R) : Decision (a > b)%R := Rgt_dec a b.

(** ** Vector math (pf_math) *)

Record vec2 : Type := mk_vec2 { raw0 : R; raw1 : R }.
Record vec3 : Type := mk_vec3 { x : R; y : R; z : R }.
Record quat : Type := mk_quat { qx : R; qy : R; qz : R; qw : R }.

#[global] Instance vec2_eq_dec : EqDecision vec2.
Proof. solve_decision. Defined.

(** [(vec2_t){0.0f}] *)
Definition vec2_zero : vec2 := mk_vec2 0 0.

(** Modelled from the spec: the [PFM_Vec2_*] helpers of pf_math are not among
    the sources; the spec lists them as the leaf "2D vector ops, length,
    normalize, scale". The argument order is the one of the call sites:
    [PFM_Vec2_Sub a b out] stores [a - b]. *)
Definition PFM_Vec2_Add (a b : vec2) : vec2 :=
  mk_vec2 (raw0 a + raw0 b) (raw1 a + raw1 b).

Definition PFM_Vec2_Sub (a b : vec2) : vec2 :=
  mk_vec2 (raw0 a - raw0 b) (raw1 a - raw1 b).

Definition PFM_Vec2_Scale (a : vec2) (s : R) : vec2 :=
  mk_vec2 (raw0 a * s) (raw1 a * s).

Definition PFM_Vec2_Len (a : vec2) : R :=
  sqrt (raw0 a * raw0 a + raw1 a * raw1 a).

Definition PFM_Vec2_Normal (a : vec2) : vec2 :=
  mk_vec2 (raw0 a / PFM_Vec2_Len a) (raw1 a / PFM_Vec2_Len a).

(** ** Constants of movement.c *)

Definition ENTITY_MASS : R := 1.
Definition EPSILON : R := 1 / 1024.
Definition MAX_FORCE : R := 1.

Definition MOVE_SEPARATION_FORCE_SCALE : R := 16 / 10.
Definition MOVE_ARRIVE_FORCE_SCALE : R := 7 / 10.
Definition MOVE_COHESION_FORCE_SCALE : R := 1 / 10.
Definition MOVE_ALIGN_FORCE_SCALE : R := 1 / 10.
Definition SETTLE_SEPARATION_FORCE_SCALE : R := 32 / 10.

Definition ARRIVE_THRESHOLD_DIST : R := 5.
Definition MOVE_SEPARATION_BUFFER_DIST : R := 8.
Definition SETTLE_SEPARATION_BUFFER_DIST : R := 14.
Definition COHESION_NEIGHBOUR_RADIUS : R := 25.
Definition ALIGN_NEIGHBOUR_RADIUS : R := 10.
Definition ARRIVE_SLOWING_RADIUS : R := 10.
Definition ADJACENCY_SEP_DIST : R := 10.

Definition SETTLE_STOP_TOLERANCE : R := 5 / 100.

(** [const int TICK_RES = 30] of [on_30hz_tick]. *)
Definition TICK_RES : Z := 30.

(** ** Data *)

Inductive arrival_state : Type :=
  | STATE_MOVING
  | STATE_SETTLING
  | STATE_ARRIVED.

#[global] Instance arrival_state_eq_dec : EqDecision arrival_state.
Proof. solve_decision. Defined.

Record movestate : Type := mk_movestate {
  velocity : vec2;
  state : arrival_state
}.

(** The fields of [struct entity] that movement.c reads or writes; the uid
    is the index of the struct in the store. *)
Record entity : Type := mk_entity {
  flags : N;
  max_speed : R;
  pos : vec3;
  selection_radius : R;
  rotation : quat
}.

(** [khash_t(entity) *ents] maps a uid to the entity with that uid: a set of
    uids. [kh_foreach] over it is a loop over [elements]; the proofs use of
    that order only that it lists the members. *)
Record flock : Type := mk_flock {
  ents : gset N;
  target_xz : vec2
}.

#[global] Instance flock_eq_dec : EqDecision flock.
Proof. solve_decision. Defined.

Inductive event : Type :=
  | EVENT_MOTION_START
  | EVENT_MOTION_END.

#[global] Instance event_eq_dec : EqDecision event.
Proof. solve_decision. Defined.

(** The static variables of the module ([s_move_markers] only feeds the
    renderer and is left out), the entity store and the log of
    notifications. *)
Record world : Type := mk_world {
  entities : N → entity;
  s_flocks : list flock;
  s_entity_state_table : gmap N movestate;
  notified : list (event * N)
}.

Definition set_entities (w : world) (es : N → entity) : world :=
  mk_world es (s_flocks w) (s_entity_state_table w) (notified w).

Definition set_flocks (w : world) (fl : list flock) : world :=
  mk_world (entities w) fl (s_entity_state_table w) (notified w).

Definition set_state_table (w : world) (t : gmap N movestate) : world :=
  mk_world (entities w) (s_flocks w) t (notified w).

(** [E_Entity_Notify(ev, uid, NULL, ES_ENGINE)] *)
Definition E_Entity_Notify (ev : event) (uid : N) (w : world) : world :=
  mk_world (entities w) (s_flocks w) (s_entity_state_table w)
           (notified w ++ [(ev, uid)]).

(** [ent->field = v] through the pointer [uid]. *)
Definition store_entity (w : world) (uid : N) (e : entity) : world :=
  set_entities w (λ u, if decide (u = uid) then e else entities w u).

(** [(vec2_t){ent->pos.x, ent->pos.z}] *)
Definition xz_pos (e : entity) : vec2 := mk_vec2 (x (pos e)) (z (pos e)).

(** ** Loops *)

(** [kh_foreach] without [break]: the body runs once per element, in the
    iteration order of the table, and an abort inside the body aborts the
    loop. *)
Fixpoint kh_foreach {A S : Type} (body : S → A → option S)
    (l : list A) (s : S) : option S :=
  match l with
  | [] => Some s
  | a :: l' => s' ← body s a; kh_foreach body l' s'
  end.

(** Modelled from the spec: [kv_del] of lib/public/kvec.h, which is not among
    the sources. The comment at its call site says "the last element in the
    vector takes the place of the deleted one", the spec calls it
    swap-remove. *)
Definition kv_del {A : Type} (v : list A) (i : nat) : list A :=
  match last v with
  | Some e => take (length v - 1) (<[i := e]> v)
  | None => v
  end.

(** [kv_push] *)
Definition kv_push {A : Type} (v : list A) (e : A) : list A := v ++ [e].

(** ** vec2_truncate *)

Definition vec2_truncate (inout : vec2) (max_len : R) : vec2 :=
  if Rgt_dec (PFM_Vec2_Len inout) max_len
  then PFM_Vec2_Scale (PFM_Vec2_Normal inout) max_len
  else inout.

Section Movement.

#[local] Set Default Proof Using "Type".

(** What movement.c takes from headers and libraries that are not among the
    sources: the flag bit of entity.h, the two map queries of map/public/map.h
    (at the fixed [s_map]) and [atan2] of libm. *)
Variable ENTITY_FLAG_STATIC : N.
Variable M_ClampedMapCoordinate : vec2 → vec2.
Variable M_HeightAtPoint : vec2 → R.
Variable atan2 : R → R → R.

(** ** make_flock_from_selection *)

(** [curr_ent->flags & ENTITY_FLAG_STATIC || curr_ent->max_speed == 0.0f]:
    the test under which both loops [continue]. *)
Definition skipped (e : entity) : bool :=
  negb (N.land (flags e) ENTITY_FLAG_STATIC =? 0)%N
  || bool_decide (max_speed e = 0%R).

(** One step [j] of the inner loop: [kh_get]/[kh_del] of the uid, then
    [kv_del] of the flock when its table is empty. *)
Definition remove_from_flock (uid : N) (j : nat) (fl : list flock)
    : list flock :=
  match fl !! j with
  | Some curr_flock =>
      let ents' := ents curr_flock ∖ {[uid]} in
      if decide (size ents' = 0)
      then kv_del fl j
      else <[j := mk_flock ents' (target_xz curr_flock)]> fl
  | None => fl
  end.

(** [for(int j = kv_size(s_flocks)-1; j >= 0; j--)]: [n] counts the indices
    still to visit, the next one is [n - 1]. *)
Fixpoint remove_from_flocks (uid : N) (n : nat) (fl : list flock)
    : list flock :=
  match n with
  | O => fl
  | S j => remove_from_flocks uid j (remove_from_flock uid j fl)
  end.

(** The first loop over the selection. *)
Definition remove_selection (es : N → entity) (sel : list N)
    (fl : list flock) : list flock :=
  foldl (λ fl curr_ent,
           if skipped (es curr_ent) then fl
           else remove_from_flocks curr_ent (length fl) fl)
        fl sel.

(** The body of the second loop, on the pair of the new flock's table and
    the world. [kh_put] on a key already present returns 0, which the
    assertion rejects. *)
Definition enroll (st : gset N * world) (curr_ent : N)
    : option (gset N * world) :=
  let '(new_ents, w) := st in
  if skipped (entities w curr_ent) then Some (new_ents, w)
  else
    _ ← guard (curr_ent ∉ new_ents);
    let new_ents := {[curr_ent]} ∪ new_ents in
    match s_entity_state_table w !! curr_ent with
    | None =>
        let w := set_state_table w
                   (<[curr_ent := mk_movestate vec2_zero STATE_MOVING]>
                      (s_entity_state_table w)) in
        Some (new_ents, E_Entity_Notify EVENT_MOTION_START curr_ent w)
    | Some ms =>
        let w := if decide (state ms = STATE_ARRIVED)
                 then E_Entity_Notify EVENT_MOTION_START curr_ent w
                 else w in
        Some (new_ents,
              set_state_table w
                (<[curr_ent := mk_movestate (velocity ms) STATE_MOVING]>
                   (s_entity_state_table w)))
    end.

(** [kh_init_ok] is the outcome of [kh_init(entity)]: [false] when the
    allocation fails. *)
Definition make_flock_from_selection (kh_init_ok : bool) (sel : list N)
    (target : vec2) (w : world) : option (bool * world) :=
  let w := set_flocks w (remove_selection (entities w) sel (s_flocks w)) in
  if negb kh_init_ok then Some (false, w)
  else
    '(new_ents, w) ← kh_foreach enroll sel (∅, w);
    Some (true, set_flocks w (kv_push (s_flocks w) (mk_flock new_ents target))).

(** ** adjacent_flock_members *)

Definition adjacent_flock_members (w : world) (ent : N) (f : flock)
    : list N :=
  let ent_xz_pos := xz_pos (entities w ent) in
  filter (λ curr,
            curr ≠ ent ∧
            (PFM_Vec2_Len (PFM_Vec2_Sub ent_xz_pos (xz_pos (entities w curr)))
             <= selection_radius (entities w ent)
                + selection_radius (entities w curr) + ADJACENCY_SEP_DIST)%R)
         (elements (ents f)).

(** ** Steering forces *)

Definition dir_quat_from_velocity (velocity : vec2) : option quat :=
  _ ← guard (PFM_Vec2_Len velocity > EPSILON)%R;
  let angle_rad := (atan2 (raw1 velocity) (raw0 velocity) - PI / 2)%R in
  Some (mk_quat 0 (1 * sin (angle_rad / 2)) 0 (cos (angle_rad / 2))).

Definition seek_force (w : world) (ent : N) (f : flock) (tick_res : Z)
    : option vec2 :=
  let e := entities w ent in
  let pos_xz := xz_pos e in
  let desired_velocity := PFM_Vec2_Sub (target_xz f) pos_xz in
  let desired_velocity := PFM_Vec2_Normal desired_velocity in
  let desired_velocity :=
    PFM_Vec2_Scale desired_velocity (max_speed e / IZR tick_res) in
  ms ← s_entity_state_table w !! ent;
  Some (PFM_Vec2_Sub desired_velocity (velocity ms)).

Definition arrive_force (w : world) (ent : N) (f : flock) (tick_res : Z)
    : option vec2 :=
  let e := entities w ent in
  let pos_xz := xz_pos e in
  let desired_velocity := PFM_Vec2_Sub (target_xz f) pos_xz in
  let distance := PFM_Vec2_Len desired_velocity in
  let desired_velocity := PFM_Vec2_Normal desired_velocity in
  let desired_velocity :=
    PFM_Vec2_Scale desired_velocity (max_speed e / IZR tick_res) in
  let desired_velocity :=
    if Rlt_dec distance ARRIVE_SLOWING_RADIUS
    then PFM_Vec2_Scale desired_velocity (distance / ARRIVE_SLOWING_RADIUS)
    else desired_velocity in
  ms ← s_entity_state_table w !! ent;
  let ret := PFM_Vec2_Sub desired_velocity (velocity ms) in
  Some (vec2_truncate ret MAX_FORCE).

(** The loops of the three neighbour forces carry the running sum and
    [neighbour_count]. *)
Definition alignment_body (w : world) (ent : N) (acc : vec2 * nat)
    (curr : N) : option (vec2 * nat) :=
  let '(ret, neighbour_count) := acc in
  if decide (curr = ent) then Some acc
  else
    let ent_xz_pos := xz_pos (entities w ent) in
    let curr_xz_pos := xz_pos (entities w curr) in
    let diff := PFM_Vec2_Sub curr_xz_pos ent_xz_pos in
    if Rlt_dec (PFM_Vec2_Len diff) ALIGN_NEIGHBOUR_RADIUS then
      ms ← s_entity_state_table w !! curr;
      if Rlt_dec (PFM_Vec2_Len (velocity ms)) EPSILON then Some acc
      else Some (PFM_Vec2_Add ret (velocity ms), S neighbour_count)
    else Some acc.

Definition alignment_force (w : world) (ent : N) (f : flock) (tick_res : Z)
    : option vec2 :=
  '(ret, neighbour_count) ←
    kh_foreach (alignment_body w ent) (elements (ents f)) (vec2_zero, O);
  if decide (neighbour_count = O) then Some vec2_zero
  else
    ms ← s_entity_state_table w !! ent;
    let ret := PFM_Vec2_Scale ret (1 / INR neighbour_count) in
    let ret := PFM_Vec2_Sub ret (velocity ms) in
    Some (vec2_truncate ret MAX_FORCE).

Definition cohesion_body (w : world) (ent : N) (acc : vec2 * nat)
    (curr : N) : vec2 * nat :=
  let '(COM, neighbour_count) := acc in
  if decide (curr = ent) then acc
  else
    let ent_xz_pos := xz_pos (entities w ent) in
    let curr_xz_pos := xz_pos (entities w curr) in
    let diff := PFM_Vec2_Sub curr_xz_pos ent_xz_pos in
    if Rlt_dec (PFM_Vec2_Len diff) COHESION_NEIGHBOUR_RADIUS
    then (PFM_Vec2_Add COM (xz_pos (entities w curr)), S neighbour_count)
    else acc.

Definition cohesion_force (w : world) (ent : N) (f : flock) (tick_res : Z)
    : vec2 :=
  let '(COM, neighbour_count) :=
    foldl (cohesion_body w ent) (vec2_zero, O) (elements (ents f)) in
  if decide (neighbour_count = O) then vec2_zero
  else
    let xz := xz_pos (entities w ent) in
    let COM := PFM_Vec2_Scale COM (1 / INR neighbour_count) in
    vec2_truncate (PFM_Vec2_Sub COM xz) MAX_FORCE.

Definition separation_body (w : world) (ent : N) (NEIGHBOUR_RADIUS : R)
    (acc : vec2 * nat) (curr : N) : vec2 * nat :=
  let '(ret, neighbour_count) := acc in
  if decide (curr = ent) then acc
  else
    let ent_xz_pos := xz_pos (entities w ent) in
    let curr_xz_pos := xz_pos (entities w curr) in
    let diff := PFM_Vec2_Sub curr_xz_pos ent_xz_pos in
    if Rlt_dec (PFM_Vec2_Len diff) NEIGHBOUR_RADIUS then
      let frac := (1 - PFM_Vec2_Len diff / NEIGHBOUR_RADIUS)%R in
      let diff := PFM_Vec2_Scale diff frac in
      (PFM_Vec2_Add ret diff, S neighbour_count)
    else acc.

Definition separation_force (w : world) (ent : N) (f : flock) (tick_res : Z)
    (buffer_dist : R) : vec2 :=
  let NEIGHBOUR_RADIUS := (selection_radius (entities w ent) + buffer_dist)%R in
  let '(ret, neighbour_count) :=
    foldl (separation_body w ent NEIGHBOUR_RADIUS) (vec2_zero, O)
          (elements (ents f)) in
  if decide (neighbour_count = O) then vec2_zero
  else
    vec2_truncate (PFM_Vec2_Scale ret (-1 / INR neighbour_count)) MAX_FORCE.

Definition total_steering_force (w : world) (ent : N) (f : flock)
    (tick_res : Z) : option vec2 :=
  ms ← s_entity_state_table w !! ent;
  arrive ← arrive_force w ent f tick_res;
  let cohesion := cohesion_force w ent f tick_res in
  alignment ← alignment_force w ent f tick_res;
  let ret := vec2_zero in
  let ret :=
    match state ms with
    | STATE_MOVING =>
        let separation :=
          separation_force w ent f tick_res MOVE_SEPARATION_BUFFER_DIST in
        let separation :=
          PFM_Vec2_Scale separation MOVE_SEPARATION_FORCE_SCALE in
        let arrive := PFM_Vec2_Scale arrive MOVE_ARRIVE_FORCE_SCALE in
        let cohesion := PFM_Vec2_Scale cohesion MOVE_COHESION_FORCE_SCALE in
        let alignment := PFM_Vec2_Scale alignment MOVE_ALIGN_FORCE_SCALE in
        let ret := PFM_Vec2_Add ret separation in
        let ret := PFM_Vec2_Add ret arrive in
        let ret := PFM_Vec2_Add ret cohesion in
        PFM_Vec2_Add ret alignment
    | STATE_SETTLING =>
        let separation :=
          separation_force w ent f tick_res SETTLE_SEPARATION_BUFFER_DIST in
        let separation :=
          PFM_Vec2_Scale separation SETTLE_SEPARATION_FORCE_SCALE in
        PFM_Vec2_Add ret separation
    | STATE_ARRIVED => ret
    end in
  Some (vec2_truncate ret MAX_FORCE).

(** ** on_30hz_tick *)

(** The disband test of a flock: the loop stops ([break]) at the first member
    that has not arrived. *)
Fixpoint all_arrived (t : gmap N movestate) (members : list N)
    : option bool :=
  match members with
  | [] => Some true
  | curr :: rest =>
      ms ← t !! curr;
      if decide (state ms ≠ STATE_ARRIVED) then Some false
      else all_arrived t rest
  end.

(** The loop over [adjacent]: it stops at the first neighbour that is
    settling or has arrived. *)
Fixpoint near_settled (t : gmap N movestate) (adjacent : list N)
    : option bool :=
  match adjacent with
  | [] => Some false
  | a :: rest =>
      ms ← t !! a;
      if decide (state ms = STATE_ARRIVED ∨ state ms = STATE_SETTLING)
      then Some true
      else near_settled t rest
  end.

Definition set_pos (e : entity) (p : vec3) : entity :=
  mk_entity (flags e) (max_speed e) p (selection_radius e) (rotation e).

Definition set_rotation (e : entity) (q : quat) : entity :=
  mk_entity (flags e) (max_speed e) (pos e) (selection_radius e) q.

(** [kh_value(s_entity_state_table, k).state = st] *)
Definition set_state (st : arrival_state) (ms : movestate) : movestate :=
  mk_movestate (velocity ms) st.

(** [kh_value(s_entity_state_table, k) = (struct movestate){STATE_ARRIVED, 0}]
    followed by the notification. *)
Definition mark_arrived (w : world) (curr : N) : world :=
  E_Entity_Notify EVENT_MOTION_END curr
    (set_state_table w
       (<[curr := mk_movestate vec2_zero STATE_ARRIVED]>
          (s_entity_state_table w))).

(** The body of the loop over the members of flock [f]. *)
Definition tick_entity (f : flock) (w : world) (curr : N) : option world :=
  steer_force ← total_steering_force w curr f TICK_RES;
  let steer_accel := PFM_Vec2_Scale steer_force (1 / ENTITY_MASS) in
  ms ← s_entity_state_table w !! curr;
  let old_velocity := velocity ms in
  let e := entities w curr in
  let new_velocity :=
    vec2_truncate (PFM_Vec2_Add old_velocity steer_accel)
                  (max_speed e / IZR TICK_RES) in
  let new_xz_pos :=
    M_ClampedMapCoordinate (PFM_Vec2_Add (xz_pos e) new_velocity) in
  let e :=
    set_pos e (mk_vec3 (raw0 new_xz_pos) (M_HeightAtPoint new_xz_pos)
                       (raw1 new_xz_pos)) in
  e ← (if decide (PFM_Vec2_Len new_velocity > EPSILON)%R
       then set_rotation e <$> dir_quat_from_velocity new_velocity
       else Some e);
  let w := store_entity w curr e in
  let w :=
    set_state_table w
      (<[curr := mk_movestate new_velocity (state ms)]>
         (s_entity_state_table w)) in
  match state ms with
  | STATE_MOVING =>
      let diff_to_target :=
        PFM_Vec2_Sub (target_xz f) (xz_pos (entities w curr)) in
      let w :=
        if decide (PFM_Vec2_Len diff_to_target < ARRIVE_THRESHOLD_DIST)%R
        then mark_arrived w curr
        else w in
      let adjacent := adjacent_flock_members w curr f in
      settle ← near_settled (s_entity_state_table w) adjacent;
      if settle : bool
      then Some (set_state_table w
                   (alter (set_state STATE_SETTLING) curr
                          (s_entity_state_table w)))
      else Some w
  | STATE_SETTLING =>
      if decide (PFM_Vec2_Len new_velocity
                 < SETTLE_STOP_TOLERANCE * max_speed (entities w curr))%R
      then Some (mark_arrived w curr)
      else Some w
  | STATE_ARRIVED => Some w
  end.

(** The body of the loop over the flocks, at index [i]. *)
Definition tick_flock (i : nat) (w : world) : option world :=
  f ← s_flocks w !! i;
  disband ← all_arrived (s_entity_state_table w) (elements (ents f));
  if disband : bool
  then Some (set_flocks w (kv_del (s_flocks w) i))
  else kh_foreach (tick_entity f) (elements (ents f)) w.

(** [for(int i = kv_size(s_flocks)-1; i >= 0; i--)]: [n] counts the indices
    still to visit. *)
Fixpoint tick_flocks (n : nat) (w : world) : option world :=
  match n with
  | O => Some w
  | S i => w' ← tick_flock i w; tick_flocks i w'
  end.

Definition on_30hz_tick (w : world) : option world :=
  tick_flocks (length (s_flocks w)) w.

(** The state [G_Move_Init] leaves when its allocation succeeds. *)
Definition G_Move_Init (es : N → entity) : world := mk_world es [] ∅ [].

(** ** on_mousedown *)

(** [SDL_BUTTON_RIGHT] of SDL_mouse.h, which is not among the sources. *)
Variable SDL_BUTTON_RIGHT : Z.

(** What the handler reads from outside the module: the button of the SDL
    event, [G_MouseOverMinimap], [S_UI_MouseOverWindow] at the position of
    the event, and [M_Raycast_IntersecCoordinate], which gives a coordinate
    when it returns true. *)
Record click : Type := mk_click {
  button : Z;
  over_minimap : bool;
  over_window : bool;
  raycast : option vec3
}.

(** The module's state with [s_move_markers], the vector of the pointers to
    the marker entities. *)
Record module : Type := mk_module {
  core : world;
  s_move_markers : list N
}.

(** [loaded] is the outcome of [AL_EntityFromPFObj]: the uid of the new
    entity and the struct the loader filled in, or [None] for NULL, which
    the assertion rejects. Of the writes to the new entity the position is in
    the entity store; the scale, the animation context and the registration
    of [on_marker_anim_finish] with the event bus are state of the renderer,
    of the animation system and of the bus. *)
Definition move_marker_add (mouse_pos : vec3) (loaded : option (N * entity))
    (m : module) : option module :=
  '(uid, ent) ← loaded;
  let w := store_entity (core m) uid (set_pos ent mouse_pos) in
  Some (mk_module w (kv_push (s_move_markers m) uid)).

(** [sel] is the vector [G_Sel_Get] returns. The result of
    [make_flock_from_selection] is discarded. *)
Definition on_mousedown (c : click) (sel : list N)
    (loaded : option (N * entity)) (kh_init_ok : bool) (m : module)
    : option module :=
  if decide (button c ≠ SDL_BUTTON_RIGHT) then Some m
  else if over_minimap c then Some m
  else if over_window c then Some m
  else
    match raycast c with
    | None => Some m
    | Some mouse_coord =>
        if decide (0 < length sel)%nat then
          m ← move_marker_add mouse_coord loaded m;
          '(_, w) ← make_flock_from_selection kh_init_ok sel
                      (mk_vec2 (x mouse_coord) (z mouse_coord)) (core m);
          Some (mk_module w (s_move_markers m))
        else Some m
    end.


(** ** The specification's vocabulary *)

(** The order of the phases: MOVING, then SETTLING, then ARRIVED. *)
Definition phase_rank (st : arrival_state) : nat :=
  match st with
  | STATE_MOVING => 0
  | STATE_SETTLING => 1
  | STATE_ARRIVED => 2
  end.

Definition phase_le (a b : arrival_state) : Prop :=
  phase_rank a ≤ phase_rank b.

(** The arrive force as the specification words it: the seek velocity
    [normalize(target - position) * (maxSpeed / tickRate)], scaled by
    [distance / slowingRadius] inside the slowing radius, minus the current
    velocity, magnitude-clamped to [MAX_FORCE]. *)
Definition magnitude (v : vec2) : R := sqrt ((raw0 v)² + (raw1 v)²).

Definition times (k : R) (v : vec2) : vec2 :=
  mk_vec2 (k * raw0 v) (k * raw1 v).

Definition minus (a b : vec2) : vec2 :=
  mk_vec2 (raw0 a - raw0 b) (raw1 a - raw1 b).

Definition normalize (v : vec2) : vec2 := times (/ magnitude v) v.

Definition clamp_magnitude (v : vec2) (limit : R) : vec2 :=
  if decide (magnitude v <= limit)%R then v
  else times (limit / magnitude v) v.

Definition arrive_spec (target position current : vec2)
    (maxSpeed tickRate : R) : vec2 :=
  let distance := magnitude (minus target position) in
  let seek := times (maxSpeed / tickRate) (normalize (minus target position)) in
  let desired :=
    if decide (distance < 10)%R then times (distance / 10) seek else seek in
  clamp_magnitude (minus desired current) 1.

(** The selected entities that [make_flock_from_selection] does not skip. *)
Definition eligible (es : N → entity) (sel : list N) : list N :=
  filter (λ u, skipped (es u) = false) sel.

(** A flock after the uids of [gone] have left it. *)
Definition carve (gone : gset N) (f : flock) : flock :=
  mk_flock (ents f ∖ gone) (target_xz f).

(** The registry after the uids of [gone] have left every flock and the
    flocks without a member have been destroyed. *)
Definition purge (gone : gset N) (fl : list flock) : list flock :=
  filter (λ f, ents f ≠ ∅) (carve gone <$> fl).

(** The registry the first loop of [make_flock_from_selection] leaves, up to
    the order of the flocks: it is untouched when nothing selected is
    eligible. *)
Definition carved_registry (es : N → entity) (sel : list N)
    (fl : list flock) : list flock :=
  match eligible es sel with
  | [] => fl
  | _ => purge (list_to_set (eligible es sel)) fl
  end.

(** The number of flocks of the registry that [u] is a member of. *)
Definition memberships (u : N) (fl : list flock) : nat :=
  length (filter (λ f, u ∈ ents f) fl).

(** An agent is a member of at most one flock. *)
Definition one_flock (fl : list flock) : Prop :=
  ∀ u, memberships u fl ≤ 1.

(** [make_flock_from_selection] notifies EVENT_MOTION_START for an entity
    without a MotionState or with one in the ARRIVED phase. *)
Definition starts_motion (t : gmap N movestate) (u : N) : Prop :=
  match t !! u with
  | None => True
  | Some ms => state ms = STATE_ARRIVED
  end.

#[global] Instance starts_motion_dec (t : gmap N movestate) (u : N) :
  Decision (starts_motion t u).
Proof. unfold starts_motion. destruct (t !! u); apply _. Defined.

(** The MotionState of an enrolled entity: phase MOVING, with the velocity
    it had, or zero for a new entry. *)
Definition enrolled_state (t : gmap N movestate) (u : N) : movestate :=
  mk_movestate (match t !! u with
                | Some ms => velocity ms
                | None => vec2_zero
                end) STATE_MOVING.

(** Every member of the flock has arrived: the disband condition. *)
Definition flock_arrived (t : gmap N movestate) (f : flock) : Prop :=
  ∀ u, u ∈ ents f → ∃ ms, t !! u = Some ms ∧ state ms = STATE_ARRIVED.

(** Every member of every flock has a MotionState: what the assertions of
    the tick ask for, and what [make_flock_from_selection] provides. *)
Definition registered (w : world) : Prop :=
  ∀ f, f ∈ s_flocks w →
  ∀ u, u ∈ ents f → is_Some (s_entity_state_table w !! u).

(** An agent in the ARRIVED phase is at rest. *)
Definition arrived_at_rest (t : gmap N movestate) : Prop :=
  ∀ u ms, t !! u = Some ms → state ms = STATE_ARRIVED →
  velocity ms = vec2_zero.

(** The stored velocity of [u] is within [max_speed / TICK_RES]. *)
Definition speed_bounded (w : world) (u : N) : Prop :=
  ∃ ms, s_entity_state_table w !! u = Some ms
        ∧ (PFM_Vec2_Len (velocity ms)
           <= max_speed (entities w u) / IZR TICK_RES)%R.

(** The tick has left [u] alone: its MotionState, its entity and the
    notifications about it are as they were. *)
Definition untouched (u : N) (w w' : world) : Prop :=
  s_entity_state_table w' !! u = s_entity_state_table w !! u
  ∧ entities w' u = entities w u
  ∧ filter (λ e, e.2 = u) (notified w') = filter (λ e, e.2 = u) (notified w).

(** [n] ticks in a row. *)
Fixpoint ticks (n : nat) (w : world) : option world :=
  match n with
  | O => Some w
  | S n' => w' ← on_30hz_tick w; ticks n' w'
  end.

(** The operations on the module's state: a call of
    [make_flock_from_selection], a tick, or the rest of the engine writing
    to entities between two calls. *)
Inductive step : world → world → Prop :=
  | step_make_flock (ok : bool) (sel : list N) (target : vec2)
      (w w' : world) (r : bool) :
      make_flock_from_selection ok sel target w = Some (r, w') → step w w'
  | step_tick (w w' : world) :
      on_30hz_tick w = Some w' → step w w'
  | step_engine (w : world) (es : N → entity) :
      step w (set_entities w es).

(** The states the module can be in: those the operations lead to from the
    state after [G_Move_Init]. *)
Definition reachable (w : world) : Prop :=
  ∃ es, rtc step (G_Move_Init es) w.

(** What any part of a tick does to the world: flocks are only destroyed,
    MotionStates are neither created nor deleted and their phases only
    advance, the maximum speeds stay, agents at rest in the ARRIVED phase
    stay so, and a bounded velocity stays bounded. *)
Record advances (w w' : world) : Prop := mk_advances {
  adv_flocks : s_flocks w' ⊆+ s_flocks w;
  adv_phase : ∀ u ms, s_entity_state_table w !! u = Some ms →
    ∃ ms', s_entity_state_table w' !! u = Some ms'
           ∧ phase_le (state ms) (state ms');
  adv_fresh : ∀ u, s_entity_state_table w !! u = None →
    s_entity_state_table w' !! u = None;
  adv_speed : ∀ u, max_speed (entities w' u) = max_speed (entities w u);
  adv_rest : arrived_at_rest (s_entity_state_table w) →
    arrived_at_rest (s_entity_state_table w');
  adv_bound : ∀ u, (0 <= max_speed (entities w u))%R →
    speed_bounded w u → speed_bounded w' u
}.

(** ** Sample data *)

(** A flag bit for ENTITY_FLAG_STATIC, a flat unbounded map, and the usual
    [atan2], to run the module on. *)
Definition sample_flag_static : N := 8.

Definition flat_clamp (p : vec2) : vec2 := p.

Definition flat_height (p : vec2) : R := 0.

Definition atan2_of_atan (b a : R) : R :=
  if decide (0 < a)%R then atan (b / a)
  else if decide (a < 0)%R
       then (if decide (0 <= b)%R then atan (b / a) + PI
             else atan (b / a) - PI)%R
       else if decide (0 < b)%R then (PI / 2)%R
            else if decide (b < 0)%R then (- PI / 2)%R else 0%R.

Definition facing_default : quat := mk_quat 0 0 0 1.

(** Entities 1 and 2 can move, at 30 units per second; 3 is static, 4 has no
    speed, 5 carries a negative [max_speed], and 6 stands 3 units from 1. *)
Definition sample_entities (u : N) : entity :=
  match u with
  | 1%N => mk_entity 0 30 (mk_vec3 0 0 0) 1 facing_default
  | 2%N => mk_entity 0 30 (mk_vec3 50 0 0) 1 facing_default
  | 3%N => mk_entity sample_flag_static 30 (mk_vec3 0 0 50) 1 facing_default
  | 4%N => mk_entity 0 0 (mk_vec3 50 0 50) 1 facing_default
  | 5%N => mk_entity 0 (-30) (mk_vec3 0 0 0) 1 facing_default
  | 6%N => mk_entity 0 30 (mk_vec3 3 0 0) 1 facing_default
  | _ => mk_entity 0 30 (mk_vec3 0 0 0) 1 facing_default
  end.

Definition sample_target : vec2 := mk_vec2 100 0.

Definition moving_at_rest : movestate := mk_movestate vec2_zero STATE_MOVING.

Definition arrived : movestate := mk_movestate vec2_zero STATE_ARRIVED.

(** Entities 1 and 2 on their way to the target, in one flock. *)
Definition world_marching : world :=
  mk_world sample_entities
           [mk_flock ({[2%N]} ∪ ({[1%N]} ∪ ∅)) sample_target]
           (<[2%N := moving_at_rest]> (<[1%N := moving_at_rest]> ∅))
           [(EVENT_MOTION_START, 1%N); (EVENT_MOTION_START, 2%N)].

(** The same flock once both members have arrived. *)
Definition world_arrived : world :=
  mk_world sample_entities
           [mk_flock ({[2%N]} ∪ ({[1%N]} ∪ ∅)) sample_target]
           (<[2%N := arrived]> (<[1%N := arrived]> ∅))
           [].

(** Entity 1 alone in a flock. *)
Definition world_single : world :=
  mk_world sample_entities
           [mk_flock {[1%N]} sample_target]
           (<[1%N := moving_at_rest]> ∅)
           [].

(** Entity 5, of negative [max_speed], alone in a flock. *)
Definition world_backwards : world :=
  mk_world sample_entities
           [mk_flock {[5%N]} sample_target]
           (<[5%N := moving_at_rest]> ∅)
           [].

(** Entity 1 ordered to a point 3 units away, inside the arrive threshold. *)
Definition near_target : vec2 := mk_vec2 3 0.


(** The registry is as it was. *)
Definition same_flocks (w w' : world) : Prop := s_flocks w' = s_flocks w.

(** Entity 1 ordered to the point where entity 6 has arrived. *)
Definition world_pair : world :=
  mk_world sample_entities
           [mk_flock ({[1%N]} ∪ {[6%N]}) near_target]
           (<[6%N := arrived]> (<[1%N := moving_at_rest]> ∅))
           [].

(** ** Vocabulary of the further properties *)

(** An agent in the SETTLING phase with a positive [max_speed]. *)
Definition settling (w : world) (u : N) : Prop :=
  ∃ ms, s_entity_state_table w !! u = Some ms
        ∧ state ms = STATE_SETTLING
        ∧ (0 < max_speed (entities w u))%R.

(** The entity stands where the map puts it: its position is a clamped map
    coordinate and its height the height of the terrain there. *)
Definition on_the_spot (e : entity) : Prop :=
  M_ClampedMapCoordinate (xz_pos e) = xz_pos e
  ∧ M_HeightAtPoint (xz_pos e) = y (pos e).

(** What a part of a tick does to an agent that has arrived, is at rest and
    has a [max_speed] that is not negative: its MotionState and its rotation
    stay, nothing is notified about it, and its entity is not written to
    when it stands where the map puts it. *)
Definition left_at_rest (u : N) (w w' : world) : Prop :=
  s_entity_state_table w !! u = Some arrived →
  (0 <= max_speed (entities w u))%R →
  s_entity_state_table w' !! u = Some arrived
  ∧ max_speed (entities w' u) = max_speed (entities w u)
  ∧ rotation (entities w' u) = rotation (entities w u)
  ∧ filter (λ e, e.2 = u) (notified w') = filter (λ e, e.2 = u) (notified w)
  ∧ (on_the_spot (entities w u) → entities w' u = entities w u).

(** What a part of a tick does to a settling agent: nothing, or it marks the
    agent as arrived, at rest, with one EVENT_MOTION_END. *)
Definition comes_to_rest (u : N) (w w' : world) : Prop :=
  settling w u →
  untouched u w w'
  ∨ (s_entity_state_table w' !! u = Some arrived
     ∧ max_speed (entities w' u) = max_speed (entities w u)
     ∧ filter (λ e, e.2 = u) (notified w')
       = filter (λ e, e.2 = u) (notified w) ++ [(EVENT_MOTION_END, u)]).

(** Both, for the agent [u]. *)
Definition settles (u : N) (w w' : world) : Prop :=
  comes_to_rest u w w' ∧ left_at_rest u w w'.

(** The position is a clamped map coordinate at the height of the terrain. *)
Definition grounded (e : entity) : Prop :=
  ∃ p, pos e = mk_vec3 (raw0 (M_ClampedMapCoordinate p))
                       (M_HeightAtPoint (M_ClampedMapCoordinate p))
                       (raw1 (M_ClampedMapCoordinate p)).

(** A part of a tick writes only positions and rotations, and a position it
    has written is on the terrain. *)
Definition moved_on_terrain (w w' : world) : Prop :=
  ∀ u, flags (entities w' u) = flags (entities w u)
       ∧ max_speed (entities w' u) = max_speed (entities w u)
       ∧ selection_radius (entities w' u) = selection_radius (entities w u)
       ∧ (entities w' u = entities w u ∨ grounded (entities w' u)).

(** A part of a tick notifies only EVENT_MOTION_END, about agents that had
    not arrived before and are not in the MOVING phase after. *)
Definition ends_motion (w w' : world) : Prop :=
  advances w w'
  ∧ ∃ evs, notified w' = notified w ++ evs
      ∧ ∀ ev u, (ev, u) ∈ evs →
          ev = EVENT_MOTION_END
          ∧ (∃ ms, s_entity_state_table w !! u = Some ms
                   ∧ state ms ≠ STATE_ARRIVED)
          ∧ (∃ ms', s_entity_state_table w' !! u = Some ms'
                    ∧ state ms' ≠ STATE_MOVING).

(** What a part of a tick does to a settling agent whose [max_speed] is not
    positive: it stays in the SETTLING phase. *)
Definition stays_settling (u : N) (w w' : world) : Prop :=
  (∃ ms, s_entity_state_table w !! u = Some ms
         ∧ state ms = STATE_SETTLING) →
  (max_speed (entities w u) <= 0)%R →
  (∃ ms', s_entity_state_table w' !! u = Some ms'
          ∧ state ms' = STATE_SETTLING)
  ∧ (max_speed (entities w' u) <= 0)%R.

(** ** Further sample data *)


(** Entity 5, of negative [max_speed], settling alone in its flock. *)
Definition world_backwards_settling : world :=
  mk_world sample_entities
           [mk_flock {[5%N]} sample_target]
           (<[5%N := mk_movestate vec2_zero STATE_SETTLING]> ∅)
           [].

(** The flock of [world_marching] and of [world_arrived], and the flock of
    [world_pair]. *)
Definition marching_flock : flock :=
  mk_flock ({[2%N]} ∪ ({[1%N]} ∪ ∅)) sample_target.

Definition pair_flock : flock := mk_flock ({[1%N]} ∪ {[6%N]}) near_target.

(** A right click on the terrain at (100, 0, 0), the arrow entity the loader
    returns for the marker, and the module after the flock of entities 1 and
    2 has arrived, without a marker. *)
Definition sample_click : click :=
  mk_click 3 false false (Some (mk_vec3 100 0 0)).

Definition sample_marker : entity :=
  mk_entity 0 0 (mk_vec3 0 0 0) 1 facing_default.

Definition sample_module : module := mk_module world_arrived [].


(** * Properties *)

Local Open Scope R_scope.

Lemma PFM_Vec2_Len_nonneg (v : vec2) : 0 <= PFM_Vec2_Len v.
Proof. apply sqrt_pos. Qed.

Lemma PFM_Vec2_Len_sqr (v : vec2) :
  PFM_Vec2_Len v * PFM_Vec2_Len v = raw0 v * raw0 v + raw1 v * raw1 v.
Proof. unfold PFM_Vec2_Len. apply sqrt_sqrt. nra. Qed.

Lemma PFM_Vec2_Len_zero : PFM_Vec2_Len vec2_zero = 0.
Proof.
  unfold PFM_Vec2_Len, vec2_zero; simpl.
  replace (0 * 0 + 0 * 0) with 0 by lra. apply sqrt_0.
Qed.

(** Scaling the normal of a vector that is not null gives the length asked
    for. *)
Lemma PFM_Vec2_Len_rescaled (v : vec2) (m : R) :
  0 < PFM_Vec2_Len v → 0 <= m →
  PFM_Vec2_Len (PFM_Vec2_Scale (PFM_Vec2_Normal v) m) = m.
Proof.
  intros Hpos Hm.
  pose proof (PFM_Vec2_Len_sqr v) as Hsq.
  unfold PFM_Vec2_Len at 1. unfold PFM_Vec2_Scale, PFM_Vec2_Normal.
  cbn [raw0 raw1].
  set (L := PFM_Vec2_Len v) in *.
  apply sqrt_lem_1; [nra | exact Hm |].
  transitivity (m * m * ((raw0 v * raw0 v + raw1 v * raw1 v) / (L * L))).
  - rewrite <- Hsq. field. lra.
  - field. lra.
Qed.

Lemma vec2_truncate_len (v : vec2) (m : R) :
  0 <= m → PFM_Vec2_Len (vec2_truncate v m) <= m.
Proof.
  intros Hm. unfold vec2_truncate.
  destruct (Rgt_dec (PFM_Vec2_Len v) m) as [Hgt | Hle].
  - rewrite PFM_Vec2_Len_rescaled; lra.
  - lra.
Qed.

Lemma vec2_truncate_small (v : vec2) (m : R) :
  PFM_Vec2_Len v <= m → vec2_truncate v m = v.
Proof.
  intros Hle. unfold vec2_truncate.
  destruct (Rgt_dec (PFM_Vec2_Len v) m); [lra | reflexivity].
Qed.

Lemma vec2_eq (a b : vec2) : raw0 a = raw0 b → raw1 a = raw1 b → a = b.
Proof. destruct a, b; simpl; intros -> ->; reflexivity. Qed.

(** *** The arrive force against the specification's formula *)

Lemma magnitude_Len (v : vec2) : magnitude v = PFM_Vec2_Len v.
Proof. reflexivity. Qed.

Lemma normalize_Normal (v : vec2) : normalize v = PFM_Vec2_Normal v.
Proof.
  unfold normalize, PFM_Vec2_Normal, times.
  change magnitude with PFM_Vec2_Len.
  apply vec2_eq; simpl; unfold Rdiv; ring.
Qed.

Lemma times_Scale (k : R) (v : vec2) : times k v = PFM_Vec2_Scale v k.
Proof. apply vec2_eq; simpl; ring. Qed.

Lemma clamp_magnitude_truncate (v : vec2) (limit : R) :
  clamp_magnitude v limit = vec2_truncate v limit.
Proof.
  unfold clamp_magnitude, vec2_truncate. change magnitude with PFM_Vec2_Len.
  destruct (decide (PFM_Vec2_Len v <= limit)) as [Hle | Hgt];
    destruct (Rgt_dec (PFM_Vec2_Len v) limit) as [Hgt' | Hle']; try lra.
  - reflexivity.
  - apply vec2_eq; simpl; unfold Rdiv; ring.
Qed.

(** C9: for an agent with a MotionState, [arrive_force] is the
    specification's arrive force: the seek velocity
    normalize(target - position) * (maxSpeed / tickRate), scaled by
    distance / 10 when the distance to the target is below the slowing
    radius 10, minus the current velocity, clamped to magnitude 1. *)
Theorem arrive_force_meets_spec (w : world) (ent : N) (f : flock)
    (tick_res : Z) (ms : movestate) :
  s_entity_state_table w !! ent = Some ms →
  arrive_force w ent f tick_res =
    Some (arrive_spec (target_xz f) (xz_pos (entities w ent)) (velocity ms)
                      (max_speed (entities w ent)) (IZR tick_res)).
Proof.
  intros Hms. unfold arrive_force, arrive_spec. rewrite Hms. simpl.
  rewrite clamp_magnitude_truncate, !times_Scale, normalize_Normal.
  change minus with PFM_Vec2_Sub. change magnitude with PFM_Vec2_Len.
  unfold ARRIVE_SLOWING_RADIUS, MAX_FORCE.
  destruct (Rlt_dec _ 10) as [Hlt | Hge];
    destruct (decide (_ < 10)) as [Hlt' | Hge']; try contradiction;
    reflexivity.
Qed.

(** *** The total steering force *)

Lemma alignment_loop_total (w : world) (ent : N) (l : list N)
    (acc : vec2 * nat) :
  (∀ u, u ∈ l → is_Some (s_entity_state_table w !! u)) →
  is_Some (kh_foreach (alignment_body w ent) l acc).
Proof.
  revert acc. induction l as [| a l IH]; intros acc Hl; simpl; [eauto |].
  assert (Ha : is_Some (s_entity_state_table w !! a))
    by (apply Hl; left).
  destruct Ha as [ms Hms].
  assert (Hstep : is_Some (alignment_body w ent acc a)).
  { unfold alignment_body. destruct acc as [ret n].
    destruct (decide (a = ent)); [eauto |].
    destruct (Rlt_dec _ ALIGN_NEIGHBOUR_RADIUS); [| eauto].
    rewrite Hms. simpl. destruct (Rlt_dec _ EPSILON); eauto. }
  destruct Hstep as [acc' ->]. simpl.
  apply IH. intros u Hu. apply Hl. by right.
Qed.

Lemma alignment_force_total (w : world) (ent : N) (f : flock) (tick_res : Z) :
  is_Some (s_entity_state_table w !! ent) →
  (∀ u, u ∈ ents f → is_Some (s_entity_state_table w !! u)) →
  is_Some (alignment_force w ent f tick_res).
Proof.
  intros [ms Hms] Hf. unfold alignment_force.
  destruct (alignment_loop_total w ent (elements (ents f)) (vec2_zero, O))
    as [[ret n] ->].
  { intros u Hu. apply Hf. by apply elem_of_elements. }
  simpl. destruct (decide (n = O)); [eauto |].
  rewrite Hms. simpl. eauto.
Qed.

Lemma arrive_force_total (w : world) (ent : N) (f : flock) (tick_res : Z) :
  is_Some (s_entity_state_table w !! ent) →
  is_Some (arrive_force w ent f tick_res).
Proof. intros [ms Hms]. unfold arrive_force. rewrite Hms. simpl. eauto. Qed.


Lemma total_steering_force_total (w : world) (ent : N) (f : flock)
    (tick_res : Z) :
  is_Some (s_entity_state_table w !! ent) →
  (∀ u, u ∈ ents f → is_Some (s_entity_state_table w !! u)) →
  is_Some (total_steering_force w ent f tick_res).
Proof.
  intros Hent Hf.
  destruct (alignment_force_total w ent f tick_res Hent Hf) as [al Hal].
  destruct Hent as [ms Hms].
  unfold total_steering_force. rewrite Hms. simpl.
  destruct (arrive_force_total w ent f tick_res (ex_intro _ ms Hms))
    as [ar ->].
  simpl. rewrite Hal. simpl. eauto.
Qed.


(** *** kv_del *)

Local Close Scope R_scope.

Lemma kv_del_last {A : Type} (l1 : list A) (a : A) :
  kv_del (l1 ++ [a]) (length l1) = l1.
Proof.
  unfold kv_del. rewrite last_snoc, length_app. simpl.
  replace (length l1 + 1 - 1) with (length l1) by lia.
  rewrite insert_app_r_alt by lia. rewrite take_app_le by lia.
  by rewrite take_ge by lia.
Qed.

Lemma kv_del_mid {A : Type} (l1 l2 : list A) (a e : A) :
  kv_del (l1 ++ a :: l2 ++ [e]) (length l1) = l1 ++ e :: l2.
Proof.
  unfold kv_del.
  replace (l1 ++ a :: l2 ++ [e]) with ((l1 ++ a :: l2) ++ [e]) at 1
    by (by rewrite <- app_assoc).
  rewrite last_snoc. rewrite insert_app_r_alt by lia.
  replace (length l1 - length l1) with O by lia. simpl.
  rewrite !length_app. simpl. rewrite length_app. simpl.
  replace (length l1 + S (length l2 + 1) - 1)
    with (length l1 + S (length l2)) by lia.
  rewrite take_app_add' by done. simpl. f_equal. f_equal.
  rewrite take_app_le by lia. by rewrite take_ge by lia.
Qed.

(** Deleting index [length l1] keeps the elements before it in place and
    leaves the elements after it, in another order. *)
Lemma kv_del_split {A : Type} (l1 l2 : list A) (a : A) :
  ∃ l2', kv_del (l1 ++ a :: l2) (length l1) = l1 ++ l2' ∧ l2' ≡ₚ l2.
Proof.
  destruct (decide (l2 = [])) as [-> | Hne].
  - exists []. by rewrite kv_del_last, app_nil_r.
  - destruct (exists_last Hne) as (l2' & e & ->).
    exists (e :: l2'). rewrite kv_del_mid. split; [done |].
    by rewrite Permutation_app_comm.
Qed.

Lemma kv_del_lookup {A : Type} (v : list A) (i : nat) (a : A) :
  v !! i = Some a →
  ∃ l2', kv_del v i = take i v ++ l2' ∧ l2' ≡ₚ drop (S i) v.
Proof.
  intros Hi.
  pose proof (take_drop_middle v i a Hi) as Hv.
  pose proof (lookup_lt_Some _ _ _ Hi) as Hlt.
  destruct (kv_del_split (take i v) (drop (S i) v) a) as (l2' & Hdel & Hperm).
  rewrite Hv, length_take_le in Hdel by lia. eauto.
Qed.

Lemma kv_del_perm {A : Type} (v : list A) (i : nat) (a : A) :
  v !! i = Some a → kv_del v i ≡ₚ delete i v.
Proof.
  intros Hi. destruct (kv_del_lookup v i a Hi) as (l2' & -> & Hperm).
  rewrite Hperm. by rewrite <- delete_take_drop.
Qed.

Lemma kv_del_submseteq {A : Type} (v : list A) (i : nat) :
  kv_del v i ⊆+ v.
Proof.
  destruct (v !! i) as [a |] eqn:Hi.
  - rewrite (kv_del_perm v i a Hi). apply submseteq_delete.
  - unfold kv_del. destruct (last v) as [e |] eqn:Hlast; [| done].
    rewrite list_insert_ge by (by apply lookup_ge_None).
    apply sublist_submseteq, sublist_take.
Qed.

(** *** The first loop of make_flock_from_selection *)

Lemma purge_app (gone : gset N) (l1 l2 : list flock) :
  purge gone (l1 ++ l2) = purge gone l1 ++ purge gone l2.
Proof. unfold purge. by rewrite fmap_app, filter_app. Qed.

Lemma purge_perm (gone : gset N) (l1 l2 : list flock) :
  l1 ≡ₚ l2 → purge gone l1 ≡ₚ purge gone l2.
Proof. intros H. unfold purge. by rewrite H. Qed.

Lemma purge_perm_set (g1 g2 : gset N) (fl : list flock) :
  g1 = g2 → purge g1 fl ≡ₚ purge g2 fl.
Proof. by intros ->. Qed.

Lemma purge_purge (g1 g2 : gset N) (fl : list flock) :
  purge g2 (purge g1 fl) = purge (g1 ∪ g2) fl.
Proof.
  unfold purge. induction fl as [| f fl IH]; [done |].
  rewrite !fmap_cons.
  assert (Hc : carve g2 (carve g1 f) = carve (g1 ∪ g2) f).
  { unfold carve. simpl. f_equal. set_solver. }
  destruct (decide (ents (carve g1 f) = ∅)) as [He | Hne].
  - rewrite (filter_cons_False _ (carve g1 f)) by (intros ?; done).
    rewrite IH. rewrite filter_cons_False; [done |].
    intros Hn. apply Hn. simpl in *. set_solver.
  - rewrite (filter_cons_True _ (carve g1 f)) by done.
    rewrite fmap_cons, Hc.
    destruct (decide (ents (carve (g1 ∪ g2) f) = ∅)) as [He2 | Hne2].
    + rewrite !filter_cons_False by (intros ?; done). exact IH.
    + rewrite !filter_cons_True by done. by rewrite IH.
Qed.

(** Step [j] of the inner loop, on a registry split at [j]. *)
Lemma remove_from_flock_split (uid : N) (l1 l2 : list flock) (f : flock) :
  ∃ l2', remove_from_flock uid (length l1) (l1 ++ f :: l2)
           = l1 ++ purge {[uid]} [f] ++ l2'
         ∧ l2' ≡ₚ l2.
Proof.
  unfold remove_from_flock.
  rewrite list_lookup_middle by done.
  unfold purge. simpl.
  destruct (decide (size (ents f ∖ {[uid]}) = 0)) as [Hz | Hnz].
  - apply size_empty_iff in Hz.
    rewrite filter_cons_False
      by (intros Hn; apply Hn; simpl; by apply leibniz_equiv).
    rewrite filter_nil. simpl. apply kv_del_split.
  - rewrite filter_cons_True.
    2:{ simpl. intros He. apply Hnz. rewrite He. apply size_empty. }
    rewrite filter_nil. exists l2. split; [| done].
    rewrite insert_app_r_alt by lia.
    replace (length l1 - length l1) with O by lia. done.
Qed.

Lemma remove_from_flocks_spec (uid : N) (n : nat) (fl : list flock) :
  n ≤ length fl →
  remove_from_flocks uid n fl ≡ₚ purge {[uid]} (take n fl) ++ drop n fl.
Proof.
  revert fl. induction n as [| j IH]; intros fl Hn; simpl.
  - by rewrite drop_0.
  - destruct (lookup_lt_is_Some_2 fl j) as [f Hf]; [lia |].
    pose proof (take_drop_middle fl j f Hf) as Hfl.
    destruct (remove_from_flock_split uid (take j fl) (drop (S j) fl) f)
      as (l2' & Hstep & Hperm).
    rewrite Hfl, length_take_le in Hstep by lia.
    rewrite Hstep.
    rewrite IH.
    2:{ rewrite length_app, length_take_le by lia. lia. }
    rewrite take_app_length' by (rewrite length_take_le; lia).
    rewrite drop_app_length' by (rewrite length_take_le; lia).
    rewrite (take_S_r fl j f Hf), purge_app, Hperm.
    by rewrite <- app_assoc.
Qed.

Lemma remove_from_flocks_all (uid : N) (fl : list flock) :
  remove_from_flocks uid (length fl) fl ≡ₚ purge {[uid]} fl.
Proof.
  rewrite remove_from_flocks_spec by done.
  by rewrite firstn_all, drop_all, app_nil_r.
Qed.

Lemma remove_selection_spec (es : N → entity) (sel : list N)
    (fl : list flock) :
  remove_selection es sel fl ≡ₚ carved_registry es sel fl.
Proof.
  unfold remove_selection, carved_registry, eligible.
  revert fl. induction sel as [| u sel IH]; intros fl; simpl; [done |].
  destruct (skipped (es u)) eqn:Hsk.
  - rewrite filter_cons_False by (rewrite Hsk; done). apply IH.
  - rewrite filter_cons_True by done.
    rewrite IH.
    destruct (filter (λ u0, skipped (es u0) = false) sel) as [| v sel'] eqn:He.
    + rewrite remove_from_flocks_all. simpl.
      apply purge_perm_set. set_solver.
    + rewrite (purge_perm _ _ _ (remove_from_flocks_all u fl)).
      rewrite purge_purge. apply purge_perm_set. set_solver.
Qed.

(** *** The second loop of make_flock_from_selection *)

Lemma filter_ext_in {A : Type} (P Q : A → Prop)
    `{!∀ a, Decision (P a)} `{!∀ a, Decision (Q a)} (l : list A) :
  (∀ a, a ∈ l → P a ↔ Q a) → filter P l = filter Q l.
Proof.
  induction l as [| a l IH]; intros Hext; [done |].
  assert (Ha : P a ↔ Q a) by (apply Hext; left).
  assert (Hl : filter P l = filter Q l).
  { apply IH. intros b Hb. apply Hext. by right. }
  destruct (decide (P a)) as [HP | HP].
  - rewrite !filter_cons_True by tauto. by rewrite Hl.
  - rewrite !filter_cons_False by tauto. exact Hl.
Qed.

Lemma enroll_skipped (new_ents : gset N) (w : world) (u : N) :
  skipped (entities w u) = true →
  enroll (new_ents, w) u = Some (new_ents, w).
Proof. intros H. unfold enroll. by rewrite H. Qed.

Lemma enroll_eligible (new_ents : gset N) (w : world) (u : N) :
  skipped (entities w u) = false → u ∉ new_ents →
  ∃ w', enroll (new_ents, w) u = Some ({[u]} ∪ new_ents, w')
    ∧ entities w' = entities w
    ∧ s_flocks w' = s_flocks w
    ∧ s_entity_state_table w'
      = <[u := enrolled_state (s_entity_state_table w) u]>
          (s_entity_state_table w)
    ∧ notified w'
      = notified w ++
        (if decide (starts_motion (s_entity_state_table w) u)
         then [(EVENT_MOTION_START, u)] else []).
Proof.
  intros Hsk Hnew. unfold enroll. rewrite Hsk.
  rewrite option_guard_True by done.
  destruct (decide (starts_motion (s_entity_state_table w) u)) as [Hs | Hs];
    unfold starts_motion in Hs; unfold enrolled_state;
    destruct (s_entity_state_table w !! u) as [ms |] eqn:Hms;
    try done.
  - eexists. split; [reflexivity |].
    rewrite decide_True by done. simpl. done.
  - eexists. split; [reflexivity |]. simpl. done.
  - eexists. split; [reflexivity |].
    rewrite decide_False by done. simpl. by rewrite app_nil_r.
Qed.

Lemma enroll_eligible_exact (new_ents : gset N) (w : world) (u : N) :
  skipped (entities w u) = false → u ∉ new_ents →
  enroll (new_ents, w) u
  = Some ({[u]} ∪ new_ents,
          mk_world (entities w) (s_flocks w)
            (<[u := enrolled_state (s_entity_state_table w) u]>
               (s_entity_state_table w))
            (notified w ++
             (if decide (starts_motion (s_entity_state_table w) u)
              then [(EVENT_MOTION_START, u)] else []))).
Proof.
  intros Hsk Hnew.
  destruct (enroll_eligible new_ents w u Hsk Hnew)
    as (w' & -> & He & Hf & Ht & Hn).
  destruct w'. simpl in *. by subst.
Qed.

Lemma enroll_loop (l : list N) (new_ents : gset N) (w : world) :
  NoDup (eligible (entities w) l) →
  (∀ u, u ∈ eligible (entities w) l → u ∉ new_ents) →
  ∃ w',
    kh_foreach enroll l (new_ents, w)
      = Some (new_ents ∪ list_to_set (eligible (entities w) l), w')
    ∧ entities w' = entities w
    ∧ s_flocks w' = s_flocks w
    ∧ notified w'
      = notified w ++
        ((λ u, (EVENT_MOTION_START, u)) <$>
           filter (starts_motion (s_entity_state_table w))
                  (eligible (entities w) l))
    ∧ ∀ u, s_entity_state_table w' !! u
           = if decide (u ∈ eligible (entities w) l)
             then Some (enrolled_state (s_entity_state_table w) u)
             else s_entity_state_table w !! u.
Proof.
  revert new_ents w. induction l as [| a l IH]; intros new_ents w Hnd Hfresh.
  - exists w. split; [| split; [| split; [| split]]]; try done.
    + simpl. f_equal. f_equal. set_solver.
    + simpl. by rewrite app_nil_r.
  - cbn [kh_foreach]. unfold eligible in *.
    destruct (skipped (entities w a)) eqn:Hsk.
    + rewrite enroll_skipped by done. simpl.
      rewrite filter_cons_False in * by (rewrite Hsk; done).
      apply IH; done.
    + rewrite filter_cons_True in * by done.
      apply NoDup_cons in Hnd as [Ha Hnd].
      destruct (enroll_eligible new_ents w a Hsk) as
        (w1 & -> & He1 & Hf1 & Ht1 & Hn1).
      { apply Hfresh. left. }
      simpl.
      destruct (IH ({[a]} ∪ new_ents) w1) as (w' & Hrun & He & Hf & Hn & Ht).
      { by rewrite He1. }
      { rewrite He1. intros u Hu.
        apply not_elem_of_union. split.
        - apply not_elem_of_singleton. intros ->. done.
        - apply Hfresh. by right. }
      rewrite He1 in *.
      exists w'. split; [| split; [| split; [| split]]].
      * rewrite Hrun. f_equal. f_equal. set_solver.
      * congruence.
      * congruence.
      * rewrite Hn, Hn1, Ht1, <- app_assoc. f_equal.
        rewrite (filter_ext_in
                   (starts_motion (<[a:=_]> (s_entity_state_table w)))
                   (starts_motion (s_entity_state_table w))).
        2:{ intros u Hu. unfold starts_motion.
            rewrite lookup_insert_ne; [done |]. intros ->. done. }
        destruct (decide (starts_motion (s_entity_state_table w) a)).
        -- by rewrite filter_cons_True by done.
        -- by rewrite filter_cons_False by done.
      * intros u. rewrite Ht, Ht1.
        destruct (decide (u = a)) as [-> | Hne].
        -- rewrite decide_False by done.
           rewrite decide_True by left.
           by rewrite lookup_insert_eq.
        -- unfold enrolled_state. rewrite lookup_insert_ne by done.
           destruct (decide (u ∈ filter _ l)) as [Hin | Hnin].
           ++ rewrite decide_True by (by right). done.
           ++ rewrite decide_False; [done |].
              intros [? | ?]%elem_of_cons; done.
Qed.

(** A run of the second loop that does not abort has met no uid twice. *)
Lemma enroll_loop_inv (l : list N) (new_ents : gset N) (w : world)
    (st : gset N * world) :
  kh_foreach enroll l (new_ents, w) = Some st →
  NoDup (eligible (entities w) l)
  ∧ ∀ u, u ∈ eligible (entities w) l → u ∉ new_ents.
Proof.
  revert new_ents w. induction l as [| a l IH]; intros new_ents w Hrun.
  - split; [constructor |]. intros u Hu. by apply elem_of_nil in Hu.
  - cbn [kh_foreach] in Hrun. unfold eligible in *.
    destruct (skipped (entities w a)) eqn:Hsk.
    + rewrite enroll_skipped in Hrun by done.
      rewrite filter_cons_False by (rewrite Hsk; done).
      by apply IH.
    + rewrite filter_cons_True by done.
      destruct (decide (a ∈ new_ents)) as [Hin | Hnin].
      { unfold enroll in Hrun. rewrite Hsk in Hrun.
        rewrite option_guard_False in Hrun by (intros Hn; done).
        discriminate. }
      destruct (enroll_eligible new_ents w a Hsk Hnin)
        as (w1 & Hstep & He1 & _).
      rewrite Hstep in Hrun. cbn [mbind option_bind] in Hrun.
      apply IH in Hrun as [Hnd Hfresh]. rewrite He1 in *.
      split.
      * apply NoDup_cons. split; [| done].
        intros Ha. apply (Hfresh a Ha). set_solver.
      * intros u [-> | Hu]%elem_of_cons; [done |].
        specialize (Hfresh u Hu). set_solver.
Qed.

(** *** make_flock_from_selection as a whole *)

Lemma remove_selection_nothing_eligible (es : N → entity) (sel : list N)
    (fl : list flock) :
  eligible es sel = [] → remove_selection es sel fl = fl.
Proof.
  unfold remove_selection, eligible.
  revert fl. induction sel as [| u sel IH]; intros fl He; [done |].
  simpl. destruct (skipped (es u)) eqn:Hsk.
  - rewrite filter_cons_False in He by (rewrite Hsk; done). by apply IH.
  - by rewrite filter_cons_True in He by done.
Qed.

Lemma make_flock_alloc_failure (sel : list N) (target : vec2) (w : world) :
  make_flock_from_selection false sel target w
  = Some (false,
          set_flocks w (remove_selection (entities w) sel (s_flocks w))).
Proof. reflexivity. Qed.

(** With the allocation granted and no eligible entity selected twice, the
    call returns [true]; the registry is the carved one followed by the new
    flock. *)
Lemma make_flock_success (sel : list N) (target : vec2) (w : world) :
  NoDup (eligible (entities w) sel) →
  ∃ w',
    make_flock_from_selection true sel target w = Some (true, w')
    ∧ entities w' = entities w
    ∧ s_flocks w'
      = remove_selection (entities w) sel (s_flocks w)
        ++ [mk_flock (list_to_set (eligible (entities w) sel)) target]
    ∧ notified w'
      = notified w ++
        ((λ u, (EVENT_MOTION_START, u)) <$>
           filter (starts_motion (s_entity_state_table w))
                  (eligible (entities w) sel))
    ∧ ∀ u, s_entity_state_table w' !! u
           = if decide (u ∈ eligible (entities w) sel)
             then Some (enrolled_state (s_entity_state_table w) u)
             else s_entity_state_table w !! u.
Proof.
  intros Hnd. unfold make_flock_from_selection. cbn [negb].
  set (w0 := set_flocks w _).
  destruct (enroll_loop sel ∅ w0) as (w1 & Hrun & He & Hf & Hn & Ht).
  { exact Hnd. }
  { intros u _. apply not_elem_of_empty. }
  rewrite Hrun. cbn [mbind option_bind].
  eexists. split; [reflexivity |].
  simpl. rewrite Hf. unfold kv_push.
  rewrite (left_id_L ∅ (∪)). done.
Qed.

(** Whatever the outcome, a call that returns has left this registry. *)
Lemma make_flock_returns (ok : bool) (sel : list N) (target : vec2)
    (w w' : world) (r : bool) :
  make_flock_from_selection ok sel target w = Some (r, w') →
  r = ok
  ∧ entities w' = entities w
  ∧ s_flocks w'
    = remove_selection (entities w) sel (s_flocks w)
      ++ (if ok
          then [mk_flock (list_to_set (eligible (entities w) sel)) target]
          else [])
  ∧ (ok = true → NoDup (eligible (entities w) sel)).
Proof.
  destruct ok.
  - intros Hrun.
    assert (Hnd : NoDup (eligible (entities w) sel)).
    { unfold make_flock_from_selection in Hrun. cbn [negb] in Hrun.
      destruct (kh_foreach enroll sel _) as [st |] eqn:Hloop;
        [| discriminate].
      by apply enroll_loop_inv in Hloop as [Hnd _]. }
    destruct (make_flock_success sel target w Hnd)
      as (w1 & Hrun1 & He & Hf & _).
    rewrite Hrun1 in Hrun. injection Hrun as <- <-. done.
  - rewrite make_flock_alloc_failure. intros [= <- <-].
    simpl. by rewrite app_nil_r.
Qed.

Lemma enroll_loop_nothing_eligible (l : list N) (new_ents : gset N)
    (w : world) :
  eligible (entities w) l = [] →
  kh_foreach enroll l (new_ents, w) = Some (new_ents, w).
Proof.
  unfold eligible. induction l as [| a l IH]; intros He; [done |].
  cbn [kh_foreach]. destruct (skipped (entities w a)) eqn:Hsk.
  - rewrite enroll_skipped by done. cbn [mbind option_bind].
    rewrite filter_cons_False in He by (rewrite Hsk; done). by apply IH.
  - by rewrite filter_cons_True in He by done.
Qed.

(** A selection without an eligible entity: the call returns [true], touches
    no flock and no MotionState, notifies nothing, and pushes a flock without
    a member. *)
Lemma make_flock_nothing_eligible (sel : list N) (target : vec2) (w : world) :
  eligible (entities w) sel = [] →
  make_flock_from_selection true sel target w
  = Some (true, set_flocks w (s_flocks w ++ [mk_flock ∅ target])).
Proof.
  intros He. unfold make_flock_from_selection. cbn [negb].
  rewrite remove_selection_nothing_eligible by done.
  rewrite enroll_loop_nothing_eligible by done.
  reflexivity.
Qed.

(** C6, as the code has it: when the allocation of the new flock fails,
    [make_flock_from_selection] returns [false] with the motion state
    table, the entities and the notifications as they were and no flock
    added; the removal loop has run before the allocation, so the registry
    is the carved one: every eligible selected entity has left the flocks it
    was in, and the flocks left without a member are destroyed. *)
Theorem make_flock_failure_keeps_removals (sel : list N) (target : vec2)
    (w : world) :
  ∃ w',
    make_flock_from_selection false sel target w = Some (false, w')
    ∧ s_entity_state_table w' = s_entity_state_table w
    ∧ entities w' = entities w
    ∧ notified w' = notified w
    ∧ s_flocks w' ≡ₚ carved_registry (entities w) sel (s_flocks w).
Proof.
  eexists. split; [apply make_flock_alloc_failure |].
  simpl. repeat split. apply remove_selection_spec.
Qed.

(** C8: when the allocation succeeds and no eligible entity is selected
    twice, [make_flock_from_selection] returns [true]; the notifications it
    adds are exactly EVENT_MOTION_START for the eligible entities that had no
    MotionState or had one in the ARRIVED phase; an eligible entity without a
    MotionState gets velocity zero and phase MOVING, one with a MotionState
    keeps its velocity and gets phase MOVING. *)
Theorem make_flock_motion_started (sel : list N) (target : vec2) (w : world) :
  NoDup (eligible (entities w) sel) →
  ∃ w' emitted,
    make_flock_from_selection true sel target w = Some (true, w')
    ∧ notified w' = notified w ++ emitted
    ∧ (∀ ev u, (ev, u) ∈ emitted ↔
         ev = EVENT_MOTION_START ∧ u ∈ eligible (entities w) sel
         ∧ match s_entity_state_table w !! u with
           | None => True
           | Some ms => state ms = STATE_ARRIVED
           end)
    ∧ ∀ u, u ∈ eligible (entities w) sel →
        match s_entity_state_table w !! u with
        | None =>
            s_entity_state_table w' !! u
            = Some (mk_movestate vec2_zero STATE_MOVING)
        | Some ms =>
            s_entity_state_table w' !! u
            = Some (mk_movestate (velocity ms) STATE_MOVING)
        end.
Proof.
  intros Hnd.
  destruct (make_flock_success sel target w Hnd)
    as (w' & Hrun & _ & _ & Hn & Ht).
  exists w'. eexists. split; [exact Hrun |]. split; [exact Hn |]. split.
  - intros ev u. rewrite list_elem_of_fmap. split.
    + intros (v & [= -> ->] & Hv).
      apply list_elem_of_filter in Hv as [Hs Hv]. done.
    + intros (-> & Hu & Hs). exists u. split; [done |].
      apply list_elem_of_filter. done.
  - intros u Hu. rewrite Ht, decide_True by done.
    unfold enrolled_state. by destruct (s_entity_state_table w !! u).
Qed.

(** *** One member in one tick *)

Local Open Scope R_scope.

Lemma vec2_truncate_zero (m : R) : vec2_truncate vec2_zero m = vec2_zero.
Proof.
  unfold vec2_truncate. destruct (Rgt_dec _ m); [| done].
  apply vec2_eq; simpl; unfold Rdiv; ring.
Qed.

Lemma PFM_Vec2_Add_zero_accel (v : vec2) (s : R) :
  PFM_Vec2_Add v (PFM_Vec2_Scale vec2_zero s) = v.
Proof. apply vec2_eq; simpl; ring. Qed.

(** An agent that has arrived is steered by the null force. *)
Lemma total_steering_force_arrived (w : world) (ent : N) (f : flock)
    (tick_res : Z) (ms : movestate) (force : vec2) :
  s_entity_state_table w !! ent = Some ms → state ms = STATE_ARRIVED →
  total_steering_force w ent f tick_res = Some force →
  force = vec2_zero.
Proof.
  intros Hms Hst. unfold total_steering_force. rewrite Hms. simpl.
  destruct (arrive_force w ent f tick_res); [| discriminate]. simpl.
  destruct (alignment_force w ent f tick_res); [| discriminate]. simpl.
  rewrite Hst. intros [= <-]. apply vec2_truncate_zero.
Qed.

(** What one run of the loop body does to the world: the member's entity
    and MotionState are rewritten, at most one EVENT_MOTION_END is
    notified, and everything else stays. *)
Lemma tick_entity_inv (f : flock) (w w' : world) (curr : N) :
  tick_entity f w curr = Some w' →
  ∃ ms ms' e' evs,
    s_entity_state_table w !! curr = Some ms
    ∧ w' = mk_world (λ u, if decide (u = curr) then e' else entities w u)
                    (s_flocks w)
                    (<[curr := ms']> (s_entity_state_table w))
                    (notified w ++ evs)
    ∧ max_speed e' = max_speed (entities w curr)
    ∧ phase_le (state ms) (state ms')
    ∧ (0 <= max_speed (entities w curr) →
       PFM_Vec2_Len (velocity ms')
       <= max_speed (entities w curr) / IZR TICK_RES)
    ∧ (state ms' = STATE_ARRIVED →
       (state ms = STATE_ARRIVED → velocity ms = vec2_zero) →
       velocity ms' = vec2_zero)
    ∧ (evs = [] ∨ evs = [(EVENT_MOTION_END, curr)]).
Proof.
  unfold tick_entity. intros Hrun.
  destruct (total_steering_force w curr f TICK_RES) as [force |] eqn:Hforce;
    [| discriminate].
  cbn [mbind option_bind] in Hrun.
  destruct (s_entity_state_table w !! curr) as [ms |] eqn:Hms;
    [| discriminate].
  cbn [mbind option_bind] in Hrun.
  set (new_velocity := vec2_truncate _ _) in Hrun.
  set (e1 := set_pos _ _) in Hrun.
  assert (Hbound : 0 <= max_speed (entities w curr) →
                   PFM_Vec2_Len new_velocity
                   <= max_speed (entities w curr) / IZR TICK_RES).
  { intros Hpos. apply vec2_truncate_len. unfold TICK_RES.
    apply Rmult_le_pos; [done |]. lra. }
  assert (Hzero : 0 <= max_speed (entities w curr) →
                  PFM_Vec2_Len vec2_zero
                  <= max_speed (entities w curr) / IZR TICK_RES).
  { intros Hpos. rewrite PFM_Vec2_Len_zero. unfold TICK_RES.
    apply Rmult_le_pos; [done |]. lra. }
  assert (Hrest : state ms = STATE_ARRIVED → velocity ms = vec2_zero →
                  new_velocity = vec2_zero).
  { intros Hst Hv. subst new_velocity.
    rewrite (total_steering_force_arrived _ _ _ _ _ _ Hms Hst Hforce), Hv.
    by rewrite PFM_Vec2_Add_zero_accel, vec2_truncate_zero. }
  match type of Hrun with
  | (?rot ≫= _) = _ =>
      assert (Hrot : ∃ e', rot = Some e' ∧ max_speed e' = max_speed e1) end.
  { destruct (decide _) as [Hgt | Hle]; [| eauto].
    unfold dir_quat_from_velocity. rewrite option_guard_True by done.
    simpl. eauto. }
  destruct Hrot as (e' & Hrot & Hspeed). rewrite Hrot in Hrun. clear Hrot.
  cbn [mbind option_bind] in Hrun.
  exists ms.
  assert (Hfin : ∀ ms' evs,
    w' = mk_world (λ u, if decide (u = curr) then e' else entities w u)
                  (s_flocks w)
                  (<[curr := ms']> (s_entity_state_table w))
                  (notified w ++ evs) →
    phase_le (state ms) (state ms') →
    (velocity ms' = new_velocity ∨ velocity ms' = vec2_zero) →
    (state ms' = STATE_ARRIVED →
     velocity ms' = vec2_zero
     ∨ state ms = STATE_ARRIVED ∧ velocity ms' = new_velocity) →
    (evs = [] ∨ evs = [(EVENT_MOTION_END, curr)]) →
    ∃ ms' e' evs,
      Some ms = Some ms
      ∧ w' = mk_world (λ u, if decide (u = curr) then e' else entities w u)
                      (s_flocks w)
                      (<[curr := ms']> (s_entity_state_table w))
                      (notified w ++ evs)
      ∧ max_speed e' = max_speed (entities w curr)
      ∧ phase_le (state ms) (state ms')
      ∧ (0 <= max_speed (entities w curr) →
         PFM_Vec2_Len (velocity ms')
         <= max_speed (entities w curr) / IZR TICK_RES)
      ∧ (state ms' = STATE_ARRIVED →
         (state ms = STATE_ARRIVED → velocity ms = vec2_zero) →
         velocity ms' = vec2_zero)
      ∧ (evs = [] ∨ evs = [(EVENT_MOTION_END, curr)])).
  { intros ms' evs Hw Hle Hvel Harr Hevs. exists ms', e', evs.
    split; [done |]. split; [done |]. split; [done |]. split; [done |].
    split; [| split; [| done]].
    - intros Hpos. destruct Hvel as [-> | ->]; auto.
    - intros Hst' Hinv. destruct (Harr Hst') as [Hz | [Hst Hv]]; [done |].
      rewrite Hv. auto. }
  destruct (state ms) eqn:Hst.
  - (* STATE_MOVING *)
    destruct (decide (_ < ARRIVE_THRESHOLD_DIST)) as [Hnear | Hfar].
    + destruct (near_settled _ _) as [[|] |]; [| | discriminate];
        injection Hrun as <-.
      * apply (Hfin (mk_movestate vec2_zero STATE_SETTLING)
                    [(EVENT_MOTION_END, curr)]);
          [| unfold phase_le; simpl; lia | by right | done | by right].
        unfold mark_arrived, E_Entity_Notify, set_state_table, store_entity,
          set_entities. simpl.
        by rewrite alter_insert_eq, !insert_insert_eq.
      * apply (Hfin (mk_movestate vec2_zero STATE_ARRIVED)
                    [(EVENT_MOTION_END, curr)]);
          [| unfold phase_le; simpl; lia | by right | by left | by right].
        unfold mark_arrived, E_Entity_Notify, set_state_table, store_entity,
          set_entities. simpl.
        by rewrite !insert_insert_eq.
    + destruct (near_settled _ _) as [[|] |]; [| | discriminate];
        injection Hrun as <-.
      * apply (Hfin (mk_movestate new_velocity STATE_SETTLING) []);
          [| unfold phase_le; simpl; lia | by left | done | by left].
        unfold set_state_table, store_entity, set_entities. simpl.
        by rewrite alter_insert_eq, app_nil_r.
      * apply (Hfin (mk_movestate new_velocity STATE_MOVING) []);
          [| unfold phase_le; simpl; lia | by left | done | by left].
        unfold set_state_table, store_entity, set_entities. simpl.
        by rewrite app_nil_r.
  - (* STATE_SETTLING *)
    destruct (decide (_ < _)) as [Hslow | Hfast]; injection Hrun as <-.
    + apply (Hfin (mk_movestate vec2_zero STATE_ARRIVED)
                  [(EVENT_MOTION_END, curr)]);
        [| unfold phase_le; simpl; lia | by right | by left | by right].
      unfold mark_arrived, E_Entity_Notify, set_state_table, store_entity,
        set_entities. simpl.
      by rewrite !insert_insert_eq.
    + apply (Hfin (mk_movestate new_velocity STATE_SETTLING) []);
        [| unfold phase_le; simpl; lia | by left | done | by left].
      unfold set_state_table, store_entity, set_entities. simpl.
      by rewrite app_nil_r.
  - (* STATE_ARRIVED *)
    injection Hrun as <-.
    apply (Hfin (mk_movestate new_velocity STATE_ARRIVED) []);
      [| unfold phase_le; simpl; lia | by left | by right | by left].
    unfold set_state_table, store_entity, set_entities. simpl.
    by rewrite app_nil_r.
Qed.

Lemma phase_le_refl (a : arrival_state) : phase_le a a.
Proof. unfold phase_le. lia. Qed.

Lemma phase_le_trans (a b c : arrival_state) :
  phase_le a b → phase_le b c → phase_le a c.
Proof. unfold phase_le. lia. Qed.

Lemma phase_le_arrived (a : arrival_state) :
  phase_le STATE_ARRIVED a → a = STATE_ARRIVED.
Proof. unfold phase_le. destruct a; simpl; (done || lia). Qed.

#[local] Instance advances_preorder : PreOrder advances.
Proof.
  split.
  - intros w. split; try done. intros u ms Hu. exists ms.
    split; [done | apply phase_le_refl].
  - intros w1 w2 w3 [Hf1 Hp1 Hn1 Hs1 Hr1 Hb1] [Hf2 Hp2 Hn2 Hs2 Hr2 Hb2].
    split.
    + by etrans.
    + intros u ms Hu. destruct (Hp1 u ms Hu) as (ms2 & Hu2 & Hle2).
      destruct (Hp2 u ms2 Hu2) as (ms3 & Hu3 & Hle3).
      exists ms3. split; [done |]. by eapply phase_le_trans.
    + auto.
    + intros u. by rewrite Hs2.
    + auto.
    + intros u Hpos Hb. apply Hb2; [by rewrite Hs1 | auto].
Qed.

Lemma tick_entity_advances (f : flock) (w w' : world) (curr : N) :
  tick_entity f w curr = Some w' → advances w w'.
Proof.
  intros Hrun.
  destruct (tick_entity_inv f w w' curr Hrun)
    as (ms & ms' & e' & evs & Hms & -> & Hsp & Hle & Hbd & Hrest & Hevs).
  split; simpl.
  - done.
  - intros u ms0 Hu. destruct (decide (u = curr)) as [-> | Hne].
    + rewrite lookup_insert_eq. exists ms'. split; [done |]. congruence.
    + rewrite lookup_insert_ne by done. exists ms0.
      split; [done | apply phase_le_refl].
  - intros u Hu. rewrite lookup_insert_ne; [done |]. congruence.
  - intros u. destruct (decide (u = curr)) as [-> | Hne]; done.
  - intros Hinv u ms0 Hu Hst. destruct (decide (u = curr)) as [-> | Hne].
    + rewrite lookup_insert_eq in Hu. injection Hu as <-.
      apply Hrest; [done |]. intros Hst0. by eapply Hinv.
    + rewrite lookup_insert_ne in Hu by done. by eapply Hinv.
  - intros u Hpos (ms0 & Hu & Hb). unfold speed_bounded. simpl.
    destruct (decide (u = curr)) as [-> | Hne].
    + rewrite lookup_insert_eq. exists ms'. split; [done |].
      rewrite Hsp. auto.
    + rewrite lookup_insert_ne by done. eauto.
Qed.


Lemma tick_entity_untouched (f : flock) (w w' : world) (curr u : N) :
  tick_entity f w curr = Some w' → u ≠ curr → untouched u w w'.
Proof.
  intros Hrun Hne.
  destruct (tick_entity_inv f w w' curr Hrun)
    as (ms & ms' & e' & evs & Hms & -> & Hsp & Hle & Hbd & Hrest & Hevs).
  unfold untouched. simpl. rewrite lookup_insert_ne, decide_False by done.
  split; [done |]. split; [done |].
  rewrite filter_app.
  destruct Hevs as [-> | ->].
  - by rewrite filter_nil, app_nil_r.
  - rewrite filter_cons_False by (simpl; congruence).
    by rewrite filter_nil, app_nil_r.
Qed.

(** *** The loop over the members of a flock *)

Lemma kh_foreach_rel {A S : Type} (R : relation S) `{!PreOrder R}
    (body : S → A → option S) (l : list A) (s s' : S) :
  (∀ s1 a s2, a ∈ l → body s1 a = Some s2 → R s1 s2) →
  kh_foreach body l s = Some s' → R s s'.
Proof.
  revert s. induction l as [| a l IH]; intros s Hbody Hrun.
  - injection Hrun as <-. reflexivity.
  - cbn [kh_foreach] in Hrun.
    destruct (body s a) as [s1 |] eqn:Hstep; [| discriminate].
    cbn [mbind option_bind] in Hrun.
    transitivity s1.
    + eapply Hbody; [left | done].
    + apply IH; [| done]. intros s2 b s3 Hb. apply Hbody. by right.
Qed.

#[local] Instance untouched_preorder (u : N) : PreOrder (untouched u).
Proof.
  split.
  - intros w. done.
  - intros w1 w2 w3 (Ht1 & He1 & Hn1) (Ht2 & He2 & Hn2).
    unfold untouched. rewrite Ht2, He2, Hn2. done.
Qed.

#[local] Instance same_flocks_preorder : PreOrder same_flocks.
Proof.
  split.
  - intros w. done.
  - intros w1 w2 w3 H1 H2. unfold same_flocks in *. congruence.
Qed.

Lemma flock_loop_advances (f : flock) (l : list N) (w w' : world) :
  kh_foreach (tick_entity f) l w = Some w' → advances w w'.
Proof.
  apply kh_foreach_rel; [apply _ |].
  intros w1 a w2 _. apply tick_entity_advances.
Qed.

Lemma flock_loop_same_flocks (f : flock) (l : list N) (w w' : world) :
  kh_foreach (tick_entity f) l w = Some w' → s_flocks w' = s_flocks w.
Proof.
  apply (kh_foreach_rel same_flocks).
  intros w1 a w2 _ Hrun.
  destruct (tick_entity_inv f w1 w2 a Hrun)
    as (ms & ms' & e' & evs & Hms & -> & _). done.
Qed.

Lemma flock_loop_untouched (f : flock) (l : list N) (w w' : world) (u : N) :
  u ∉ l → kh_foreach (tick_entity f) l w = Some w' → untouched u w w'.
Proof.
  intros Hu. apply kh_foreach_rel; [apply _ |].
  intros w1 a w2 Ha Hrun. eapply tick_entity_untouched; [done |].
  intros ->. done.
Qed.


Lemma near_settled_total (t : gmap N movestate) (l : list N) :
  (∀ u, u ∈ l → is_Some (t !! u)) → is_Some (near_settled t l).
Proof.
  induction l as [| a l IH]; intros Hl; simpl; [eauto |].
  destruct (Hl a) as [ms ->]; [left |]. simpl.
  destruct (decide _); [eauto |]. apply IH. intros u Hu. apply Hl. by right.
Qed.

Lemma all_arrived_total (t : gmap N movestate) (l : list N) :
  (∀ u, u ∈ l → is_Some (t !! u)) → is_Some (all_arrived t l).
Proof.
  induction l as [| a l IH]; intros Hl; simpl; [eauto |].
  destruct (Hl a) as [ms ->]; [left |]. simpl.
  destruct (decide _); [eauto |]. apply IH. intros u Hu. apply Hl. by right.
Qed.

Lemma all_arrived_true (t : gmap N movestate) (l : list N) :
  all_arrived t l = Some true →
  ∀ u, u ∈ l → ∃ ms, t !! u = Some ms ∧ state ms = STATE_ARRIVED.
Proof.
  induction l as [| a l IH]; intros Hrun u Hu.
  - by apply elem_of_nil in Hu.
  - simpl in Hrun. destruct (t !! a) as [ms |] eqn:Ha; [| discriminate].
    simpl in Hrun.
    destruct (decide (state ms ≠ STATE_ARRIVED)) as [Hne | He];
      [discriminate |].
    apply elem_of_cons in Hu as [-> | Hu]; [| by apply IH].
    exists ms. split; [done |].
    by destruct (decide (state ms = STATE_ARRIVED)).
Qed.

Lemma all_arrived_false (t : gmap N movestate) (l : list N) :
  all_arrived t l = Some false →
  ∃ u ms, u ∈ l ∧ t !! u = Some ms ∧ state ms ≠ STATE_ARRIVED.
Proof.
  induction l as [| a l IH]; intros Hrun; [discriminate |].
  simpl in Hrun. destruct (t !! a) as [ms |] eqn:Ha; [| discriminate].
  simpl in Hrun.
  destruct (decide (state ms ≠ STATE_ARRIVED)) as [Hne | He].
  - exists a, ms. split; [left | done].
  - destruct (IH Hrun) as (u & ms' & Hu & Hms & Hst).
    exists u, ms'. split; [by right | done].
Qed.

Lemma tick_entity_total (f : flock) (w : world) (curr : N) :
  (∀ u, u ∈ ents f → is_Some (s_entity_state_table w !! u)) →
  curr ∈ ents f → is_Some (tick_entity f w curr).
Proof.
  intros Hf Hcurr. unfold tick_entity.
  destruct (total_steering_force_total w curr f TICK_RES (Hf curr Hcurr) Hf)
    as [force ->].
  cbn [mbind option_bind].
  destruct (Hf curr Hcurr) as [ms Hms]. rewrite Hms.
  cbn [mbind option_bind].
  set (new_velocity := vec2_truncate _ _).
  set (e1 := set_pos _ _).
  match goal with
  | |- is_Some (?rot ≫= _) => assert (Hrot : is_Some rot) end.
  { destruct (decide _) as [Hgt | Hle]; [| eauto].
    unfold dir_quat_from_velocity. rewrite option_guard_True by done.
    simpl. eauto. }
  destruct Hrot as [e' Hrot]. rewrite Hrot. cbn [mbind option_bind].
  assert (Hadj : ∀ w1 t, (∀ u, is_Some (s_entity_state_table w !! u) →
                               is_Some (t !! u)) →
                 is_Some (near_settled t (adjacent_flock_members w1 curr f))).
  { intros w1 t Ht. apply near_settled_total. intros u Hu.
    apply Ht, Hf. unfold adjacent_flock_members in Hu.
    apply list_elem_of_filter in Hu as [_ Hu]. by apply elem_of_elements in Hu. }
  destruct (state ms).
  - match goal with
    | |- is_Some (near_settled ?t ?adj ≫= _) =>
        assert (Hns : is_Some (near_settled t adj)) end.
    { apply Hadj. intros u Hu.
      destruct (decide (_ < _));
        unfold mark_arrived, E_Entity_Notify, set_state_table, store_entity;
        simpl; destruct (decide (u = curr)) as [-> | Hne];
        rewrite ?lookup_insert_eq, ?lookup_insert_ne by done; eauto. }
    destruct Hns as [[|] ->]; simpl; eauto.
  - destruct (decide (_ < _)); eauto.
  - eauto.
Qed.

Lemma flock_loop_total (f : flock) (l : list N) (w : world) :
  (∀ u, u ∈ ents f → is_Some (s_entity_state_table w !! u)) →
  (∀ u, u ∈ l → u ∈ ents f) →
  is_Some (kh_foreach (tick_entity f) l w).
Proof.
  revert w. induction l as [| a l IH]; intros w Hf Hl; simpl; [eauto |].
  destruct (tick_entity_total f w a Hf) as [w1 Hstep]; [apply Hl; left |].
  rewrite Hstep. simpl. apply IH.
  - intros u Hu. destruct (Hf u Hu) as [ms Hms].
    destruct (adv_phase _ _ (tick_entity_advances f w w1 a Hstep) u ms Hms)
      as (ms' & -> & _). eauto.
  - intros u Hu. apply Hl. by right.
Qed.

(** *** One flock in one tick *)

Lemma tick_flock_inv (i : nat) (w w' : world) :
  tick_flock i w = Some w' →
  ∃ f, s_flocks w !! i = Some f
    ∧ (flock_arrived (s_entity_state_table w) f
       ∧ w' = set_flocks w (kv_del (s_flocks w) i)
       ∨ ¬ flock_arrived (s_entity_state_table w) f
         ∧ kh_foreach (tick_entity f) (elements (ents f)) w = Some w').
Proof.
  unfold tick_flock. intros Hrun.
  destruct (s_flocks w !! i) as [f |] eqn:Hf; [| discriminate].
  cbn [mbind option_bind] in Hrun. exists f. split; [done |].
  destruct (all_arrived _ _) as [[|] |] eqn:Hall; [| | discriminate];
    cbn [mbind option_bind] in Hrun.
  - left. injection Hrun as <-. split; [| done].
    intros u Hu. eapply all_arrived_true; [done |]. by apply elem_of_elements.
  - right. split; [| done].
    destruct (all_arrived_false _ _ Hall) as (u & ms & Hu & Hms & Hst).
    intros Harr. apply elem_of_elements in Hu.
    destruct (Harr u Hu) as (ms' & Hms' & Hst'). congruence.
Qed.

Lemma tick_flock_advances (i : nat) (w w' : world) :
  tick_flock i w = Some w' → advances w w'.
Proof.
  intros Hrun.
  destruct (tick_flock_inv i w w' Hrun) as (f & Hf & [[_ ->] | [_ Hloop]]).
  - split; simpl; try done.
    + apply kv_del_submseteq.
    + intros u ms Hu. exists ms. split; [done | apply phase_le_refl].
  - by eapply flock_loop_advances.
Qed.

Lemma tick_flock_length (i : nat) (w w' : world) :
  tick_flock i w = Some w' → (i ≤ length (s_flocks w'))%nat.
Proof.
  intros Hrun.
  destruct (tick_flock_inv i w w' Hrun) as (f & Hf & [[_ ->] | [_ Hloop]]).
  - simpl. destruct (kv_del_lookup _ _ _ Hf) as (l2' & -> & _).
    pose proof (lookup_lt_Some _ _ _ Hf).
    rewrite length_app, length_take_le by lia. lia.
  - rewrite (flock_loop_same_flocks _ _ _ _ Hloop).
    pose proof (lookup_lt_Some _ _ _ Hf). lia.
Qed.

Lemma flock_arrived_advances (w w' : world) (f : flock) :
  advances w w' →
  flock_arrived (s_entity_state_table w) f →
  flock_arrived (s_entity_state_table w') f.
Proof.
  intros Hadv Harr u Hu. destruct (Harr u Hu) as (ms & Hms & Hst).
  destruct (adv_phase _ _ Hadv u ms Hms) as (ms' & Hms' & Hle).
  exists ms'. split; [done |]. rewrite Hst in Hle.
  by apply phase_le_arrived.
Qed.

Lemma registered_advances (w w' : world) :
  advances w w' → registered w → registered w'.
Proof.
  intros Hadv Hreg f Hf u Hu.
  destruct (Hreg f) with (u := u) as [ms Hms]; [| done |].
  - eapply elem_of_submseteq; [done | apply Hadv].
  - destruct (adv_phase _ _ Hadv u ms Hms) as (ms' & -> & _). eauto.
Qed.

Lemma tick_flock_total (i : nat) (w : world) :
  registered w → (i < length (s_flocks w))%nat → is_Some (tick_flock i w).
Proof.
  intros Hreg Hi. unfold tick_flock.
  destruct (lookup_lt_is_Some_2 _ _ Hi) as [f Hf]. rewrite Hf.
  cbn [mbind option_bind].
  assert (Hmem : ∀ u, u ∈ ents f → is_Some (s_entity_state_table w !! u)).
  { apply Hreg. by eapply list_elem_of_lookup_2. }
  destruct (all_arrived_total (s_entity_state_table w) (elements (ents f)))
    as [[|] ->].
  { intros u Hu. apply Hmem. by apply elem_of_elements. }
  - simpl. eauto.
  - simpl. apply flock_loop_total; [done |].
    intros u Hu. by apply elem_of_elements.
Qed.

(** *** The loop over the flocks *)

Lemma tick_flocks_advances (n : nat) (w w' : world) :
  tick_flocks n w = Some w' → advances w w'.
Proof.
  revert w. induction n as [| i IH]; intros w Hrun.
  - injection Hrun as <-. reflexivity.
  - cbn [tick_flocks] in Hrun.
    destruct (tick_flock i w) as [w1 |] eqn:Hstep; [| discriminate].
    cbn [mbind option_bind] in Hrun.
    transitivity w1; [by eapply tick_flock_advances | by apply IH].
Qed.

Lemma tick_flocks_total (n : nat) (w : world) :
  registered w → (n ≤ length (s_flocks w))%nat → is_Some (tick_flocks n w).
Proof.
  revert w. induction n as [| i IH]; intros w Hreg Hn; simpl; [eauto |].
  destruct (tick_flock_total i w Hreg) as [w1 Hstep]; [lia |].
  rewrite Hstep. simpl. apply IH.
  - eapply registered_advances; [| done]. by eapply tick_flock_advances.
  - by eapply tick_flock_length.
Qed.

(** The flocks left by the loop from index [n] down: those it had visited
    before, and those among the first [n] that had a member not arrived. *)
Lemma tick_flocks_survivors (n : nat) (w w' : world) (f : flock) :
  tick_flocks n w = Some w' → f ∈ s_flocks w' →
  f ∈ drop n (s_flocks w)
  ∨ f ∈ take n (s_flocks w) ∧ ¬ flock_arrived (s_entity_state_table w) f.
Proof.
  revert w. induction n as [| i IH]; intros w Hrun Hf.
  - injection Hrun as <-. left. by rewrite drop_0.
  - cbn [tick_flocks] in Hrun.
    destruct (tick_flock i w) as [w1 |] eqn:Hstep; [| discriminate].
    cbn [mbind option_bind] in Hrun.
    pose proof (tick_flock_advances i w w1 Hstep) as Hadv.
    destruct (IH w1 Hrun Hf) as [Hdrop | [Htake Hnarr]];
      destruct (tick_flock_inv i w w1 Hstep)
        as (g & Hg & [[Harr ->] | [Hgn Hloop]]); simpl in *.
    + left. destruct (kv_del_lookup _ _ _ Hg) as (l2' & Hdel & Hperm).
      pose proof (lookup_lt_Some _ _ _ Hg).
      rewrite Hdel, drop_app_length' in Hdrop
        by (rewrite length_take_le; lia).
      by rewrite <- Hperm.
    + rewrite (flock_loop_same_flocks _ _ _ _ Hloop) in Hdrop.
      rewrite (drop_S _ _ _ Hg) in Hdrop.
      apply elem_of_cons in Hdrop as [-> | Hdrop]; [| by left].
      right. split; [| done].
      rewrite (take_S_r _ _ _ Hg). apply elem_of_app. right. left.
    + right. destruct (kv_del_lookup _ _ _ Hg) as (l2' & Hdel & Hperm).
      pose proof (lookup_lt_Some _ _ _ Hg).
      rewrite Hdel, take_app_length' in Htake
        by (rewrite length_take_le; lia).
      split; [| done].
      rewrite (take_S_r _ _ _ Hg). apply elem_of_app. by left.
    + right. rewrite (flock_loop_same_flocks _ _ _ _ Hloop) in Htake.
      split.
      * rewrite (take_S_r _ _ _ Hg). apply elem_of_app. by left.
      * intros Harr. apply Hnarr. by eapply flock_arrived_advances.
Qed.

(** An agent whose flocks have all arrived is not processed. *)
Lemma tick_flocks_untouched (u : N) (n : nat) (w w' : world) :
  tick_flocks n w = Some w' →
  (∀ g, g ∈ s_flocks w → u ∈ ents g →
        flock_arrived (s_entity_state_table w) g) →
  untouched u w w'.
Proof.
  revert w. induction n as [| i IH]; intros w Hrun Hall.
  - injection Hrun as <-. reflexivity.
  - cbn [tick_flocks] in Hrun.
    destruct (tick_flock i w) as [w1 |] eqn:Hstep; [| discriminate].
    cbn [mbind option_bind] in Hrun.
    pose proof (tick_flock_advances i w w1 Hstep) as Hadv.
    transitivity w1.
    + destruct (tick_flock_inv i w w1 Hstep)
        as (g & Hg & [[Harr ->] | [Hgn Hloop]]); [done |].
      eapply flock_loop_untouched; [| done].
      intros Hu%elem_of_elements. apply Hgn, Hall; [| done].
      by eapply list_elem_of_lookup_2.
    + apply IH; [done |]. intros g Hg Hu.
      eapply flock_arrived_advances; [done |]. apply Hall; [| done].
      eapply elem_of_submseteq; [done | apply Hadv].
Qed.


(** *** The tick as a whole *)

Lemma on_30hz_tick_total (w : world) :
  registered w → is_Some (on_30hz_tick w).
Proof. intros Hreg. by apply tick_flocks_total. Qed.

Lemma on_30hz_tick_advances (w w' : world) :
  on_30hz_tick w = Some w' → advances w w'.
Proof. apply tick_flocks_advances. Qed.

Lemma ticks_advances (n : nat) (w w' : world) :
  ticks n w = Some w' → advances w w'.
Proof.
  revert w. induction n as [| n IH]; intros w Hrun.
  - injection Hrun as <-. reflexivity.
  - cbn [ticks] in Hrun.
    destruct (on_30hz_tick w) as [w1 |] eqn:Hstep; [| discriminate].
    cbn [mbind option_bind] in Hrun.
    transitivity w1; [by apply on_30hz_tick_advances | by apply IH].
Qed.

Lemma ticks_total (n : nat) (w : world) :
  registered w → is_Some (ticks n w).
Proof.
  revert w. induction n as [| n IH]; intros w Hreg; simpl; [eauto |].
  destruct (on_30hz_tick_total w Hreg) as [w1 Hstep]. rewrite Hstep. simpl.
  apply IH. eapply registered_advances; [| done].
  by apply on_30hz_tick_advances.
Qed.

(** C1: over any number of ticks the phase of an agent only advances in the
    order MOVING, SETTLING, ARRIVED: from one tick boundary to a later one
    SETTLING is never followed by MOVING, and ARRIVED stays ARRIVED. (A
    call of [make_flock_from_selection] sets the phase of the entities it
    enrolls back to MOVING.) *)
Theorem phase_transitions_monotonic (n : nat) (w : world) :
  registered w →
  ∃ w',
    ticks n w = Some w'
    ∧ ∀ u ms, s_entity_state_table w !! u = Some ms →
        ∃ ms', s_entity_state_table w' !! u = Some ms'
          ∧ phase_le (state ms) (state ms')
          ∧ (state ms = STATE_SETTLING → state ms' ≠ STATE_MOVING)
          ∧ (state ms = STATE_ARRIVED → state ms' = STATE_ARRIVED).
Proof.
  intros Hreg. destruct (ticks_total n w Hreg) as [w' Hrun].
  exists w'. split; [done |]. intros u ms Hms.
  destruct (adv_phase _ _ (ticks_advances n w w' Hrun) u ms Hms)
    as (ms' & Hms' & Hle).
  exists ms'. split; [done |]. split; [done |]. split.
  - intros Hst Hst'. rewrite Hst, Hst' in Hle. unfold phase_le in Hle.
    simpl in Hle. lia.
  - intros Hst. rewrite Hst in Hle. by apply phase_le_arrived.
Qed.

(** *** Membership counts *)

Local Close Scope R_scope.

Lemma memberships_app (u : N) (l1 l2 : list flock) :
  memberships u (l1 ++ l2) = memberships u l1 + memberships u l2.
Proof. unfold memberships. by rewrite filter_app, length_app. Qed.

Lemma memberships_perm (u : N) (l1 l2 : list flock) :
  l1 ≡ₚ l2 → memberships u l1 = memberships u l2.
Proof. intros H. unfold memberships. by rewrite H. Qed.

Lemma memberships_submseteq (u : N) (l1 l2 : list flock) :
  l1 ⊆+ l2 → memberships u l1 ≤ memberships u l2.
Proof.
  intros [k Hk]%submseteq_Permutation.
  rewrite (memberships_perm u _ _ Hk), memberships_app. lia.
Qed.

Lemma memberships_purge (u : N) (gone : gset N) (fl : list flock) :
  memberships u (purge gone fl) ≤ memberships u fl
  ∧ (u ∈ gone → memberships u (purge gone fl) = 0).
Proof.
  unfold memberships, purge. induction fl as [| f fl [IHle IHz]]; [done |].
  rewrite fmap_cons.
  destruct (decide (ents (carve gone f) ≠ ∅)) as [Hne | He].
  - rewrite (filter_cons_True (λ f, ents f ≠ ∅)) by done.
    destruct (decide (u ∈ ents (carve gone f))) as [Hin | Hnin].
    + rewrite (filter_cons_True _ (carve gone f)) by done.
      simpl in Hin. apply elem_of_difference in Hin as [Hin Hgone].
      rewrite (filter_cons_True _ f) by done. simpl. split; [lia | done].
    + rewrite (filter_cons_False _ (carve gone f)) by done.
      split; [| done].
      destruct (decide (u ∈ ents f)).
      * rewrite (filter_cons_True _ f) by done. simpl. lia.
      * by rewrite (filter_cons_False _ f) by done.
  - rewrite (filter_cons_False (λ f, ents f ≠ ∅)) by done.
    split; [| done].
    destruct (decide (u ∈ ents f)).
    + rewrite (filter_cons_True _ f) by done. simpl. lia.
    + by rewrite (filter_cons_False _ f) by done.
Qed.

Lemma memberships_carved (u : N) (es : N → entity) (sel : list N)
    (fl : list flock) :
  memberships u (carved_registry es sel fl) ≤ memberships u fl
  ∧ (u ∈ eligible es sel → memberships u (carved_registry es sel fl) = 0).
Proof.
  unfold carved_registry.
  destruct (eligible es sel) as [| v l] eqn:He.
  - split; [done |]. intros Hu. by apply elem_of_nil in Hu.
  - destruct (memberships_purge u (list_to_set (v :: l)) fl) as [Hle Hz].
    split; [done |]. intros Hu. apply Hz. by apply elem_of_list_to_set.
Qed.

Lemma memberships_zero (u : N) (fl : list flock) (f : flock) :
  memberships u fl = 0 → f ∈ fl → u ∉ ents f.
Proof.
  unfold memberships. intros Hz Hf Hu.
  assert (Hin : f ∈ filter (λ f, u ∈ ents f) fl)
    by (by apply list_elem_of_filter).
  apply length_zero_iff_nil in Hz. rewrite Hz in Hin.
  by apply elem_of_nil in Hin.
Qed.

(** Two flocks of a registry in which every agent has one flock at most
    share no member, unless they are the same flock. *)
Lemma one_flock_same (fl : list flock) (f g : flock) (u : N) :
  one_flock fl → f ∈ fl → g ∈ fl → u ∈ ents f → u ∈ ents g → f = g.
Proof.
  intros Hone Hf Hg Huf Hug.
  destruct (decide (f = g)) as [| Hne]; [done | exfalso].
  apply list_elem_of_split in Hf as (l1 & l2 & ->).
  specialize (Hone u). rewrite memberships_app in Hone.
  unfold memberships in Hone. rewrite filter_cons_True in Hone by done.
  simpl in Hone.
  apply elem_of_app in Hg as [Hg | Hg].
  - assert (Hin : g ∈ filter (λ f, u ∈ ents f) l1)
      by (by apply list_elem_of_filter).
    destruct (filter _ l1); [by apply elem_of_nil in Hin |]. simpl in Hone. lia.
  - apply elem_of_cons in Hg as [-> | Hg]; [done |].
    assert (Hin : g ∈ filter (λ f, u ∈ ents f) l2)
      by (by apply list_elem_of_filter).
    destruct (filter _ l2); [by apply elem_of_nil in Hin |]. simpl in Hone. lia.
Qed.

Lemma one_flock_submseteq (l1 l2 : list flock) :
  l1 ⊆+ l2 → one_flock l2 → one_flock l1.
Proof.
  intros Hsub Hone u. specialize (Hone u).
  pose proof (memberships_submseteq u _ _ Hsub). lia.
Qed.

(** The registry after a call of [make_flock_from_selection] that returns. *)
Lemma make_flock_registry (ok : bool) (sel : list N) (target : vec2)
    (w w' : world) (r : bool) :
  make_flock_from_selection ok sel target w = Some (r, w') →
  ∃ old,
    s_flocks w'
    = old ++ (if r
              then [mk_flock (list_to_set (eligible (entities w) sel)) target]
              else [])
    ∧ old ≡ₚ carved_registry (entities w) sel (s_flocks w).
Proof.
  intros Hrun.
  destruct (make_flock_returns _ _ _ _ _ _ Hrun) as (-> & _ & Hf & _).
  eexists. split; [exact Hf |]. apply remove_selection_spec.
Qed.

Lemma make_flock_one_flock (ok : bool) (sel : list N) (target : vec2)
    (w w' : world) (r : bool) :
  make_flock_from_selection ok sel target w = Some (r, w') →
  one_flock (s_flocks w) → one_flock (s_flocks w').
Proof.
  intros Hrun Hone u.
  destruct (make_flock_registry _ _ _ _ _ _ Hrun) as (old & -> & Hold).
  rewrite memberships_app, (memberships_perm u _ _ Hold).
  destruct (memberships_carved u (entities w) sel (s_flocks w)) as [Hle Hz].
  specialize (Hone u).
  destruct r; [| unfold memberships at 2; simpl; lia].
  unfold memberships at 2.
  destruct (decide (u ∈ eligible (entities w) sel)) as [Hin | Hnin].
  - rewrite (Hz Hin). rewrite filter_cons_True
      by (simpl; by apply elem_of_list_to_set).
    simpl. lia.
  - rewrite filter_cons_False
      by (simpl; by rewrite elem_of_list_to_set).
    simpl. lia.
Qed.

Lemma step_one_flock (w w' : world) :
  step w w' → one_flock (s_flocks w) → one_flock (s_flocks w').
Proof.
  intros [ok sel target w1 w2 r Hrun | w1 w2 Hrun | w1 es] Hone.
  - by eapply make_flock_one_flock.
  - eapply one_flock_submseteq; [| done].
    apply (adv_flocks _ _ (on_30hz_tick_advances _ _ Hrun)).
  - done.
Qed.

Lemma reachable_one_flock (w : world) :
  reachable w → one_flock (s_flocks w).
Proof.
  intros [es Hrtc].
  eapply (rtc_ind_r (λ w, one_flock (s_flocks w)) (G_Move_Init es));
    [| | exact Hrtc].
  - intros u. unfold memberships. simpl. lia.
  - intros w1 w2 _ Hstep IH. by eapply step_one_flock.
Qed.

(** C2: in every state the module can reach, an agent is a member of at
    most one flock; and a call of [make_flock_from_selection] leaves the
    registry made of the old flocks, from which every eligible selected
    entity has been removed and of which those left without a member have
    been destroyed, followed (when the call returns [true]) by the new flock
    of the eligible selected entities. *)
Theorem agent_in_at_most_one_flock (w : world) :
  reachable w →
  one_flock (s_flocks w)
  ∧ ∀ ok sel target r w',
      make_flock_from_selection ok sel target w = Some (r, w') →
      ∃ old,
        s_flocks w'
        = old ++ (if r
                  then [mk_flock (list_to_set (eligible (entities w) sel))
                                 target]
                  else [])
        ∧ old ≡ₚ carved_registry (entities w) sel (s_flocks w)
        ∧ (∀ f u, f ∈ old → u ∈ eligible (entities w) sel → u ∉ ents f)
        ∧ (eligible (entities w) sel ≠ [] → ∀ f, f ∈ old → ents f ≠ ∅)
        ∧ one_flock (s_flocks w').
Proof.
  intros Hreach. pose proof (reachable_one_flock w Hreach) as Hone.
  split; [done |]. intros ok sel target r w' Hrun.
  destruct (make_flock_registry _ _ _ _ _ _ Hrun) as (old & Hf & Hold).
  exists old. split; [done |]. split; [done |]. split; [| split].
  - intros f u Hfo Hu.
    destruct (memberships_carved u (entities w) sel (s_flocks w)) as [_ Hz].
    eapply memberships_zero; [| done].
    rewrite (memberships_perm u _ _ Hold). auto.
  - intros Hne f Hfo. rewrite Hold in Hfo. unfold carved_registry in Hfo.
    destruct (eligible (entities w) sel); [done |].
    unfold purge in Hfo. by apply list_elem_of_filter in Hfo as [Hfo _].
  - by eapply make_flock_one_flock.
Qed.

Local Open Scope R_scope.

(** C7: a tick destroys every flock whose members have all arrived: the
    flock is not in the registry after the tick, and (an agent being in one
    flock at most) the tick leaves the MotionState and the entity of its
    members as they were and notifies nothing about them. So a flock of two
    members that have both arrived is gone after the next tick. *)
Theorem arrived_flock_disbanded (w : world) :
  registered w →
  ∃ w',
    on_30hz_tick w = Some w'
    ∧ ∀ f, f ∈ s_flocks w → flock_arrived (s_entity_state_table w) f →
        (f ∉ s_flocks w')
        ∧ (one_flock (s_flocks w) → ∀ u, u ∈ ents f → untouched u w w').
Proof.
  intros Hreg. destruct (on_30hz_tick_total w Hreg) as [w' Hrun].
  exists w'. split; [done |]. intros f Hf Harr. split.
  - intros Hf'.
    destruct (tick_flocks_survivors _ _ _ _ Hrun Hf') as [Hd | [_ Hn]].
    + rewrite drop_all in Hd. by apply elem_of_nil in Hd.
    + done.
  - intros Hone u Hu. eapply tick_flocks_untouched; [done |].
    intros g Hg Hug.
    by rewrite <- (one_flock_same _ f g u Hone Hf Hg Hu Hug).
Qed.





(** *** An agent alone in its flock *)








Lemma PFM_Vec2_Len_axis (a b : R) :
  b = 0 → PFM_Vec2_Len (mk_vec2 a b) = Rabs a.
Proof.
  intros ->. unfold PFM_Vec2_Len. cbn [raw0 raw1].
  replace (a * a + 0 * 0) with (Rsqr a) by (unfold Rsqr; ring).
  apply sqrt_Rsqr_abs.
Qed.

(** *** The assertions of the tick hold in every reachable state *)

Lemma purge_members (gone : gset N) (fl : list flock) (f : flock) (u : N) :
  f ∈ purge gone fl → u ∈ ents f → ∃ g, g ∈ fl ∧ u ∈ ents g.
Proof.
  unfold purge. intros Hf Hu.
  apply list_elem_of_filter in Hf as [_ Hf].
  apply list_elem_of_fmap in Hf as (g & -> & Hg).
  exists g. split; [done |]. simpl in Hu.
  by apply elem_of_difference in Hu as [Hu _].
Qed.

Lemma carved_registry_members (es : N → entity) (sel : list N)
    (fl : list flock) (f : flock) (u : N) :
  f ∈ carved_registry es sel fl → u ∈ ents f → ∃ g, g ∈ fl ∧ u ∈ ents g.
Proof.
  unfold carved_registry. destruct (eligible es sel); [by eauto |].
  apply purge_members.
Qed.

Lemma make_flock_registered (ok : bool) (sel : list N) (target : vec2)
    (w w' : world) (r : bool) :
  make_flock_from_selection ok sel target w = Some (r, w') →
  registered w → registered w'.
Proof.
  intros Hrun Hreg f Hf u Hu.
  destruct (make_flock_registry _ _ _ _ _ _ Hrun) as (old & Hfl & Hold).
  destruct (make_flock_returns _ _ _ _ _ _ Hrun) as (-> & _ & _ & Hnd).
  rewrite Hfl in Hf. apply elem_of_app in Hf as [Hf | Hf].
  - rewrite Hold in Hf.
    destruct (carved_registry_members _ _ _ _ _ Hf Hu) as (g & Hg & Hug).
    destruct (Hreg g Hg u Hug) as [ms Hms].
    destruct ok.
    + destruct (make_flock_success sel target w (Hnd eq_refl))
        as (w1 & Hrun1 & _ & _ & _ & Ht).
      rewrite Hrun1 in Hrun. injection Hrun as <-. rewrite Ht.
      destruct (decide _); eauto.
    + rewrite make_flock_alloc_failure in Hrun. injection Hrun as <-.
      simpl. eauto.
  - destruct ok; [| by apply elem_of_nil in Hf].
    apply list_elem_of_singleton in Hf as ->. simpl in Hu.
    apply elem_of_list_to_set in Hu.
    destruct (make_flock_success sel target w (Hnd eq_refl))
      as (w1 & Hrun1 & _ & _ & _ & Ht).
    rewrite Hrun1 in Hrun. injection Hrun as <-.
    rewrite Ht, decide_True by done. eauto.
Qed.

Lemma reachable_registered (w : world) : reachable w → registered w.
Proof.
  intros [es Hrtc].
  eapply (rtc_ind_r (λ w, registered w) (G_Move_Init es)); [| | exact Hrtc].
  - intros f Hf. by apply elem_of_nil in Hf.
  - intros w1 w2 _ Hstep IH.
    destruct Hstep as [ok sel target w1 w2 r Hrun | w1 w2 Hrun | w1 es'].
    + by eapply make_flock_registered.
    + eapply registered_advances; [| done].
      by apply on_30hz_tick_advances.
    + done.
Qed.

(** *** Arrival next to a settled flock-mate *)

Lemma near_settled_found (t : gmap N movestate) (l : list N) (b : bool)
    (a : N) (ms : movestate) :
  near_settled t l = Some b → a ∈ l → t !! a = Some ms →
  state ms = STATE_ARRIVED ∨ state ms = STATE_SETTLING →
  b = true.
Proof.
  induction l as [| c l IH]; intros Hrun Ha Hms Hst.
  - by apply elem_of_nil in Ha.
  - cbn [near_settled] in Hrun.
    destruct (t !! c) as [msc |] eqn:Hc; [| discriminate].
    cbn [mbind option_bind] in Hrun.
    destruct (decide (state msc = STATE_ARRIVED ∨ state msc = STATE_SETTLING))
      as [Hs | Hns]; [congruence |].
    apply elem_of_cons in Ha as [-> | Ha]; [| by apply IH].
    rewrite Hms in Hc. injection Hc as <-. done.
Qed.

(** Where the tick puts a member: at the clamped sum of its position and a
    velocity within its speed bound. *)
Lemma tick_entity_position (f : flock) (w w' : world) (curr : N) :
  tick_entity f w curr = Some w' →
  ∃ v,
    xz_pos (entities w' curr)
    = M_ClampedMapCoordinate (PFM_Vec2_Add (xz_pos (entities w curr)) v)
    ∧ (0 <= max_speed (entities w curr) →
       PFM_Vec2_Len v <= max_speed (entities w curr) / IZR TICK_RES)
    ∧ selection_radius (entities w' curr)
      = selection_radius (entities w curr).
Proof.
  unfold tick_entity. intros Hrun.
  destruct (total_steering_force w curr f TICK_RES) as [force |];
    [| discriminate].
  cbn [mbind option_bind] in Hrun.
  destruct (s_entity_state_table w !! curr) as [ms |]; [| discriminate].
  cbn [mbind option_bind] in Hrun.
  set (new_velocity := vec2_truncate _ _) in Hrun.
  set (new_xz_pos := M_ClampedMapCoordinate _) in Hrun.
  set (e1 := set_pos _ _) in Hrun.
  exists new_velocity.
  assert (Hxz : xz_pos e1 = new_xz_pos) by (by destruct new_xz_pos).
  match type of Hrun with
  | (?rot ≫= _) = _ =>
      assert (Hrot : ∃ e', rot = Some e' ∧ xz_pos e' = new_xz_pos
                           ∧ selection_radius e'
                             = selection_radius (entities w curr)) end.
  { destruct (decide _) as [Hgt | Hle]; [| by exists e1].
    unfold dir_quat_from_velocity. rewrite option_guard_True by done.
    cbn [mbind option_bind fmap option_fmap option_map]. eexists.
    split; [reflexivity |]. done. }
  destruct Hrot as (e' & Hrot & Hpos & Hrad). rewrite Hrot in Hrun.
  clear Hrot. cbn [mbind option_bind] in Hrun.
  assert (Hent : ∀ w2, entities w2
                       = (λ u, if decide (u = curr) then e' else entities w u) →
                 xz_pos (entities w2 curr) = new_xz_pos
                 ∧ selection_radius (entities w2 curr)
                   = selection_radius (entities w curr)).
  { intros w2 ->. by rewrite decide_True by done. }
  split; [| split].
  2:{ intros Hpos0. apply vec2_truncate_len. unfold TICK_RES.
      apply Rmult_le_pos; [done |]. lra. }
  all: destruct (state ms);
    [ destruct (decide (_ < ARRIVE_THRESHOLD_DIST));
      (destruct (near_settled _ _) as [[|] |]; [| | discriminate])
    | destruct (decide (_ < _))
    | ];
    injection Hrun as <-; by apply Hent.
Qed.

(** A moving agent that reaches the threshold of the target next to a
    flock-mate that is settling or has arrived: the tick stores ARRIVED with
    the null velocity and notifies EVENT_MOTION_END, and the adjacency loop
    that follows sets the phase to SETTLING. *)
Lemma tick_entity_arrival_overwritten (f : flock) (w w' : world)
    (curr a : N) (ms msa : movestate) :
  tick_entity f w curr = Some w' →
  s_entity_state_table w !! curr = Some ms → state ms = STATE_MOVING →
  PFM_Vec2_Len (PFM_Vec2_Sub (target_xz f) (xz_pos (entities w' curr)))
  < ARRIVE_THRESHOLD_DIST →
  a ∈ adjacent_flock_members w' curr f →
  s_entity_state_table w !! a = Some msa →
  state msa = STATE_ARRIVED ∨ state msa = STATE_SETTLING →
  s_entity_state_table w' !! curr
  = Some (mk_movestate vec2_zero STATE_SETTLING)
  ∧ notified w' = notified w ++ [(EVENT_MOTION_END, curr)].
Proof.
  unfold tick_entity. intros Hrun Hms Hst Hnear Ha Hmsa Hsta.
  assert (Hne : a ≠ curr).
  { unfold adjacent_flock_members in Ha.
    by apply list_elem_of_filter in Ha as [[Hne _] _]. }
  destruct (total_steering_force w curr f TICK_RES) as [force |];
    [| discriminate].
  cbn [mbind option_bind] in Hrun. rewrite Hms in Hrun.
  cbn [mbind option_bind] in Hrun.
  set (new_velocity := vec2_truncate _ _) in Hrun.
  match type of Hrun with
  | (?rot ≫= _) = _ => destruct rot as [e' |]; [| discriminate] end.
  cbn [mbind option_bind] in Hrun. rewrite Hst in Hrun.
  set (w1 := set_state_table (store_entity w curr e') _) in Hrun.
  destruct (decide (_ < ARRIVE_THRESHOLD_DIST)) as [Hin | Hout].
  - destruct (near_settled _ _) as [b |] eqn:Hns; [| discriminate].
    cbn [mbind option_bind] in Hrun.
    assert (Hb : b = true).
    { destruct b; [done |]. injection Hrun as <-.
      eapply near_settled_found; [exact Hns | exact Ha | | exact Hsta].
      unfold mark_arrived, E_Entity_Notify, w1, set_state_table, store_entity.
      cbn [s_entity_state_table].
      by rewrite !lookup_insert_ne by done. }
    subst b. injection Hrun as <-.
    unfold mark_arrived, E_Entity_Notify, w1, set_state_table, store_entity,
      set_entities.
    cbn [s_entity_state_table notified entities s_flocks].
    rewrite alter_insert_eq, lookup_insert_eq. done.
  - exfalso. apply Hout.
    destruct (near_settled _ _) as [[|] |]; [| | discriminate];
      injection Hrun as <-; exact Hnear.
Qed.

Lemma PFM_Vec2_Len_bound (v : vec2) (m : R) :
  PFM_Vec2_Len v <= m → raw0 v * raw0 v + raw1 v * raw1 v <= m * m.
Proof.
  intros Hle. rewrite <- PFM_Vec2_Len_sqr.
  pose proof (PFM_Vec2_Len_nonneg v). nra.
Qed.

Lemma PFM_Vec2_Len_lt (v : vec2) (c : R) :
  0 < c → raw0 v * raw0 v + raw1 v * raw1 v < c * c → PFM_Vec2_Len v < c.
Proof.
  intros Hc Hlt. unfold PFM_Vec2_Len.
  rewrite <- (sqrt_square c) by lra. apply sqrt_lt_1_alt. nra.
Qed.

(** The tick notifies nothing about a member that has arrived. *)
Lemma tick_entity_arrived_quiet (f : flock) (w w' : world) (curr : N)
    (ms : movestate) :
  tick_entity f w curr = Some w' →
  s_entity_state_table w !! curr = Some ms → state ms = STATE_ARRIVED →
  notified w' = notified w.
Proof.
  unfold tick_entity. intros Hrun Hms Hst.
  destruct (total_steering_force w curr f TICK_RES) as [force |];
    [| discriminate].
  cbn [mbind option_bind] in Hrun. rewrite Hms in Hrun.
  cbn [mbind option_bind] in Hrun.
  match type of Hrun with
  | (?rot ≫= _) = _ => destruct rot as [e' |]; [| discriminate] end.
  cbn [mbind option_bind] in Hrun. rewrite Hst in Hrun.
  by injection Hrun as <-.
Qed.

(** ** Further properties of the module *)

(** *** vec2_truncate *)

Lemma PFM_Vec2_Len_Scale (v : vec2) (k : R) :
  PFM_Vec2_Len (PFM_Vec2_Scale v k) = Rabs k * PFM_Vec2_Len v.
Proof.
  pose proof (PFM_Vec2_Len_nonneg v) as Hv.
  pose proof (PFM_Vec2_Len_sqr v) as Hsq.
  pose proof (Rabs_pos k) as Hk.
  unfold PFM_Vec2_Len at 1. unfold PFM_Vec2_Scale. cbn [raw0 raw1].
  apply sqrt_lem_1; [nra | nra |].
  transitivity (Rabs k * Rabs k * (PFM_Vec2_Len v * PFM_Vec2_Len v));
    [ring |].
  rewrite Hsq. replace (Rabs k * Rabs k) with (k * k); [ring |].
  destruct (Rcase_abs k) as [Hn | Hp].
  - rewrite (Rabs_left k Hn). ring.
  - rewrite (Rabs_right k Hp). ring.
Qed.

Lemma PFM_Vec2_Normal_Scale (v : vec2) (m : R) :
  PFM_Vec2_Scale (PFM_Vec2_Normal v) m
  = PFM_Vec2_Scale v (m / PFM_Vec2_Len v).
Proof.
  unfold PFM_Vec2_Scale, PFM_Vec2_Normal. cbn [raw0 raw1].
  apply vec2_eq; cbn [raw0 raw1]; unfold Rdiv; ring.
Qed.

Lemma vec2_truncate_factor (v : vec2) (max_len : R) :
  0 <= max_len →
  ∃ k, 0 <= k <= 1 ∧ vec2_truncate v max_len = PFM_Vec2_Scale v k.
Proof.
  intros Hm. pose proof (PFM_Vec2_Len_nonneg v) as Hv.
  unfold vec2_truncate.
  destruct (Rgt_dec (PFM_Vec2_Len v) max_len) as [Hgt | Hle].
  - exists (max_len / PFM_Vec2_Len v). split.
    + split.
      * apply Rmult_le_pos; [lra |].
        apply Rlt_le, Rinv_0_lt_compat. lra.
      * apply (Rmult_le_reg_r (PFM_Vec2_Len v)); [lra |].
        unfold Rdiv. rewrite Rmult_assoc, Rinv_l by lra. lra.
    + apply PFM_Vec2_Normal_Scale.
  - exists 1. split; [lra |].
    apply vec2_eq; cbn [PFM_Vec2_Scale raw0 raw1]; ring.
Qed.




(** *** adjacent_flock_members *)

Lemma PFM_Vec2_Len_Sub_comm (a b : vec2) :
  PFM_Vec2_Len (PFM_Vec2_Sub a b) = PFM_Vec2_Len (PFM_Vec2_Sub b a).
Proof.
  unfold PFM_Vec2_Len, PFM_Vec2_Sub. cbn [raw0 raw1]. f_equal. ring.
Qed.

(** X3: [adjacent_flock_members] lists members of the flock other than the
    entity itself, each once; so it writes at most [kh_size] pointers, and
    fewer when the entity is a member: the array [adjacent] of [kh_size]
    elements that the tick passes is never overrun. *)
Theorem adjacent_flock_members_fit (w : world) (ent : N) (f : flock) :
  NoDup (adjacent_flock_members w ent f)
  ∧ (∀ a, a ∈ adjacent_flock_members w ent f → a ∈ ents f ∧ a ≠ ent)
  ∧ (length (adjacent_flock_members w ent f) ≤ size (ents f))%nat
  ∧ (ent ∈ ents f →
     (length (adjacent_flock_members w ent f) < size (ents f))%nat).
Proof.
  assert (Hnd : NoDup (adjacent_flock_members w ent f)).
  { apply NoDup_filter, NoDup_elements. }
  assert (Hin : ∀ a, a ∈ adjacent_flock_members w ent f →
                     a ∈ ents f ∧ a ≠ ent).
  { intros a Ha. unfold adjacent_flock_members in Ha.
    apply list_elem_of_filter in Ha as [[Hne _] Ha].
    by apply elem_of_elements in Ha. }
  split; [done |]. split; [done |]. split.
  - apply length_filter.
  - intros Hent.
    assert (Hsub : adjacent_flock_members w ent f
                   ⊆+ elements (ents f ∖ {[ent]})).
    { apply NoDup_submseteq; [done |]. intros a Ha.
      destruct (Hin a Ha) as [Hm Hne].
      apply elem_of_elements, elem_of_difference. split; [done |].
      by rewrite elem_of_singleton. }
    apply submseteq_length in Hsub.
    change (length (elements (ents f ∖ {[ent]})))
      with (size (ents f ∖ {[ent]})) in Hsub.
    rewrite size_difference in Hsub
      by (by apply singleton_subseteq_l).
    rewrite size_singleton in Hsub.
    assert (size (ents f) ≠ 0%nat).
    { intros Hz. apply size_empty_inv in Hz.
      apply (not_elem_of_empty (C := gset N) ent). by rewrite <- Hz. }
    lia.
Qed.

(** X4: adjacency is symmetric among the members of a flock: the distance
    and the sum of the two selection radii do not depend on which of the two
    entities asks. *)
Theorem adjacent_flock_members_symmetric (w : world) (a b : N) (f : flock) :
  b ∈ ents f → a ∈ adjacent_flock_members w b f →
  b ∈ adjacent_flock_members w a f.
Proof.
  unfold adjacent_flock_members. intros Hb Ha.
  apply list_elem_of_filter in Ha as [[Hne Hle] _].
  apply list_elem_of_filter. split; [| by apply elem_of_elements].
  split; [done |]. rewrite PFM_Vec2_Len_Sub_comm. lra.
Qed.


(** *** The steering components *)




Lemma arrive_force_len (w : world) (ent : N) (f : flock) (tick_res : Z)
    (force : vec2) :
  arrive_force w ent f tick_res = Some force →
  PFM_Vec2_Len force <= MAX_FORCE.
Proof.
  unfold arrive_force. intros H.
  destruct (s_entity_state_table w !! ent) as [ms |]; [| discriminate].
  cbn [mbind option_bind] in H. injection H as <-.
  apply vec2_truncate_len. unfold MAX_FORCE. lra.
Qed.


(** X6: outside the slowing radius the arrive force is the seek force,
    clamped to [MAX_FORCE]; both functions fail their assertion exactly when
    the entity has no MotionState. *)
Theorem arrive_force_far_is_seek (w : world) (ent : N) (f : flock)
    (tick_res : Z) :
  ARRIVE_SLOWING_RADIUS
  <= PFM_Vec2_Len (PFM_Vec2_Sub (target_xz f) (xz_pos (entities w ent))) →
  arrive_force w ent f tick_res
  = (λ seek, vec2_truncate seek MAX_FORCE) <$> seek_force w ent f tick_res
  ∧ (seek_force w ent f tick_res = None
     ↔ s_entity_state_table w !! ent = None).
Proof.
  intros Hfar. unfold arrive_force, seek_force.
  destruct (Rlt_dec _ ARRIVE_SLOWING_RADIUS) as [Hlt | _]; [lra |].
  destruct (s_entity_state_table w !! ent) as [ms |];
    cbn [mbind option_bind fmap option_fmap option_map]; done.
Qed.

(** *** dir_quat_from_velocity *)

(** X7: for a velocity longer than [EPSILON] the rotation computed is a unit
    quaternion about the y axis; for any other velocity the assertion of
    [dir_quat_from_velocity] fails. The tick only asks for the rotation of a
    velocity longer than [EPSILON]. *)
Theorem dir_quat_from_velocity_unit (v : vec2) :
  (EPSILON < PFM_Vec2_Len v →
   ∃ q, dir_quat_from_velocity v = Some q
        ∧ qx q = 0 ∧ qz q = 0
        ∧ qx q * qx q + qy q * qy q + qz q * qz q + qw q * qw q = 1)
  ∧ (PFM_Vec2_Len v <= EPSILON → dir_quat_from_velocity v = None).
Proof.
  unfold dir_quat_from_velocity. split.
  - intros Hlen. rewrite option_guard_True by lra.
    cbn [mbind option_bind]. eexists. split; [reflexivity |].
    cbn [qx qy qz qw]. split; [done |]. split; [done |].
    set (a := (atan2 (raw1 v) (raw0 v) - PI / 2) / 2).
    pose proof (sin2_cos2 a) as H. unfold Rsqr in H. lra.
  - intros Hlen. rewrite option_guard_False by lra. done.
Qed.


(** *** The body of the tick, case by case *)

Lemma near_settled_ext (t t' : gmap N movestate) (l : list N) :
  (∀ a, a ∈ l → t !! a = t' !! a) → near_settled t l = near_settled t' l.
Proof.
  induction l as [| a l IH]; intros Hl; [done |].
  cbn [near_settled]. rewrite (Hl a) by left.
  destruct (t' !! a) as [ms |]; [| done]. cbn [mbind option_bind].
  destruct (decide _); [done |]. apply IH. intros b Hb. apply Hl. by right.
Qed.

Lemma adjacent_flock_members_not_self (w : world) (ent : N) (f : flock) :
  ent ∉ adjacent_flock_members w ent f.
Proof.
  unfold adjacent_flock_members. intros H.
  by apply list_elem_of_filter in H as [[Hne _] _].
Qed.

(** What one run of the loop body does to the world, in full: the entity
    struct of [curr] gets its new position and, for a velocity longer than
    [EPSILON], its new rotation; the MotionState of [curr] and the
    notifications follow the phase. *)
Lemma tick_entity_cases (f : flock) (w w' : world) (curr : N) :
  tick_entity f w curr = Some w' →
  ∃ ms force e' ms' evs,
    s_entity_state_table w !! curr = Some ms
    ∧ total_steering_force w curr f TICK_RES = Some force
    ∧ w' = mk_world (λ u, if decide (u = curr) then e' else entities w u)
                    (s_flocks w)
                    (<[curr := ms']> (s_entity_state_table w))
                    (notified w ++ evs)
    ∧ let e := entities w curr in
      let new_velocity :=
        vec2_truncate
          (PFM_Vec2_Add (velocity ms) (PFM_Vec2_Scale force (1 / ENTITY_MASS)))
          (max_speed e / IZR TICK_RES) in
      let new_xz_pos :=
        M_ClampedMapCoordinate (PFM_Vec2_Add (xz_pos e) new_velocity) in
      flags e' = flags e
      ∧ max_speed e' = max_speed e
      ∧ selection_radius e' = selection_radius e
      ∧ pos e' = mk_vec3 (raw0 new_xz_pos) (M_HeightAtPoint new_xz_pos)
                         (raw1 new_xz_pos)
      ∧ (if decide (PFM_Vec2_Len new_velocity > EPSILON)
         then dir_quat_from_velocity new_velocity = Some (rotation e')
         else rotation e' = rotation e)
      ∧ match state ms with
        | STATE_MOVING =>
            ∃ settle : bool,
              near_settled (s_entity_state_table w)
                (adjacent_flock_members (store_entity w curr e') curr f)
              = Some settle
              ∧ (if decide (PFM_Vec2_Len (PFM_Vec2_Sub (target_xz f) new_xz_pos)
                            < ARRIVE_THRESHOLD_DIST)
                 then ms' = mk_movestate vec2_zero
                              (if settle then STATE_SETTLING
                               else STATE_ARRIVED)
                      ∧ evs = [(EVENT_MOTION_END, curr)]
                 else ms' = mk_movestate new_velocity
                              (if settle then STATE_SETTLING
                               else STATE_MOVING)
                      ∧ evs = [])
        | STATE_SETTLING =>
            if decide (PFM_Vec2_Len new_velocity
                       < SETTLE_STOP_TOLERANCE * max_speed e)
            then ms' = mk_movestate vec2_zero STATE_ARRIVED
                 ∧ evs = [(EVENT_MOTION_END, curr)]
            else ms' = mk_movestate new_velocity STATE_SETTLING ∧ evs = []
        | STATE_ARRIVED =>
            ms' = mk_movestate new_velocity STATE_ARRIVED ∧ evs = []
        end.
Proof.
  unfold tick_entity. intros Hrun.
  destruct (total_steering_force w curr f TICK_RES) as [force |] eqn:Hforce;
    [| discriminate].
  cbn [mbind option_bind] in Hrun.
  destruct (s_entity_state_table w !! curr) as [ms |] eqn:Hms;
    [| discriminate].
  cbn [mbind option_bind] in Hrun.
  set (new_velocity := vec2_truncate _ _) in Hrun.
  set (new_xz_pos := M_ClampedMapCoordinate _) in Hrun.
  set (e1 := set_pos _ _) in Hrun.
  match type of Hrun with
  | (?rot ≫= _) = _ =>
      assert (Hrot : ∃ e', rot = Some e'
                ∧ flags e' = flags e1 ∧ max_speed e' = max_speed e1
                ∧ selection_radius e' = selection_radius e1
                ∧ pos e' = pos e1
                ∧ (if decide (PFM_Vec2_Len new_velocity > EPSILON)
                   then dir_quat_from_velocity new_velocity
                        = Some (rotation e')
                   else rotation e' = rotation e1)) end.
  { destruct (decide _) as [Hgt | Hle]; [| by exists e1].
    destruct (dir_quat_from_velocity new_velocity) as [q |] eqn:Hq.
    - by exists (set_rotation e1 q).
    - unfold dir_quat_from_velocity in Hq.
      rewrite option_guard_True in Hq by done. discriminate. }
  destruct Hrot as (e' & Hrot & Hfl & Hsp & Hsr & Hpos & Hrotation).
  rewrite Hrot in Hrun. clear Hrot. cbn [mbind option_bind] in Hrun.
  exists ms, force, e'.
  assert (Hxz : xz_pos e' = new_xz_pos).
  { unfold xz_pos. rewrite Hpos. subst e1. cbn [set_pos pos x z].
    by destruct new_xz_pos. }
  assert (Hfin : ∀ ms0 evs0 (Q : movestate → list (event * N) → Prop),
    w' = mk_world (λ u, if decide (u = curr) then e' else entities w u)
                  (s_flocks w)
                  (<[curr := ms0]> (s_entity_state_table w))
                  (notified w ++ evs0) →
    Q ms0 evs0 →
    ∃ ms' evs,
      Some ms = Some ms ∧ Some force = Some force
      ∧ w' = mk_world (λ u, if decide (u = curr) then e' else entities w u)
                      (s_flocks w)
                      (<[curr := ms']> (s_entity_state_table w))
                      (notified w ++ evs)
      ∧ flags e' = flags (entities w curr)
      ∧ max_speed e' = max_speed (entities w curr)
      ∧ selection_radius e' = selection_radius (entities w curr)
      ∧ pos e' = mk_vec3 (raw0 new_xz_pos) (M_HeightAtPoint new_xz_pos)
                         (raw1 new_xz_pos)
      ∧ (if decide (PFM_Vec2_Len new_velocity > EPSILON)
         then dir_quat_from_velocity new_velocity = Some (rotation e')
         else rotation e' = rotation (entities w curr))
      ∧ Q ms' evs).
  { intros ms' evs Q Hw HQ. exists ms', evs. by repeat (split; [done |]). }
  cbv zeta. fold new_velocity. fold new_xz_pos.
  destruct (state ms) eqn:Hst.
  - (* STATE_MOVING *)
    set (w1 := set_state_table (store_entity w curr e') _) in Hrun.
    assert (Hent1 : entities w1 curr = e').
    { unfold w1, set_state_table, store_entity, set_entities.
      cbn [entities]. by rewrite decide_True. }
    rewrite Hent1, Hxz in Hrun.
    assert (Hadj : ∀ w2, entities w2 = entities w1 →
              near_settled (s_entity_state_table w)
                (adjacent_flock_members (store_entity w curr e') curr f)
              = near_settled (<[curr := mk_movestate new_velocity STATE_MOVING]>
                                (s_entity_state_table w))
                  (adjacent_flock_members w2 curr f)
              ∧ ∀ ms2,
                near_settled (s_entity_state_table w)
                  (adjacent_flock_members (store_entity w curr e') curr f)
                = near_settled
                    (<[curr := ms2]>
                       (<[curr := mk_movestate new_velocity STATE_MOVING]>
                          (s_entity_state_table w)))
                    (adjacent_flock_members w2 curr f)).
    { intros w2 Hw2.
      assert (Heq : adjacent_flock_members w2 curr f
                    = adjacent_flock_members (store_entity w curr e') curr f).
      { unfold adjacent_flock_members. by rewrite Hw2. }
      rewrite Heq. split; [| intros ms2]; apply near_settled_ext;
        intros a Ha;
        assert (a ≠ curr)
          by (intros ->; by eapply adjacent_flock_members_not_self);
        by rewrite !lookup_insert_ne. }
    destruct (decide (_ < ARRIVE_THRESHOLD_DIST)) as [Hnear | Hfar].
    + destruct (Hadj (mark_arrived w1 curr) eq_refl) as [_ Hn].
      assert (Hns :
        near_settled (s_entity_state_table (mark_arrived w1 curr))
          (adjacent_flock_members (mark_arrived w1 curr) curr f)
        = near_settled (s_entity_state_table w)
            (adjacent_flock_members (store_entity w curr e') curr f))
        by (symmetry; apply Hn).
      rewrite Hns in Hrun.
      destruct (near_settled _ _) as [settle |] eqn:Hsettle; [| discriminate].
      cbn [mbind option_bind] in Hrun.
      apply (Hfin (mk_movestate vec2_zero
                     (if settle then STATE_SETTLING else STATE_ARRIVED))
                  [(EVENT_MOTION_END, curr)]); [| by exists settle].
      destruct settle; injection Hrun as <-;
        unfold mark_arrived, E_Entity_Notify, w1, set_state_table,
          store_entity, set_entities; simpl.
      * by rewrite alter_insert_eq, !insert_insert_eq.
      * by rewrite !insert_insert_eq.
    + destruct (Hadj w1 eq_refl) as [Hn _].
      assert (Hns :
        near_settled (s_entity_state_table w1)
          (adjacent_flock_members w1 curr f)
        = near_settled (s_entity_state_table w)
            (adjacent_flock_members (store_entity w curr e') curr f))
        by (symmetry; apply Hn).
      rewrite Hns in Hrun.
      destruct (near_settled _ _) as [settle |] eqn:Hsettle; [| discriminate].
      cbn [mbind option_bind] in Hrun.
      apply (Hfin (mk_movestate new_velocity
                     (if settle then STATE_SETTLING else STATE_MOVING))
                  []); [| by exists settle].
      destruct settle; injection Hrun as <-;
        unfold w1, set_state_table, store_entity, set_entities; simpl.
      * by rewrite alter_insert_eq, app_nil_r.
      * by rewrite app_nil_r.
  - (* STATE_SETTLING *)
    set (w1 := set_state_table (store_entity w curr e') _) in Hrun.
    assert (Hent1 : entities w1 curr = e').
    { unfold w1, set_state_table, store_entity, set_entities.
      cbn [entities]. by rewrite decide_True. }
    rewrite Hent1, Hsp in Hrun.
    change (max_speed e1) with (max_speed (entities w curr)) in Hrun.
    destruct (decide (_ < SETTLE_STOP_TOLERANCE * _)) as [Hslow | Hfast];
      injection Hrun as <-.
    + apply (Hfin (mk_movestate vec2_zero STATE_ARRIVED)
                  [(EVENT_MOTION_END, curr)]); [| done].
      unfold mark_arrived, E_Entity_Notify, w1, set_state_table,
        store_entity, set_entities. simpl.
      by rewrite !insert_insert_eq.
    + apply (Hfin (mk_movestate new_velocity STATE_SETTLING) []); [| done].
      unfold w1, set_state_table, store_entity, set_entities. simpl.
      by rewrite app_nil_r.
  - (* STATE_ARRIVED *)
    injection Hrun as <-.
    apply (Hfin (mk_movestate new_velocity STATE_ARRIVED) []); [| done].
    unfold set_state_table, store_entity, set_entities. simpl.
    by rewrite app_nil_r.
Qed.

(** *** From the loop body to the tick *)

(** A preorder on worlds that every run of the loop body and every deletion
    of a flock respect relates the worlds before and after the tick. *)
Lemma tick_flock_rel (R : relation world) `{!PreOrder R} :
  (∀ f w curr w', tick_entity f w curr = Some w' → R w w') →
  (∀ w i, R w (set_flocks w (kv_del (s_flocks w) i))) →
  ∀ i w w', tick_flock i w = Some w' → R w w'.
Proof.
  intros Hbody Hdel i w w' Hstep.
  destruct (tick_flock_inv i w w' Hstep)
    as (f & Hf & [[_ ->] | [_ Hloop]]); [apply Hdel |].
  eapply kh_foreach_rel; [done | | exact Hloop].
  intros s1 a s2 _ Hs. by eapply Hbody.
Qed.

Lemma tick_flocks_rel (R : relation world) `{!PreOrder R} :
  (∀ f w curr w', tick_entity f w curr = Some w' → R w w') →
  (∀ w i, R w (set_flocks w (kv_del (s_flocks w) i))) →
  ∀ n w w', tick_flocks n w = Some w' → R w w'.
Proof.
  intros Hbody Hdel n. induction n as [| i IH]; intros w w' Hrun.
  - injection Hrun as <-. reflexivity.
  - cbn [tick_flocks] in Hrun.
    destruct (tick_flock i w) as [w1 |] eqn:Hstep; [| discriminate].
    cbn [mbind option_bind] in Hrun.
    transitivity w1; [| by apply IH].
    by apply (tick_flock_rel R Hbody Hdel i).
Qed.

(** *** Agents that have arrived, and settling agents *)

Lemma untouched_refl (u : N) (w : world) : untouched u w w.
Proof. by repeat split. Qed.

Lemma settles_preorder (u : N) : PreOrder (settles u).
Proof.
  split.
  - intros w. split.
    + intros _. left. apply untouched_refl.
    + intros Hu Hs. by repeat split.
  - intros w1 w2 w3 [Hc12 Hl12] [Hc23 Hl23]. split.
    + intros (ms & Hms & Hst & Hsp).
      destruct Hc12 as [(Ht & He & Hn) | (Ht & Hs & Hn)];
        [by exists ms | |].
      * destruct Hc23 as [(Ht' & He' & Hn') | (Ht' & Hs' & Hn')].
        { exists ms. by rewrite Ht, He. }
        -- left. split; [congruence |]. split; congruence.
        -- right. split; [done |]. split; [by rewrite Hs', He |].
           by rewrite Hn', Hn.
      * destruct Hl23 as (Ht' & Hs' & _ & Hn' & _); [done | |].
        { rewrite Hs. lra. }
        right. split; [done |]. split; [congruence |]. by rewrite Hn', Hn.
    + intros Hu Hs.
      destruct (Hl12 Hu Hs) as (Ht & Hs2 & Hr & Hn & Hspot).
      destruct Hl23 as (Ht' & Hs3 & Hr' & Hn' & Hspot');
        [done | by rewrite Hs2 |].
      split; [done |]. split; [congruence |]. split; [congruence |].
      split; [congruence |]. intros Hon.
      rewrite <- (Hspot Hon). apply Hspot'. by rewrite (Hspot Hon).
Qed.


Lemma entity_eq (a b : entity) :
  flags a = flags b → max_speed a = max_speed b → pos a = pos b →
  selection_radius a = selection_radius b → rotation a = rotation b → a = b.
Proof. destruct a, b; simpl; by intros -> -> -> -> ->. Qed.

Lemma PFM_Vec2_Add_zero (v : vec2) : PFM_Vec2_Add v vec2_zero = v.
Proof. apply vec2_eq; simpl; ring. Qed.

Lemma filter_about_snoc (u : N) (l : list (event * N)) (ev : event) :
  filter (λ e, e.2 = u) (l ++ [(ev, u)])
  = filter (λ e, e.2 = u) l ++ [(ev, u)].
Proof.
  rewrite filter_app. f_equal.
  rewrite filter_cons_True by done. by rewrite filter_nil.
Qed.

(** The velocity after the clamp is below the tolerance of a settling agent
    whose [max_speed] is positive: the agent is marked as arrived the first
    time the loop body runs on it. *)
Lemma tick_entity_settling_arrives (f : flock) (w w' : world) (curr : N) :
  tick_entity f w curr = Some w' → settling w curr →
  s_entity_state_table w' !! curr = Some arrived
  ∧ max_speed (entities w' curr) = max_speed (entities w curr)
  ∧ filter (λ e, e.2 = curr) (notified w')
    = filter (λ e, e.2 = curr) (notified w) ++ [(EVENT_MOTION_END, curr)].
Proof.
  intros Hrun (ms0 & Hms0 & Hst & Hspeed).
  destruct (tick_entity_cases _ _ _ _ Hrun)
    as (ms & force & e' & ms' & evs & Hms & Hforce & -> & Hcases).
  cbv zeta in Hcases.
  destruct Hcases as (Hfl & Hsp & Hsr & Hpos & Hrot & Hphase).
  cbn [s_entity_state_table entities notified].
  rewrite lookup_insert_eq, decide_True by done.
  rewrite Hms in Hms0. injection Hms0 as <-. rewrite Hst in Hphase.
  destruct (decide (_ < _)) as [Hslow | Hfast].
  - destruct Hphase as [-> ->]. split; [done |]. split; [done |].
    apply filter_about_snoc.
  - exfalso. apply Hfast.
    eapply Rle_lt_trans.
    + apply vec2_truncate_len. unfold TICK_RES.
      apply Rmult_le_pos; lra.
    + unfold SETTLE_STOP_TOLERANCE, TICK_RES. lra.
Qed.

Lemma tick_entity_settles (u : N) (f : flock) (w w' : world) (curr : N) :
  tick_entity f w curr = Some w' → settles u w w'.
Proof.
  intros Hrun. destruct (decide (u = curr)) as [-> | Hne].
  2:{ destruct (tick_entity_untouched _ _ _ _ _ Hrun Hne) as (Ht & He & Hn).
      split.
      - intros _. left. by repeat split.
      - intros Hu Hs. rewrite Ht, He, Hn. by repeat split. }
  split; [intros Hset; right; by eapply tick_entity_settling_arrives |].
  destruct (tick_entity_cases _ _ _ _ Hrun)
    as (ms & force & e' & ms' & evs & Hms & Hforce & -> & Hcases).
  cbv zeta in Hcases.
  destruct Hcases as (Hfl & Hsp & Hsr & Hpos & Hrot & Hphase).
  intros Hu Hspeed. rewrite Hms in Hu. injection Hu as ->.
  cbn [state velocity arrived] in Hphase, Hrot, Hpos.
  rewrite (total_steering_force_arrived _ _ _ _ _ _ Hms eq_refl Hforce)
    in Hphase, Hrot, Hpos.
  rewrite PFM_Vec2_Add_zero_accel in Hphase, Hrot, Hpos.
  rewrite vec2_truncate_small in Hphase, Hrot, Hpos
    by (rewrite PFM_Vec2_Len_zero; unfold TICK_RES;
        apply Rmult_le_pos; lra).
  destruct Hphase as [-> ->].
  rewrite decide_False in Hrot
    by (rewrite PFM_Vec2_Len_zero; unfold EPSILON; lra).
  rewrite PFM_Vec2_Add_zero in Hpos.
  cbn [s_entity_state_table entities notified].
  rewrite lookup_insert_eq, decide_True by done.
  split; [done |]. split; [done |]. split; [done |].
  split; [by rewrite app_nil_r |].
  intros [Hclamp Hheight]. apply entity_eq; try done.
  rewrite Hpos, Hclamp, Hheight. unfold xz_pos. cbn [raw0 raw1].
  by destruct (pos (entities w curr)).
Qed.


Lemma settles_set_flocks (u : N) (w : world) (fl : list flock) :
  settles u w (set_flocks w fl).
Proof.
  split.
  - intros _. left. by repeat split.
  - intros Hu Hs. by repeat split.
Qed.


Lemma tick_flocks_settles (u : N) (n : nat) (w w' : world) :
  tick_flocks n w = Some w' → settles u w w'.
Proof.
  pose proof (settles_preorder u).
  apply (tick_flocks_rel (settles u)).
  - intros f w0 curr w0'. apply tick_entity_settles.
  - intros w0 j. apply settles_set_flocks.
Qed.





Lemma tick_flock_take (i : nat) (w w' : world) :
  tick_flock i w = Some w' → take i (s_flocks w') = take i (s_flocks w).
Proof.
  intros Hrun.
  destruct (tick_flock_inv i w w' Hrun) as (f & Hf & [[_ ->] | [_ Hloop]]).
  - cbn [set_flocks s_flocks].
    destruct (kv_del_lookup _ _ _ Hf) as (l2' & -> & _).
    pose proof (lookup_lt_Some _ _ _ Hf).
    rewrite take_app_length' by (rewrite length_take_le; lia). done.
  - by rewrite (flock_loop_same_flocks _ _ _ _ Hloop).
Qed.



(** X9: a tick leaves alone an agent that has arrived and is at rest (with
    a [max_speed] that is not negative), whichever flocks it is a member of:
    its MotionState and its rotation stay, nothing is notified about it,
    and its entity is not changed when it already stands at a clamped map
    coordinate at the height of the terrain. *)
Theorem arrived_agent_left_at_rest (w : world) (u : N) :
  registered w →
  s_entity_state_table w !! u = Some (mk_movestate vec2_zero STATE_ARRIVED) →
  0 <= max_speed (entities w u) →
  ∃ w',
    on_30hz_tick w = Some w'
    ∧ s_entity_state_table w' !! u
      = Some (mk_movestate vec2_zero STATE_ARRIVED)
    ∧ rotation (entities w' u) = rotation (entities w u)
    ∧ filter (λ e, e.2 = u) (notified w') = filter (λ e, e.2 = u) (notified w)
    ∧ (on_the_spot (entities w u) → entities w' u = entities w u).
Proof.
  intros Hreg Hu Hsp.
  destruct (on_30hz_tick_total w Hreg) as [w' Hrun].
  exists w'. split; [done |].
  destruct (tick_flocks_settles u _ w w' Hrun) as [_ Hl].
  destruct (Hl Hu Hsp) as (Ht & _ & Hr & Hn & Hspot). done.
Qed.


(** *** What a tick writes to the entities *)

Lemma moved_on_terrain_preorder : PreOrder moved_on_terrain.
Proof.
  split.
  - intros w u. repeat split. by left.
  - intros w1 w2 w3 H12 H23 u.
    destruct (H12 u) as (Hf & Hs & Hr & Hp).
    destruct (H23 u) as (Hf' & Hs' & Hr' & Hp').
    split; [congruence |]. split; [congruence |]. split; [congruence |].
    destruct Hp' as [He | Hg]; [| by right].
    rewrite He. destruct Hp as [He' | Hg]; [by left | by right].
Qed.

Lemma tick_entity_moved_on_terrain (f : flock) (w w' : world) (curr : N) :
  tick_entity f w curr = Some w' → moved_on_terrain w w'.
Proof.
  intros Hrun u.
  destruct (tick_entity_cases _ _ _ _ Hrun)
    as (ms & force & e' & ms' & evs & Hms & Hforce & -> & Hcases).
  cbv zeta in Hcases.
  destruct Hcases as (Hfl & Hsp & Hsr & Hpos & _).
  cbn [entities]. destruct (decide (u = curr)) as [-> | Hne].
  - split; [done |]. split; [done |]. split; [done |]. right.
    eexists. exact Hpos.
  - repeat split. by left.
Qed.

Lemma tick_flocks_moved_on_terrain (n : nat) (w w' : world) :
  tick_flocks n w = Some w' → moved_on_terrain w w'.
Proof.
  pose proof moved_on_terrain_preorder.
  apply (tick_flocks_rel moved_on_terrain).
  - intros f w0 curr w0'. apply tick_entity_moved_on_terrain.
  - intros w0 i u. repeat split. by left.
Qed.

(** X10: a tick writes only the position and the rotation of an entity: the
    flags, [max_speed] and [selection_radius] of every entity stay; an
    entity that was written to stands at a clamped map coordinate, at the
    height of the terrain there; and an entity that is a member of no flock
    is left as it was, with its MotionState, and nothing is notified about
    it. *)
Theorem tick_moves_on_terrain (w : world) :
  registered w →
  ∃ w',
    on_30hz_tick w = Some w'
    ∧ (∀ u, flags (entities w' u) = flags (entities w u)
            ∧ max_speed (entities w' u) = max_speed (entities w u)
            ∧ selection_radius (entities w' u)
              = selection_radius (entities w u)
            ∧ (entities w' u = entities w u ∨ grounded (entities w' u)))
    ∧ (∀ u, (∀ f, f ∈ s_flocks w → u ∉ ents f) → untouched u w w').
Proof.
  intros Hreg. destruct (on_30hz_tick_total w Hreg) as [w' Hrun].
  exists w'. split; [done |]. split.
  - by apply (tick_flocks_moved_on_terrain _ _ _ Hrun).
  - intros u Hout. eapply tick_flocks_untouched; [exact Hrun |].
    intros g Hg Hu. by destruct (Hout g Hg).
Qed.

(** *** What a tick notifies *)

Lemma ends_motion_preorder : PreOrder ends_motion.
Proof.
  split.
  - intros w. split; [reflexivity |]. exists []. split; [by rewrite app_nil_r |].
    intros ev u Hin. by apply elem_of_nil in Hin.
  - intros w1 w2 w3 [Ha12 (evs & Hn & Hevs)] [Ha23 (evs' & Hn' & Hevs')].
    split; [by transitivity w2 |].
    exists (evs ++ evs'). split; [by rewrite Hn', Hn, app_assoc |].
    intros ev u Hin. apply elem_of_app in Hin as [Hin | Hin].
    + destruct (Hevs ev u Hin) as (Hev & Hbefore & (ms2 & Hms2 & Hst2)).
      split; [done |]. split; [done |].
      destruct (adv_phase _ _ Ha23 u ms2 Hms2) as (ms3 & Hms3 & Hle).
      exists ms3. split; [done |]. intros Hst3. apply Hst2.
      unfold phase_le in Hle. rewrite Hst3 in Hle.
      destruct (state ms2); [done | simpl in Hle; lia..].
    + destruct (Hevs' ev u Hin) as (Hev & (ms2 & Hms2 & Hst2) & Hafter).
      split; [done |]. split; [| done].
      destruct (s_entity_state_table w1 !! u) as [ms1 |] eqn:Hms1.
      * exists ms1. split; [done |]. intros Hst1.
        destruct (adv_phase _ _ Ha12 u ms1 Hms1) as (ms2' & Hms2' & Hle).
        rewrite Hms2 in Hms2'. injection Hms2' as <-.
        apply Hst2. rewrite Hst1 in Hle. by apply phase_le_arrived.
      * rewrite (adv_fresh _ _ Ha12 u Hms1) in Hms2. discriminate.
Qed.

Lemma tick_entity_ends_motion (f : flock) (w w' : world) (curr : N) :
  tick_entity f w curr = Some w' → ends_motion w w'.
Proof.
  intros Hrun. split; [by eapply tick_entity_advances |].
  destruct (tick_entity_cases _ _ _ _ Hrun)
    as (ms & force & e' & ms' & evs & Hms & Hforce & -> & Hcases).
  cbv zeta in Hcases. destruct Hcases as (_ & _ & _ & _ & _ & Hphase).
  exists evs. split; [done |]. cbn [s_entity_state_table].
  assert (Hend : evs = []
            ∨ evs = [(EVENT_MOTION_END, curr)]
              ∧ state ms ≠ STATE_ARRIVED ∧ state ms' ≠ STATE_MOVING).
  { destruct (state ms) eqn:Hst.
    - destruct Hphase as (settle & _ & Hphase).
      destruct (decide _); destruct Hphase as [-> ->]; [right | by left].
      split; [done |]. split; [done |]. by destruct settle.
    - destruct (decide _); destruct Hphase as [-> ->]; [right | by left].
      done.
    - destruct Hphase as [_ ->]. by left. }
  intros ev u Hin. destruct Hend as [-> | (-> & Hst & Hst')].
  - by apply elem_of_nil in Hin.
  - apply list_elem_of_singleton in Hin. injection Hin as -> ->.
    split; [done |]. split; [by exists ms |].
    exists ms'. by rewrite lookup_insert_eq.
Qed.

Lemma tick_flocks_ends_motion (n : nat) (w w' : world) :
  tick_flocks n w = Some w' → ends_motion w w'.
Proof.
  pose proof ends_motion_preorder.
  apply (tick_flocks_rel ends_motion).
  - intros f w0 curr w0'. apply tick_entity_ends_motion.
  - intros w0 i. split.
    + split; simpl; try done.
      * apply kv_del_submseteq.
      * intros u ms Hu. exists ms. split; [done | apply phase_le_refl].
    + exists []. split; [by rewrite app_nil_r |].
      intros ev u Hin. by apply elem_of_nil in Hin.
Qed.

(** X11: a tick notifies nothing but EVENT_MOTION_END, and only about
    members of flocks that had a MotionState in a phase other than ARRIVED
    when the tick began; after the tick such an agent is in the SETTLING or
    the ARRIVED phase. *)
Theorem tick_notifies_motion_end_only (w : world) :
  registered w →
  ∃ w' evs,
    on_30hz_tick w = Some w'
    ∧ notified w' = notified w ++ evs
    ∧ ∀ ev u, (ev, u) ∈ evs →
        ev = EVENT_MOTION_END
        ∧ (∃ f, f ∈ s_flocks w ∧ u ∈ ents f)
        ∧ (∃ ms, s_entity_state_table w !! u = Some ms
                 ∧ state ms ≠ STATE_ARRIVED)
        ∧ (∃ ms', s_entity_state_table w' !! u = Some ms'
                  ∧ state ms' ≠ STATE_MOVING).
Proof.
  intros Hreg. destruct (on_30hz_tick_total w Hreg) as [w' Hrun].
  destruct (tick_flocks_ends_motion _ _ _ Hrun) as [_ (evs & Hn & Hevs)].
  exists w', evs. split; [done |]. split; [done |].
  intros ev u Hin. destruct (Hevs ev u Hin) as (Hev & Hbefore & Hafter).
  split; [done |]. split; [| done].
  destruct (decide (Exists (λ f, u ∈ ents f) (s_flocks w))) as [Hex | Hnex].
  - apply Exists_exists in Hex as (f & Hf & Hu). by exists f.
  - exfalso.
    assert (Hun : untouched u w w').
    { eapply tick_flocks_untouched; [exact Hrun |].
      intros g Hg Hu. destruct Hnex. apply Exists_exists. by exists g. }
    destruct Hun as (_ & _ & Hfilter).
    rewrite Hn, filter_app in Hfilter.
    assert (Hnil : filter (λ e, e.2 = u) evs = []).
    { apply (app_inv_head (filter (λ e, e.2 = u) (notified w))).
      by rewrite app_nil_r. }
    assert (Hmem : (ev, u) ∈ filter (λ e, e.2 = u) evs)
      by by apply list_elem_of_filter.
    rewrite Hnil in Hmem. by apply elem_of_nil in Hmem.
Qed.


(** *** The flocks a tick keeps *)

Local Close Scope R_scope.

Lemma one_flock_apart (fl : list flock) (i : nat) (f g : flock) (u : N) :
  one_flock fl → fl !! i = Some g → f ∈ take i fl →
  u ∈ ents f → u ∉ ents g.
Proof.
  intros Hone Hg Hf Hu Hug. specialize (Hone u).
  rewrite <- (take_drop_middle fl i g Hg), memberships_app in Hone.
  unfold memberships in Hone. rewrite filter_cons_True in Hone by done.
  assert (Hin : f ∈ filter (λ f, u ∈ ents f) (take i fl))
    by (by apply list_elem_of_filter).
  destruct (filter _ (take i fl)); [by apply elem_of_nil in Hin |].
  simpl in Hone. lia.
Qed.

(** The loop from index [n] down keeps the flocks it had visited before, and
    those among the first [n] that have a member that has not arrived. *)
Lemma tick_flocks_keeps (n : nat) (w w' : world) (f : flock) :
  tick_flocks n w = Some w' → one_flock (s_flocks w) →
  f ∈ drop n (s_flocks w)
  ∨ f ∈ take n (s_flocks w) ∧ ¬ flock_arrived (s_entity_state_table w) f →
  f ∈ s_flocks w'.
Proof.
  revert w. induction n as [| i IH]; intros w Hrun Hone Hf.
  - injection Hrun as <-. destruct Hf as [Hf | [Hf _]].
    + by rewrite drop_0 in Hf.
    + rewrite take_0 in Hf. by apply elem_of_nil in Hf.
  - cbn [tick_flocks] in Hrun.
    destruct (tick_flock i w) as [w1 |] eqn:Hstep; [| discriminate].
    cbn [mbind option_bind] in Hrun.
    pose proof (tick_flock_advances i w w1 Hstep) as Hadv.
    pose proof (tick_flock_take i w w1 Hstep) as Htake.
    apply (IH w1 Hrun).
    { eapply one_flock_submseteq; [apply Hadv | done]. }
    destruct (tick_flock_inv i w w1 Hstep)
      as (g & Hg & [[Harr Hw1] | [Hgn Hloop]]).
    + (* the flock at [i] is destroyed *)
      subst w1. cbn [set_flocks s_flocks s_entity_state_table] in *.
      destruct (kv_del_lookup _ _ _ Hg) as (l2' & Hdel & Hperm).
      pose proof (lookup_lt_Some _ _ _ Hg).
      destruct Hf as [Hf | [Hf Hnarr]].
      * left. rewrite Hdel, drop_app_length'
          by (rewrite length_take_le; lia).
        by rewrite Hperm.
      * right. split; [| done]. rewrite Htake.
        rewrite (take_S_r _ _ _ Hg) in Hf.
        apply elem_of_app in Hf as [Hf | Hf]; [done |].
        apply list_elem_of_singleton in Hf as ->. done.
    + (* its members are integrated *)
      rewrite (flock_loop_same_flocks _ _ _ _ Hloop).
      destruct Hf as [Hf | [Hf Hnarr]].
      * left. rewrite (drop_S _ _ _ Hg). by right.
      * rewrite (take_S_r _ _ _ Hg) in Hf.
        apply elem_of_app in Hf as [Hf | Hf].
        -- right. split; [done |]. intros Harr1. apply Hnarr.
           intros u Hu.
           assert (Hun : untouched u w w1).
           { eapply flock_loop_untouched; [| exact Hloop].
             intros Hug%elem_of_elements.
             by eapply one_flock_apart. }
           destruct Hun as (Ht & _). rewrite <- Ht. by apply Harr1.
        -- apply list_elem_of_singleton in Hf as ->.
           left. rewrite (drop_S _ _ _ Hg). by left.
Qed.

(** X12: in a registry where every agent has one flock at most, a tick keeps
    exactly the flocks that have a member that had not arrived when the tick
    began, with the members and the target they had; it creates no flock.
    So a flock is destroyed by the tick that follows the one in which its
    last member arrived. *)
Theorem tick_keeps_unarrived_flocks (w : world) :
  registered w → one_flock (s_flocks w) →
  ∃ w',
    on_30hz_tick w = Some w'
    ∧ ∀ f, f ∈ s_flocks w'
           ↔ f ∈ s_flocks w ∧ ¬ flock_arrived (s_entity_state_table w) f.
Proof.
  intros Hreg Hone. destruct (on_30hz_tick_total w Hreg) as [w' Hrun].
  exists w'. split; [done |]. intros f. split.
  - intros Hf. split.
    + eapply elem_of_submseteq; [exact Hf |].
      apply (on_30hz_tick_advances _ _ Hrun).
    + destruct (tick_flocks_survivors _ _ _ _ Hrun Hf) as [Hd | [_ Hn]];
        [| done].
      rewrite drop_all in Hd. by apply elem_of_nil in Hd.
  - intros [Hf Hnarr]. eapply tick_flocks_keeps; [exact Hrun | done |].
    right. split; [| done]. by rewrite take_ge.
Qed.

(** *** The assertions of the tick *)

Lemma reachable_step (w w' : world) : reachable w → step w w' → reachable w'.
Proof. intros [es Hrtc] Hstep. exists es. by eapply rtc_r. Qed.

(** X13: no assertion of the tick fails in a state the module can be in:
    from a state reached from [G_Move_Init] by move orders, ticks and writes
    of the engine to the entities, any number of ticks run to completion. *)
Theorem tick_runs_in_reachable_states (w : world) (n : nat) :
  reachable w → ∃ w', ticks n w = Some w' ∧ reachable w'.
Proof.
  revert w. induction n as [| n IH]; intros w Hreach.
  - by exists w.
  - destruct (on_30hz_tick_total w (reachable_registered w Hreach))
      as [w1 Hstep].
    destruct (IH w1) as (w' & Hrun & Hreach').
    { eapply reachable_step; [done |]. by apply step_tick. }
    exists w'. split; [| done]. cbn [ticks]. by rewrite Hstep.
Qed.

(** *** The motion state table *)

Lemma make_flock_state_kept (ok : bool) (sel : list N) (target : vec2)
    (w w' : world) (r : bool) (u : N) :
  make_flock_from_selection ok sel target w = Some (r, w') →
  (u ∉ eligible (entities w) sel ∨ ok = false →
   s_entity_state_table w' !! u = s_entity_state_table w !! u)
  ∧ (is_Some (s_entity_state_table w !! u) →
     is_Some (s_entity_state_table w' !! u)).
Proof.
  intros Hrun. destruct ok.
  - destruct (make_flock_returns _ _ _ _ _ _ Hrun) as (_ & _ & _ & Hnd).
    destruct (make_flock_success sel target w (Hnd eq_refl))
      as (w2 & Hrun2 & _ & _ & _ & Ht).
    rewrite Hrun in Hrun2. injection Hrun2 as _ <-.
    rewrite Ht. destruct (decide (u ∈ eligible (entities w) sel)).
    + split; [| by eauto]. intros [Hn | Hn]; done.
    + done.
  - unfold make_flock_from_selection in Hrun. cbn [negb] in Hrun.
    injection Hrun as _ <-. done.
Qed.

(** X14: no operation of the module deletes a MotionState: an entity that
    has one keeps one through every sequence of move orders, ticks and
    writes of the engine to the entities, also after its flock is
    destroyed. A tick creates none either. *)
Theorem motion_state_never_deleted (w w' : world) (u : N) :
  rtc step w w' →
  (is_Some (s_entity_state_table w !! u) →
   is_Some (s_entity_state_table w' !! u))
  ∧ ∀ w'', on_30hz_tick w' = Some w'' →
      (is_Some (s_entity_state_table w'' !! u)
       ↔ is_Some (s_entity_state_table w' !! u)).
Proof.
  intros Hrtc. split.
  - induction Hrtc as [w | w1 w2 w3 Hstep _ IH]; [done |].
    intros Hu. apply IH. destruct Hstep as [ok sel target w1 w2 r Hrun
                                           | w1 w2 Hrun | w1 es].
    + by apply (make_flock_state_kept _ _ _ _ _ _ u Hrun).
    + destruct Hu as [ms Hms].
      destruct (adv_phase _ _ (on_30hz_tick_advances _ _ Hrun) u ms Hms)
        as (ms' & -> & _). eauto.
    + done.
  - intros w'' Hrun. pose proof (on_30hz_tick_advances _ _ Hrun) as Hadv.
    split.
    + intros Hu. destruct (s_entity_state_table w' !! u) eqn:Hw'; [eauto |].
      rewrite (adv_fresh _ _ Hadv u Hw') in Hu. by destruct Hu.
    + intros [ms Hms].
      destruct (adv_phase _ _ Hadv u ms Hms) as (ms' & -> & _). eauto.
Qed.

(** *** The assertion of make_flock_from_selection *)

(** X15: [kh_put] reports a key that is already in the new flock, and the
    assertion after it rejects that: when the allocation succeeds,
    [make_flock_from_selection] aborts exactly when the same eligible entity
    is selected twice. When the allocation fails it returns false before
    the assertion is reached. *)
Theorem make_flock_aborts_on_duplicates (sel : list N) (target : vec2)
    (w : world) :
  (make_flock_from_selection true sel target w = None
   ↔ ¬ NoDup (eligible (entities w) sel))
  ∧ ∃ w', make_flock_from_selection false sel target w = Some (false, w').
Proof.
  split; [| by eexists].
  split.
  - intros Hnone Hnd.
    destruct (make_flock_success sel target w Hnd) as (w' & Hrun & _).
    congruence.
  - intros Hdup.
    destruct (make_flock_from_selection true sel target w) as [[r w'] |]
      eqn:Hrun; [| done].
    destruct (make_flock_returns _ _ _ _ _ _ Hrun) as (_ & _ & _ & Hnd).
    by destruct Hdup; apply Hnd.
Qed.

Local Open Scope R_scope.


(** *** Move orders and the entities they do not enroll *)

Local Close Scope R_scope.

Lemma memberships_purge_other (u : N) (gone : gset N) (fl : list flock) :
  u ∉ gone → memberships u (purge gone fl) = memberships u fl.
Proof.
  intros Hu. unfold memberships, purge.
  induction fl as [| f fl IH]; [done |].
  rewrite fmap_cons.
  assert (Hin : u ∈ ents (carve gone f) ↔ u ∈ ents f).
  { unfold carve. cbn [ents]. rewrite elem_of_difference. tauto. }
  destruct (decide (u ∈ ents f)) as [Hf | Hf].
  - rewrite (filter_cons_True (λ f, ents f ≠ ∅)).
    2:{ intros He. apply Hin in Hf. rewrite He in Hf.
        by apply not_elem_of_empty in Hf. }
    rewrite (filter_cons_True _ (carve gone f)) by by apply Hin.
    rewrite (filter_cons_True _ f) by done. simpl. by rewrite IH.
  - rewrite (filter_cons_False _ f) by done.
    destruct (decide (ents (carve gone f) ≠ ∅)).
    + rewrite (filter_cons_True (λ f, ents f ≠ ∅)) by done.
      rewrite (filter_cons_False _ (carve gone f)) by by rewrite Hin.
      done.
    + by rewrite (filter_cons_False (λ f, ents f ≠ ∅)) by done.
Qed.

Lemma carved_registry_other (u : N) (es : N → entity) (sel : list N)
    (fl : list flock) :
  u ∉ eligible es sel →
  memberships u (carved_registry es sel fl) = memberships u fl
  ∧ ∀ f, f ∈ fl → u ∈ ents f →
      ∃ f', f' ∈ carved_registry es sel fl
            ∧ u ∈ ents f' ∧ target_xz f' = target_xz f ∧ ents f' ⊆ ents f.
Proof.
  intros Hu. unfold carved_registry.
  destruct (eligible es sel) as [| v l] eqn:He.
  - split; [done |]. intros f Hf Huf. by exists f.
  - assert (Hgone : u ∉ (list_to_set (v :: l) : gset N))
      by by rewrite elem_of_list_to_set.
    split; [by apply memberships_purge_other |].
    intros f Hf Huf. exists (carve (list_to_set (v :: l)) f).
    assert (Hin : u ∈ ents (carve (list_to_set (v :: l)) f)).
    { unfold carve. cbn [ents]. by apply elem_of_difference. }
    split; [| split; [done | split; [done |]]].
    + unfold purge. apply list_elem_of_filter. split.
      * intros Hempty. rewrite Hempty in Hin.
        by apply not_elem_of_empty in Hin.
      * apply list_elem_of_fmap. by exists f.
    + unfold carve. cbn [ents]. set_solver.
Qed.

Lemma filter_about_starts (u : N) (l : list N) :
  u ∉ l →
  filter (λ e : event * N, e.2 = u) ((λ v, (EVENT_MOTION_START, v)) <$> l)
  = [].
Proof.
  intros Hu. induction l as [| a l IH]; [done |].
  rewrite fmap_cons, filter_cons_False.
  - apply IH. intros Hin. apply Hu. by right.
  - cbn [snd]. intros ->. apply Hu. by left.
Qed.

(** X16: a move order leaves alone every entity it does not enroll (one that
    is not selected, or is static, or has no speed): no entity struct is
    written to, the MotionState of such an entity stays, nothing is
    notified about it, it is a member of as many flocks as before, and each
    of its flocks is still in the registry with its target, having lost
    enrolled members only. *)
Theorem make_flock_spares_bystanders (ok : bool) (sel : list N)
    (target : vec2) (w w' : world) (r : bool) (u : N) :
  make_flock_from_selection ok sel target w = Some (r, w') →
  u ∉ eligible (entities w) sel →
  entities w' = entities w
  ∧ s_entity_state_table w' !! u = s_entity_state_table w !! u
  ∧ filter (λ e, e.2 = u) (notified w') = filter (λ e, e.2 = u) (notified w)
  ∧ memberships u (s_flocks w') = memberships u (s_flocks w)
  ∧ ∀ f, f ∈ s_flocks w → u ∈ ents f →
      ∃ f', f' ∈ s_flocks w'
            ∧ u ∈ ents f' ∧ target_xz f' = target_xz f ∧ ents f' ⊆ ents f.
Proof.
  intros Hrun Hu.
  destruct (make_flock_returns _ _ _ _ _ _ Hrun) as (_ & He & Hfl & Hnd).
  destruct (carved_registry_other u (entities w) sel (s_flocks w) Hu)
    as [Hcount Hkept].
  pose proof (remove_selection_spec (entities w) sel (s_flocks w)) as Hperm.
  split; [done |].
  split; [by apply (make_flock_state_kept _ _ _ _ _ _ u Hrun); left |].
  split; [| split].
  - destruct ok.
    + destruct (make_flock_success sel target w (Hnd eq_refl))
        as (w2 & Hrun2 & _ & _ & Hn & _).
      rewrite Hrun in Hrun2. injection Hrun2 as _ <-.
      rewrite Hn, filter_app, filter_about_starts, app_nil_r; [done |].
      intros Hin. apply Hu.
      by apply list_elem_of_filter in Hin as [_ Hin].
    + unfold make_flock_from_selection in Hrun. cbn [negb] in Hrun.
      by injection Hrun as _ <-.
  - rewrite Hfl, memberships_app, (memberships_perm u _ _ Hperm), Hcount.
    destruct ok; [| unfold memberships; simpl; lia].
    unfold memberships. rewrite filter_cons_False; [simpl; lia |].
    cbn [ents]. by rewrite elem_of_list_to_set.
  - intros f Hf Huf. destruct (Hkept f Hf Huf) as (f' & Hf' & Hrest).
    exists f'. split; [| done]. rewrite Hfl. apply elem_of_app. left.
    by rewrite Hperm.
Qed.

(** *** A move order given again *)

Lemma purge_own (gone : gset N) (target : vec2) :
  purge gone [mk_flock gone target] = [].
Proof.
  unfold purge. rewrite fmap_cons, filter_cons_False; [done |].
  unfold carve. cbn [ents]. intros Hne. apply Hne. set_solver.
Qed.

Lemma enrolled_state_lookup (t : gmap N movestate) (u : N) (ms : movestate) :
  t !! u = Some ms → state ms = STATE_MOVING → enrolled_state t u = ms.
Proof.
  intros Hu Hst. unfold enrolled_state. rewrite Hu.
  destruct ms as [v st]. cbn [state velocity] in *. by subst st.
Qed.

(** X17: a move order given again for the same selection replaces the flock
    of the first order by one with the new target and does nothing else:
    the enrolled agents keep their MotionState (phase MOVING and their
    velocity), nothing is notified, no entity is written to, and the other
    flocks stay, in some order. *)
Theorem make_flock_again (sel : list N) (target target' : vec2) (w : world) :
  NoDup (eligible (entities w) sel) → eligible (entities w) sel ≠ [] →
  ∃ w1 w2 old,
    make_flock_from_selection true sel target w = Some (true, w1)
    ∧ make_flock_from_selection true sel target' w1 = Some (true, w2)
    ∧ s_flocks w1
      = old ++ [mk_flock (list_to_set (eligible (entities w) sel)) target]
    ∧ s_flocks w2
      ≡ₚ old ++ [mk_flock (list_to_set (eligible (entities w) sel)) target']
    ∧ s_entity_state_table w2 = s_entity_state_table w1
    ∧ notified w2 = notified w1
    ∧ entities w2 = entities w1.
Proof.
  intros Hnd Hne.
  destruct (make_flock_success sel target w Hnd)
    as (w1 & Hrun1 & He1 & Hfl1 & Hn1 & Ht1).
  assert (Hnd1 : NoDup (eligible (entities w1) sel)) by by rewrite He1.
  destruct (make_flock_success sel target' w1 Hnd1)
    as (w2 & Hrun2 & He2 & Hfl2 & Hn2 & Ht2).
  rewrite He1 in Hfl2, Hn2, Ht2.
  set (E := eligible (entities w) sel) in *.
  exists w1, w2, (remove_selection (entities w) sel (s_flocks w)).
  split; [done |]. split; [done |]. split; [done |].
  assert (Hmoving : ∀ u, u ∈ E →
            s_entity_state_table w1 !! u
            = Some (enrolled_state (s_entity_state_table w) u)).
  { intros u Hu. rewrite Ht1. by rewrite decide_True. }
  split; [| split; [| split; [| done]]].
  - rewrite Hfl2. apply Permutation_app_tail.
    rewrite Hfl1.
    rewrite (remove_selection_spec (entities w) sel _).
    pose proof (remove_selection_spec (entities w) sel (s_flocks w)) as Hold.
    unfold carved_registry in *. fold E in Hold |- *.
    destruct E as [| v l] eqn:HE; [done |].
    rewrite purge_app, purge_own, app_nil_r.
    rewrite (purge_perm _ _ _ Hold), purge_purge.
    rewrite Hold. apply purge_perm_set. apply union_idemp_L.
  - apply map_eq. intros u. rewrite Ht2.
    destruct (decide (u ∈ E)) as [Hu | Hu]; [| done].
    rewrite (Hmoving u Hu). f_equal.
    by apply enrolled_state_lookup; [apply Hmoving |].
  - rewrite Hn2.
    assert (Hnil : filter (starts_motion (s_entity_state_table w1)) E = []).
    { destruct (filter (starts_motion (s_entity_state_table w1)) E)
        as [| a l] eqn:Hf; [done |].
      assert (Ha : a ∈ filter (starts_motion (s_entity_state_table w1)) E)
        by (rewrite Hf; left).
      apply list_elem_of_filter in Ha as [Hstart Ha].
      unfold starts_motion in Hstart. rewrite (Hmoving a Ha) in Hstart.
      done. }
    rewrite Hnil. by rewrite app_nil_r.
Qed.

Local Open Scope R_scope.


(** *** Separation from a single neighbour *)

Lemma foldl_single {A B : Type} `{!EqDecision A} (body : B → A → B)
    (a : A) (l : list A) (acc : B) :
  NoDup l →
  (∀ b acc', b ∈ l → b ≠ a → body acc' b = acc') →
  foldl body acc l = if decide (a ∈ l) then body acc a else acc.
Proof.
  revert acc. induction l as [| b l IH]; intros acc Hnd Hskip.
  - rewrite decide_False; [done |]. apply not_elem_of_nil.
  - apply NoDup_cons in Hnd as [Hb Hnd]. cbn [foldl].
    rewrite IH; [| done | intros c acc' Hc; apply Hskip; by right].
    destruct (decide (b = a)) as [-> | Hne].
    + rewrite decide_False by done. rewrite decide_True by left. done.
    + rewrite (Hskip b acc) by (done || left).
      destruct (decide (a ∈ l)) as [Ha | Ha].
      * rewrite decide_True by (by right). done.
      * rewrite decide_False; [done |].
        intros [-> | Hin]%elem_of_cons; done.
Qed.

(** X18: separation pushes away. When exactly one other member of the flock
    is closer than the neighbour radius [selection_radius + buffer_dist],
    the separation force is the vector from the entity to that neighbour,
    scaled by [-(1 - distance / radius)] and clamped to [MAX_FORCE]: a
    multiple of that vector by a factor that is not positive. *)
Theorem separation_force_repels (w : world) (ent a : N) (f : flock)
    (tick_res : Z) (buffer_dist : R) :
  a ∈ ents f → a ≠ ent →
  PFM_Vec2_Len (PFM_Vec2_Sub (xz_pos (entities w a)) (xz_pos (entities w ent)))
  < selection_radius (entities w ent) + buffer_dist →
  (∀ b, b ∈ ents f → b ≠ ent → b ≠ a →
     selection_radius (entities w ent) + buffer_dist
     <= PFM_Vec2_Len
          (PFM_Vec2_Sub (xz_pos (entities w b)) (xz_pos (entities w ent)))) →
  separation_force w ent f tick_res buffer_dist
  = vec2_truncate
      (PFM_Vec2_Scale
         (PFM_Vec2_Sub (xz_pos (entities w a)) (xz_pos (entities w ent)))
         (- (1 - PFM_Vec2_Len
                   (PFM_Vec2_Sub (xz_pos (entities w a))
                                 (xz_pos (entities w ent)))
                 / (selection_radius (entities w ent) + buffer_dist))))
      MAX_FORCE
  ∧ ∃ k, 0 <= k
         ∧ separation_force w ent f tick_res buffer_dist
           = PFM_Vec2_Scale
               (PFM_Vec2_Sub (xz_pos (entities w a))
                             (xz_pos (entities w ent)))
               (- k).
Proof.
  intros Ha Hne Hnear Hfar.
  set (diff := PFM_Vec2_Sub (xz_pos (entities w a))
                            (xz_pos (entities w ent))) in *.
  set (radius := selection_radius (entities w ent) + buffer_dist) in *.
  pose proof (PFM_Vec2_Len_nonneg diff) as Hd.
  assert (Hforce : separation_force w ent f tick_res buffer_dist
                   = vec2_truncate
                       (PFM_Vec2_Scale diff
                          (- (1 - PFM_Vec2_Len diff / radius)))
                       MAX_FORCE).
  { unfold separation_force. fold radius.
    rewrite (foldl_single (separation_body w ent radius) a).
    - rewrite decide_True by (by apply elem_of_elements).
      unfold separation_body. rewrite decide_False by done.
      fold diff. destruct (Rlt_dec (PFM_Vec2_Len diff) radius); [| done].
      rewrite decide_False by done. f_equal.
      apply vec2_eq; cbn [PFM_Vec2_Scale PFM_Vec2_Add vec2_zero raw0 raw1 INR];
        field; lra.
    - apply NoDup_elements.
    - intros b [ret n] Hb Hba. apply elem_of_elements in Hb.
      unfold separation_body. destruct (decide (b = ent)); [done |].
      destruct (Rlt_dec _ radius) as [Hlt | _]; [| done].
      pose proof (Hfar b Hb ltac:(done) Hba). lra. }
  split; [done |]. rewrite Hforce.
  destruct (vec2_truncate_factor
              (PFM_Vec2_Scale diff (- (1 - PFM_Vec2_Len diff / radius)))
              MAX_FORCE) as (k & [Hk0 Hk1] & ->);
    [unfold MAX_FORCE; lra |].
  exists ((1 - PFM_Vec2_Len diff / radius) * k). split.
  - apply Rmult_le_pos; [| done].
    assert (PFM_Vec2_Len diff / radius <= 1); [| lra].
    apply (Rmult_le_reg_r radius); [lra |].
    unfold Rdiv. rewrite Rmult_assoc, Rinv_l by lra. lra.
  - apply vec2_eq; cbn [PFM_Vec2_Scale raw0 raw1]; ring.
Qed.

(** *** The force on an agent that is not moving *)

(** X19: the target of the flock steers agents in the MOVING phase only: the
    force on an agent in the SETTLING or the ARRIVED phase is the same
    whatever the target of its flock. *)
Theorem settled_force_ignores_target (w : world) (ent : N)
    (members : gset N) (target target' : vec2) (tick_res : Z)
    (ms : movestate) :
  s_entity_state_table w !! ent = Some ms → state ms ≠ STATE_MOVING →
  total_steering_force w ent (mk_flock members target) tick_res
  = total_steering_force w ent (mk_flock members target') tick_res.
Proof.
  intros Hms Hst. unfold total_steering_force. rewrite Hms.
  cbn [mbind option_bind].
  unfold arrive_force. rewrite Hms. cbn [mbind option_bind].
  change (alignment_force w ent (mk_flock members target) tick_res)
    with (alignment_force w ent (mk_flock members target') tick_res).
  destruct (alignment_force _ _ _ _) as [alignment |]; [| done].
  cbn [mbind option_bind]. destruct (state ms); done.
Qed.


(** *** Settling without speed *)

Lemma stays_settling_preorder (u : N) : PreOrder (stays_settling u).
Proof.
  split.
  - by intros w Hs Hsp.
  - intros w1 w2 w3 H12 H23 Hs Hsp.
    destruct (H12 Hs Hsp) as [Hs2 Hsp2]. by apply H23.
Qed.

Lemma tick_entity_stays_settling (u : N) (f : flock) (w w' : world)
    (curr : N) :
  tick_entity f w curr = Some w' → stays_settling u w w'.
Proof.
  intros Hrun (ms0 & Hms0 & Hst) Hsp.
  destruct (decide (u = curr)) as [-> | Hne].
  2:{ destruct (tick_entity_untouched _ _ _ _ _ Hrun Hne) as (Ht & He & _).
      rewrite Ht, He. eauto. }
  destruct (tick_entity_cases _ _ _ _ Hrun)
    as (ms & force & e' & ms' & evs & Hms & Hforce & -> & Hcases).
  cbv zeta in Hcases.
  destruct Hcases as (_ & Hspeed & _ & _ & _ & Hphase).
  cbn [s_entity_state_table entities].
  rewrite lookup_insert_eq, decide_True by done.
  split; [| by rewrite Hspeed].
  rewrite Hms in Hms0. injection Hms0 as <-. rewrite Hst in Hphase.
  destruct (decide (_ < _)) as [Hslow | Hfast].
  - exfalso.
    pose proof (PFM_Vec2_Len_nonneg
      (vec2_truncate
         (PFM_Vec2_Add (velocity ms)
            (PFM_Vec2_Scale force (1 / ENTITY_MASS)))
         (max_speed (entities w curr) / IZR TICK_RES))) as Hlen.
    unfold SETTLE_STOP_TOLERANCE in Hslow. lra.
  - destruct Hphase as [-> _]. eauto.
Qed.

Lemma on_30hz_tick_stays_settling (u : N) (w w' : world) :
  on_30hz_tick w = Some w' → stays_settling u w w'.
Proof.
  pose proof (stays_settling_preorder u).
  apply (tick_flocks_rel (stays_settling u)).
  - intros f w0 curr w0'. apply tick_entity_stays_settling.
  - by intros w0 i Hs Hsp.
Qed.

(** X20: a settling agent whose [max_speed] is not positive never arrives:
    the length of its velocity is not below [0.05 * max_speed], so every
    tick leaves it in the SETTLING phase; in a registry where every agent
    has one flock at most, its flock is never destroyed by a tick. *)
Theorem settling_without_speed_goes_on (w : world) (u : N) (ms : movestate)
    (n : nat) :
  registered w →
  s_entity_state_table w !! u = Some ms → state ms = STATE_SETTLING →
  max_speed (entities w u) <= 0 →
  ∃ w' ms',
    ticks n w = Some w'
    ∧ s_entity_state_table w' !! u = Some ms'
    ∧ state ms' = STATE_SETTLING
    ∧ (one_flock (s_flocks w) →
       ∀ f, f ∈ s_flocks w → u ∈ ents f → f ∈ s_flocks w').
Proof.
  revert w ms. induction n as [| n IH]; intros w ms Hreg Hms Hst Hsp.
  - by exists w, ms.
  - destruct (on_30hz_tick_total w Hreg) as [w1 Hstep].
    pose proof (on_30hz_tick_advances _ _ Hstep) as Hadv.
    destruct (on_30hz_tick_stays_settling u _ _ Hstep)
      as [(ms1 & Hms1 & Hst1) Hsp1]; [by exists ms | done |].
    destruct (IH w1 ms1) as (w' & ms' & Hrun & Hms' & Hst' & Hkeep);
      [by eapply registered_advances | done..|].
    exists w', ms'. cbn [ticks]. rewrite Hstep. cbn [mbind option_bind].
    split; [done |]. split; [done |]. split; [done |].
    intros Hone f Hf Hu. apply Hkeep; [| | done].
    + eapply one_flock_submseteq; [apply Hadv | done].
    + eapply tick_flocks_keeps; [exact Hstep | done |].
      right. split; [by rewrite take_ge |].
      intros Harr. destruct (Harr u Hu) as (ms2 & Hms2 & Hst2). congruence.
Qed.


(** *** Move orders from the mouse *)

Local Close Scope R_scope.

Lemma make_flock_runs (ok : bool) (sel : list N) (target : vec2)
    (w : world) :
  NoDup (eligible (entities w) sel) →
  ∃ w',
    make_flock_from_selection ok sel target w = Some (ok, w')
    ∧ entities w' = entities w
    ∧ s_flocks w'
      = remove_selection (entities w) sel (s_flocks w)
        ++ (if ok
            then [mk_flock (list_to_set (eligible (entities w) sel)) target]
            else [])
    ∧ notified w'
      = notified w ++
        (if ok
         then (λ u, (EVENT_MOTION_START, u)) <$>
                filter (starts_motion (s_entity_state_table w))
                       (eligible (entities w) sel)
         else [])
    ∧ ∀ u, s_entity_state_table w' !! u
           = if decide (ok = true ∧ u ∈ eligible (entities w) sel)
             then Some (enrolled_state (s_entity_state_table w) u)
             else s_entity_state_table w !! u.
Proof.
  intros Hnd. destruct ok.
  - destruct (make_flock_success sel target w Hnd)
      as (w' & Hrun & He & Hfl & Hn & Ht).
    exists w'. split; [done |]. split; [done |]. split; [done |].
    split; [done |]. intros u. rewrite Ht.
    destruct (decide (u ∈ eligible (entities w) sel)).
    + by rewrite decide_True.
    + rewrite decide_False; [done |]. by intros [_ ?].
  - eexists. split; [reflexivity |]. cbn [set_flocks entities s_flocks
      notified s_entity_state_table].
    rewrite !app_nil_r. split; [done |]. split; [done |]. split; [done |].
    intros u. rewrite decide_False; [done |]. by intros [? _].
Qed.

Lemma eligible_store_entity (w : world) (uid : N) (e : entity)
    (sel : list N) :
  uid ∉ sel →
  eligible (entities (store_entity w uid e)) sel = eligible (entities w) sel.
Proof.
  intros Hu. unfold eligible. apply filter_ext_in. intros a Ha.
  unfold store_entity, set_entities. cbn [entities].
  rewrite decide_False; [done |]. by intros ->.
Qed.

(** X21: a right click on the terrain, outside the minimap and the windows,
    with a selection that is not empty gives the move order: the marker
    entity is placed at the point clicked and appended to the markers, and
    [make_flock_from_selection] runs with the x and z of that point as
    target. Its result is not looked at: when the allocation of the flock
    fails, the marker is there all the same, the selected agents have left
    their flocks and no flock is added. *)
Theorem on_mousedown_orders (c : click) (sel : list N) (uid : N)
    (ent : entity) (kh_init_ok : bool) (m : module) (p : vec3) :
  button c = SDL_BUTTON_RIGHT → over_minimap c = false →
  over_window c = false → raycast c = Some p →
  sel ≠ [] → uid ∉ sel → NoDup (eligible (entities (core m)) sel) →
  ∃ m' old,
    on_mousedown c sel (Some (uid, ent)) kh_init_ok m = Some m'
    ∧ s_move_markers m' = s_move_markers m ++ [uid]
    ∧ entities (core m') uid = set_pos ent p
    ∧ (∀ u, u ≠ uid → entities (core m') u = entities (core m) u)
    ∧ s_flocks (core m')
      = old ++ (if kh_init_ok
                then [mk_flock
                        (list_to_set (eligible (entities (core m)) sel))
                        (mk_vec2 (x p) (z p))]
                else [])
    ∧ old ≡ₚ carved_registry (entities (core m)) sel (s_flocks (core m))
    ∧ ∀ u, s_entity_state_table (core m') !! u
           = if decide (kh_init_ok = true
                        ∧ u ∈ eligible (entities (core m)) sel)
             then Some (enrolled_state (s_entity_state_table (core m)) u)
             else s_entity_state_table (core m) !! u.
Proof.
  intros Hb Hmini Hwin Hray Hsel Hu Hnd.
  set (w1 := store_entity (core m) uid (set_pos ent p)).
  assert (Hel : eligible (entities w1) sel
                = eligible (entities (core m)) sel)
    by by apply eligible_store_entity.
  destruct (make_flock_runs kh_init_ok sel (mk_vec2 (x p) (z p)) w1)
    as (w2 & Hrun & He & Hfl & _ & Ht).
  { by rewrite Hel. }
  rewrite Hel in Hfl, Ht.
  exists (mk_module w2 (kv_push (s_move_markers m) uid)),
         (remove_selection (entities w1) sel (s_flocks w1)).
  split; [| split; [done |]].
  - unfold on_mousedown. rewrite decide_False by (by intros []).
    rewrite Hmini, Hwin, Hray.
    rewrite decide_True by (destruct sel; [done | simpl; lia]).
    unfold move_marker_add. cbn [mbind option_bind core s_move_markers].
    fold w1. rewrite Hrun. done.
  - cbn [core]. rewrite He.
    split; [| split; [| split; [done | split; [| done]]]].
    + unfold w1, store_entity, set_entities. cbn [entities].
      by rewrite decide_True.
    + intros u Hne. unfold w1, store_entity, set_entities. cbn [entities].
      by rewrite decide_False.
    + rewrite (remove_selection_spec (entities w1) sel (s_flocks w1)).
      unfold carved_registry. by rewrite Hel.
Qed.

(** *** An order that enrolls nobody *)

(** X22: an order for a selection without an eligible entity pushes an empty
    flock; the next tick destroys that flock before it does anything else,
    so the tick after such an order does to the world what it would have
    done without the order. *)
Theorem idle_order_undone_by_tick (sel : list N) (target : vec2)
    (w : world) :
  eligible (entities w) sel = [] →
  ∃ w',
    make_flock_from_selection true sel target w = Some (true, w')
    ∧ s_flocks w' = s_flocks w ++ [mk_flock ∅ target]
    ∧ on_30hz_tick w' = on_30hz_tick w.
Proof.
  intros He. rewrite (make_flock_nothing_eligible sel target w He).
  eexists. split; [reflexivity |]. split; [done |].
  unfold on_30hz_tick. cbn [set_flocks s_flocks].
  rewrite length_app. cbn [length].
  replace (length (s_flocks w) + 1) with (S (length (s_flocks w))) by lia.
  cbn [tick_flocks]. unfold tick_flock at 1. unfold set_flocks.
  cbn [s_flocks s_entity_state_table entities notified].
  rewrite lookup_app_r by done.
  replace (length (s_flocks w) - length (s_flocks w)) with 0 by lia.
  cbn [lookup list_lookup mbind option_bind ents s_entity_state_table].
  rewrite elements_empty. cbn [all_arrived mbind option_bind].
  rewrite kv_del_last. by destruct w.
Qed.

Local Open Scope R_scope.


(** *** The one run of the loop body on a member *)

Local Close Scope R_scope.

Lemma flock_loop_member (f : flock) (l : list N) (w w' : world) (u : N) :
  kh_foreach (tick_entity f) l w = Some w' → NoDup l → u ∈ l →
  ∃ w1 w2,
    tick_entity f w1 u = Some w2
    ∧ untouched u w w1 ∧ untouched u w2 w'
    ∧ advances w w1 ∧ advances w2 w'.
Proof.
  revert w. induction l as [| a l IH]; intros w Hrun Hnd Hu.
  - by apply elem_of_nil in Hu.
  - apply NoDup_cons in Hnd as [Ha Hnd]. cbn [kh_foreach] in Hrun.
    destruct (tick_entity f w a) as [wa |] eqn:Hstep; [| discriminate].
    cbn [mbind option_bind] in Hrun.
    destruct (decide (u = a)) as [-> | Hne].
    + exists w, wa. split; [done |]. split; [reflexivity |].
      split; [by eapply flock_loop_untouched |].
      split; [reflexivity | by eapply flock_loop_advances].
    + apply elem_of_cons in Hu as [Hu | Hu]; [done |].
      destruct (IH wa Hrun Hnd Hu) as (w1 & w2 & Hbody & Hu1 & Hu2 & Ha1 & Ha2).
      exists w1, w2. split; [done |].
      split; [| split; [done | split; [| done]]].
      * transitivity wa; [by eapply tick_entity_untouched | done].
      * transitivity wa; [by eapply tick_entity_advances | done].
Qed.

(** The loop from index [n] down touches the members of the first [n]
    flocks only. *)
Lemma tick_flocks_untouched_take (u : N) (n : nat) (w w' : world) :
  tick_flocks n w = Some w' →
  (∀ g, g ∈ take n (s_flocks w) → u ∉ ents g) →
  untouched u w w'.
Proof.
  revert w. induction n as [| i IH]; intros w Hrun Hout.
  - injection Hrun as <-. reflexivity.
  - cbn [tick_flocks] in Hrun.
    destruct (tick_flock i w) as [w1 |] eqn:Hstep; [| discriminate].
    cbn [mbind option_bind] in Hrun.
    destruct (tick_flock_inv i w w1 Hstep) as (g & Hg & Hcase).
    rewrite (take_S_r _ _ _ Hg) in Hout.
    transitivity w1.
    + destruct Hcase as [[_ ->] | [_ Hloop]]; [done |].
      eapply flock_loop_untouched; [| exact Hloop].
      intros Hu%elem_of_elements. apply (Hout g); [| done].
      apply elem_of_app. right. left.
    + apply IH; [done |]. intros g' Hg'.
      rewrite (tick_flock_take _ _ _ Hstep) in Hg'.
      apply Hout. apply elem_of_app. by left.
Qed.

(** In a registry where every agent has one flock at most, the tick runs
    the loop body once on each member of a flock that has not arrived, and
    touches that member at no other point. *)
Lemma tick_flocks_member (n : nat) (w w' : world) (f : flock) (u : N) :
  tick_flocks n w = Some w' → one_flock (s_flocks w) →
  f ∈ take n (s_flocks w) → ¬ flock_arrived (s_entity_state_table w) f →
  u ∈ ents f →
  ∃ w1 w2,
    tick_entity f w1 u = Some w2
    ∧ untouched u w w1 ∧ untouched u w2 w'
    ∧ advances w w1 ∧ advances w2 w'.
Proof.
  revert w. induction n as [| i IH]; intros w Hrun Hone Hf Hnarr Hu.
  - rewrite take_0 in Hf. by apply elem_of_nil in Hf.
  - cbn [tick_flocks] in Hrun.
    destruct (tick_flock i w) as [wa |] eqn:Hstep; [| discriminate].
    cbn [mbind option_bind] in Hrun.
    pose proof (tick_flock_advances i w wa Hstep) as Hadv.
    pose proof (tick_flock_take i w wa Hstep) as Htake.
    destruct (tick_flock_inv i w wa Hstep) as (g & Hg & Hcase).
    rewrite (take_S_r _ _ _ Hg) in Hf.
    apply elem_of_app in Hf as [Hf | Hf].
    + (* [f] comes later: this step leaves its members alone *)
      assert (Hapart : ∀ v, v ∈ ents f → untouched v w wa).
      { intros v Hv. destruct Hcase as [[_ ->] | [_ Hloop]]; [done |].
        eapply flock_loop_untouched; [| exact Hloop].
        intros Hvg%elem_of_elements. by eapply one_flock_apart. }
      destruct (IH wa Hrun) as (w1 & w2 & Hbody & Hu1 & Hu2 & Ha1 & Ha2);
        [| by rewrite Htake | | done |].
      * eapply one_flock_submseteq; [apply Hadv | done].
      * intros Harr. apply Hnarr. intros v Hv.
        destruct (Hapart v Hv) as (Ht & _). rewrite <- Ht. by apply Harr.
      * exists w1, w2. split; [done |].
        split; [| split; [done | split; [| done]]].
        -- transitivity wa; [by apply Hapart | done].
        -- by transitivity wa.
    + (* [f] is the flock of this step *)
      apply list_elem_of_singleton in Hf as ->.
      destruct Hcase as [[Harr _] | [_ Hloop]]; [done |].
      destruct (flock_loop_member _ _ _ _ u Hloop)
        as (w1 & w2 & Hbody & Hu1 & Hu2 & Ha1 & Ha2);
        [apply NoDup_elements | by apply elem_of_elements |].
      exists w1, w2. split; [done |]. split; [done |].
      split; [| split; [done |]].
      * transitivity wa; [done |].
        eapply tick_flocks_untouched_take; [exact Hrun |].
        intros g' Hg' Hug'. rewrite Htake in Hg'.
        by eapply (one_flock_apart (s_flocks w) i g' g u).
      * transitivity wa; [done | by eapply tick_flocks_advances].
Qed.

Local Open Scope R_scope.


Lemma near_settled_true (t : gmap N movestate) (l : list N) :
  near_settled t l = Some true →
  ∃ a ms, a ∈ l ∧ t !! a = Some ms
          ∧ (state ms = STATE_ARRIVED ∨ state ms = STATE_SETTLING).
Proof.
  induction l as [| a l IH]; intros H; [discriminate |].
  cbn [near_settled] in H.
  destruct (t !! a) as [ms |] eqn:Hms; [| discriminate].
  cbn [mbind option_bind] in H.
  destruct (decide _) as [Hst | _].
  - exists a, ms. split; [left | done].
  - destruct (IH H) as (b & msb & Hb & Hmsb & Hstb).
    exists b, msb. split; [by right | done].
Qed.


(** X24: how an agent leaves the MOVING phase. In a registry where every
    agent has one flock at most, after a tick a member that was in the
    MOVING phase is at rest, with one EVENT_MOTION_END notified, exactly
    when it stands closer than [ARRIVE_THRESHOLD_DIST] to the target of its
    flock; it is in the ARRIVED phase only then, it is in the SETTLING phase
    only when another member of its flock is no longer in the MOVING phase,
    and otherwise it is still in the MOVING phase. *)
Theorem moving_agent_transitions (w : world) (f : flock) (u : N)
    (ms : movestate) :
  registered w → one_flock (s_flocks w) →
  f ∈ s_flocks w → u ∈ ents f →
  s_entity_state_table w !! u = Some ms → state ms = STATE_MOVING →
  ∃ w' ms',
    on_30hz_tick w = Some w'
    ∧ s_entity_state_table w' !! u = Some ms'
    ∧ (PFM_Vec2_Len (PFM_Vec2_Sub (target_xz f) (xz_pos (entities w' u)))
       < ARRIVE_THRESHOLD_DIST →
       state ms' ≠ STATE_MOVING ∧ velocity ms' = vec2_zero
       ∧ filter (λ e, e.2 = u) (notified w')
         = filter (λ e, e.2 = u) (notified w) ++ [(EVENT_MOTION_END, u)])
    ∧ (¬ PFM_Vec2_Len (PFM_Vec2_Sub (target_xz f) (xz_pos (entities w' u)))
         < ARRIVE_THRESHOLD_DIST →
       state ms' ≠ STATE_ARRIVED
       ∧ filter (λ e, e.2 = u) (notified w')
         = filter (λ e, e.2 = u) (notified w))
    ∧ (state ms' = STATE_SETTLING →
       ∃ a msa, a ∈ ents f ∧ a ≠ u
                ∧ s_entity_state_table w' !! a = Some msa
                ∧ state msa ≠ STATE_MOVING).
Proof.
  intros Hreg Hone Hf Hu Hms Hst.
  destruct (on_30hz_tick_total w Hreg) as [w' Hrun].
  destruct (tick_flocks_member _ _ _ f u Hrun Hone)
    as (w1 & w2 & Hbody & (Ht1 & He1 & Hn1) & (Ht2 & He2 & Hn2) & Ha1 & Ha2);
    [by rewrite take_ge | | done |].
  { intros Harr. destruct (Harr u Hu) as (ms0 & Hms0 & Hst0). congruence. }
  destruct (tick_entity_cases _ _ _ _ Hbody)
    as (ms1 & force & e' & ms' & evs & Hms1 & Hforce & Hw2 & Hcases).
  cbv zeta in Hcases.
  destruct Hcases as (_ & _ & _ & Hpos & _ & Hphase).
  rewrite Ht1, Hms in Hms1. injection Hms1 as <-. rewrite Hst in Hphase.
  destruct Hphase as (settle & Hsettle & Hphase).
  assert (Hxz : xz_pos (entities w' u)
                = M_ClampedMapCoordinate
                    (PFM_Vec2_Add (xz_pos (entities w1 u))
                       (vec2_truncate
                          (PFM_Vec2_Add (velocity ms)
                             (PFM_Vec2_Scale force (1 / ENTITY_MASS)))
                          (max_speed (entities w1 u) / IZR TICK_RES)))).
  { rewrite He2, Hw2. cbn [entities]. rewrite decide_True by done.
    unfold xz_pos at 1. rewrite Hpos. cbn [x z].
    by destruct (M_ClampedMapCoordinate _). }
  rewrite <- Hxz in Hphase.
  assert (Hms' : s_entity_state_table w' !! u = Some ms').
  { rewrite Ht2, Hw2. cbn [s_entity_state_table]. by rewrite lookup_insert_eq. }
  assert (Hn : filter (λ e, e.2 = u) (notified w')
               = filter (λ e, e.2 = u) (notified w)
                 ++ filter (λ e, e.2 = u) evs).
  { rewrite Hn2, Hw2. cbn [notified]. by rewrite filter_app, Hn1. }
  exists w', ms'. split; [done |]. split; [done |].
  split; [| split].
  - intros Hnear. rewrite decide_True in Hphase by done.
    destruct Hphase as [-> ->]. cbn [state velocity].
    split; [by destruct settle |]. split; [done |].
    rewrite Hn. by rewrite filter_cons_True, filter_nil by done.
  - intros Hfar. rewrite decide_False in Hphase by done.
    destruct Hphase as [-> ->]. cbn [state].
    split; [by destruct settle |]. by rewrite Hn, filter_nil, app_nil_r.
  - intros Hset.
    assert (settle = true) as ->.
    { destruct settle; [done |].
      destruct (decide _); destruct Hphase as [-> _]; discriminate. }
    destruct (near_settled_true _ _ Hsettle) as (a & msa & Ha & Hmsa & Hsta).
    unfold adjacent_flock_members in Ha.
    apply list_elem_of_filter in Ha as [[Hne _] Ha%elem_of_elements].
    assert (Hadv : advances w1 w').
    { transitivity w2; [by eapply tick_entity_advances | done]. }
    destruct (adv_phase _ _ Hadv a msa Hmsa) as (msa' & Hmsa' & Hle).
    exists a, msa'. split; [done |]. split; [done |]. split; [done |].
    intros Hmov. rewrite Hmov in Hle. unfold phase_le in Hle.
    destruct Hsta as [Hs | Hs]; rewrite Hs in Hle; simpl in Hle; lia.
Qed.


(** *** Who is enrolled *)

Lemma skipped_false (e : entity) :
  skipped e = false
  ↔ N.land (flags e) ENTITY_FLAG_STATIC = 0%N ∧ max_speed e ≠ 0.
Proof.
  unfold skipped. rewrite orb_false_iff, negb_false_iff, N.eqb_eq.
  by rewrite bool_decide_eq_false.
Qed.

(** X25: the flock a move order pushes has the order's target, and its
    members are the selected entities that are not static and whose
    [max_speed] is not zero, no other entity; each of them is in the MOVING
    phase after the call. *)
Theorem make_flock_enrolls_eligible (sel : list N) (target : vec2)
    (w w' : world) :
  make_flock_from_selection true sel target w = Some (true, w') →
  ∃ old new_flock,
    s_flocks w' = old ++ [new_flock]
    ∧ target_xz new_flock = target
    ∧ (∀ u, u ∈ ents new_flock
            ↔ u ∈ sel
              ∧ N.land (flags (entities w u)) ENTITY_FLAG_STATIC = 0%N
              ∧ max_speed (entities w u) ≠ 0)
    ∧ ∀ u, u ∈ ents new_flock →
        ∃ ms, s_entity_state_table w' !! u = Some ms
              ∧ state ms = STATE_MOVING.
Proof.
  intros Hrun.
  destruct (make_flock_returns _ _ _ _ _ _ Hrun) as (_ & _ & Hfl & Hnd).
  destruct (make_flock_success sel target w (Hnd eq_refl))
    as (w2 & Hrun2 & _ & _ & _ & Ht).
  rewrite Hrun in Hrun2. injection Hrun2 as <-.
  eexists _, _. split; [exact Hfl |]. split; [done |]. cbn [ents].
  assert (Hmem : ∀ u, u ∈ (list_to_set (eligible (entities w) sel) : gset N)
                      ↔ u ∈ eligible (entities w) sel)
    by (intros u; apply elem_of_list_to_set).
  split.
  - intros u. rewrite Hmem. unfold eligible.
    rewrite list_elem_of_filter, skipped_false.
    split; [by intros [[? ?] ?] | by intros (? & ? & ?)].
  - intros u Hu%Hmem. rewrite Ht, decide_True by done. by eexists.
Qed.

(** *** An agent far from its flock-mates *)

Lemma PFM_Vec2_Len_ge (v : vec2) (c : R) :
  c * c <= raw0 v * raw0 v + raw1 v * raw1 v → c <= PFM_Vec2_Len v.
Proof.
  intros Hle. pose proof (PFM_Vec2_Len_nonneg v) as Hv.
  pose proof (PFM_Vec2_Len_sqr v) as Hsq.
  destruct (Rle_lt_dec c (PFM_Vec2_Len v)) as [| Hlt]; [done |]. nra.
Qed.

Lemma foldl_skip {A B : Type} (body : B → A → B) (l : list A) (acc : B) :
  (∀ a acc', a ∈ l → body acc' a = acc') → foldl body acc l = acc.
Proof.
  revert acc. induction l as [| a l IH]; intros acc Hskip; [done |].
  cbn [foldl]. rewrite (Hskip a acc) by left.
  apply IH. intros b acc' Hb. apply Hskip. by right.
Qed.

Lemma kh_foreach_skip {A S : Type} (body : S → A → option S) (l : list A)
    (s : S) :
  (∀ a s', a ∈ l → body s' a = Some s') → kh_foreach body l s = Some s.
Proof.
  revert s. induction l as [| a l IH]; intros s Hskip; [done |].
  cbn [kh_foreach]. rewrite (Hskip a s) by left. cbn [mbind option_bind].
  apply IH. intros b s' Hb. apply Hskip. by right.
Qed.

(** X26: an agent in the MOVING phase whose flock-mates are all at least
    [COHESION_NEIGHBOUR_RADIUS] and at least [selection_radius +
    MOVE_SEPARATION_BUFFER_DIST] away is steered towards the target only:
    separation, cohesion and alignment are null, and the total force is the
    arrive force scaled by [MOVE_ARRIVE_FORCE_SCALE], which the last clamp
    leaves as it is. *)
Theorem far_agent_steered_by_arrive (w : world) (ent : N) (f : flock)
    (tick_res : Z) (ms : movestate) :
  s_entity_state_table w !! ent = Some ms → state ms = STATE_MOVING →
  (∀ b, b ∈ ents f → b ≠ ent →
     COHESION_NEIGHBOUR_RADIUS
     <= PFM_Vec2_Len
          (PFM_Vec2_Sub (xz_pos (entities w b)) (xz_pos (entities w ent)))
     ∧ selection_radius (entities w ent) + MOVE_SEPARATION_BUFFER_DIST
       <= PFM_Vec2_Len
            (PFM_Vec2_Sub (xz_pos (entities w b)) (xz_pos (entities w ent)))) →
  ∃ arrive,
    arrive_force w ent f tick_res = Some arrive
    ∧ separation_force w ent f tick_res MOVE_SEPARATION_BUFFER_DIST
      = vec2_zero
    ∧ cohesion_force w ent f tick_res = vec2_zero
    ∧ alignment_force w ent f tick_res = Some vec2_zero
    ∧ total_steering_force w ent f tick_res
      = Some (PFM_Vec2_Scale arrive MOVE_ARRIVE_FORCE_SCALE).
Proof.
  intros Hms Hst Hfar.
  destruct (arrive_force_total w ent f tick_res) as [arrive Harrive];
    [by eexists |].
  assert (Hsep : separation_force w ent f tick_res MOVE_SEPARATION_BUFFER_DIST
                 = vec2_zero).
  { unfold separation_force. rewrite foldl_skip.
    - by rewrite decide_True.
    - intros b [ret n] Hb%elem_of_elements. unfold separation_body.
      destruct (decide (b = ent)) as [| Hne]; [done |].
      destruct (Rlt_dec _ _) as [Hlt | _]; [| done].
      destruct (Hfar b Hb Hne) as [_ Hle]. lra. }
  assert (Hcoh : cohesion_force w ent f tick_res = vec2_zero).
  { unfold cohesion_force. rewrite foldl_skip.
    - by rewrite decide_True.
    - intros b [ret n] Hb%elem_of_elements. unfold cohesion_body.
      destruct (decide (b = ent)) as [| Hne]; [done |].
      destruct (Rlt_dec _ _) as [Hlt | _]; [| done].
      destruct (Hfar b Hb Hne) as [Hle _]. lra. }
  assert (Hal : alignment_force w ent f tick_res = Some vec2_zero).
  { unfold alignment_force. rewrite kh_foreach_skip.
    - cbn [mbind option_bind]. by rewrite decide_True.
    - intros b [ret n] Hb%elem_of_elements. unfold alignment_body.
      destruct (decide (b = ent)) as [| Hne]; [done |].
      destruct (Rlt_dec _ ALIGN_NEIGHBOUR_RADIUS) as [Hlt | _]; [| done].
      destruct (Hfar b Hb Hne) as [Hle _].
      unfold ALIGN_NEIGHBOUR_RADIUS, COHESION_NEIGHBOUR_RADIUS in *. lra. }
  exists arrive. split; [done |]. split; [done |]. split; [done |].
  split; [done |].
  unfold total_steering_force. rewrite Hms. cbn [mbind option_bind].
  rewrite Harrive. cbn [mbind option_bind]. rewrite Hal.
  cbn [mbind option_bind]. rewrite Hst, Hsep, Hcoh. f_equal.
  rewrite vec2_truncate_small.
  - apply vec2_eq;
      cbn [PFM_Vec2_Add PFM_Vec2_Scale vec2_zero raw0 raw1]; ring.
  - pose proof (arrive_force_len _ _ _ _ _ Harrive) as Hlen.
    match goal with
    | |- PFM_Vec2_Len ?v <= _ =>
        replace v with (PFM_Vec2_Scale arrive MOVE_ARRIVE_FORCE_SCALE)
    end.
    + rewrite PFM_Vec2_Len_Scale. unfold MOVE_ARRIVE_FORCE_SCALE.
      rewrite Rabs_right by lra. unfold MAX_FORCE in *. lra.
    + apply vec2_eq;
        cbn [PFM_Vec2_Add PFM_Vec2_Scale vec2_zero raw0 raw1]; ring.
Qed.


(** *** The assertions of the tick, exactly *)

Local Close Scope R_scope.

Lemma tick_flocks_registered (n : nat) (w w' : world) (f : flock) (u : N) :
  tick_flocks n w = Some w' → f ∈ take n (s_flocks w) → u ∈ ents f →
  is_Some (s_entity_state_table w !! u).
Proof.
  revert w. induction n as [| i IH]; intros w Hrun Hf Hu.
  - rewrite take_0 in Hf. by apply elem_of_nil in Hf.
  - cbn [tick_flocks] in Hrun.
    destruct (tick_flock i w) as [wa |] eqn:Hstep; [| discriminate].
    cbn [mbind option_bind] in Hrun.
    pose proof (tick_flock_advances i w wa Hstep) as Hadv.
    assert (Hback : ∀ w1, advances w w1 →
              is_Some (s_entity_state_table w1 !! u) →
              is_Some (s_entity_state_table w !! u)).
    { intros w1 Ha [ms Hms].
      destruct (s_entity_state_table w !! u) eqn:Hw; [eauto |].
      rewrite (adv_fresh _ _ Ha u Hw) in Hms. discriminate. }
    destruct (tick_flock_inv i w wa Hstep) as (g & Hg & Hcase).
    rewrite (take_S_r _ _ _ Hg) in Hf.
    apply elem_of_app in Hf as [Hf | Hf].
    + apply (Hback wa Hadv). apply (IH wa Hrun); [| done].
      by rewrite (tick_flock_take _ _ _ Hstep).
    + apply list_elem_of_singleton in Hf as ->.
      destruct Hcase as [[Harr _] | [_ Hloop]].
      * destruct (Harr u Hu) as (ms & -> & _). eauto.
      * destruct (flock_loop_member _ _ _ _ u Hloop)
          as (w1 & w2 & Hbody & _ & _ & Ha1 & _);
          [apply NoDup_elements | by apply elem_of_elements |].
        apply (Hback w1 Ha1).
        destruct (tick_entity_cases _ _ _ _ Hbody)
          as (ms & _ & _ & _ & _ & -> & _). eauto.
Qed.

(** X27: the tick runs to completion exactly when every member of every
    flock has a MotionState: its assertions, and those of the steering
    forces it calls, ask for nothing else. *)
Theorem tick_runs_iff_registered (w : world) :
  is_Some (on_30hz_tick w) ↔ registered w.
Proof.
  split; [| apply on_30hz_tick_total].
  intros [w' Hrun] f Hf u Hu.
  eapply tick_flocks_registered; [exact Hrun | | exact Hu].
  by rewrite take_ge.
Qed.

Local Open Scope R_scope.

(** *** Cohesion and alignment with a single neighbour *)

(** X28: cohesion pulls together. When exactly one other member of the flock
    is closer than [COHESION_NEIGHBOUR_RADIUS], the centre of mass is the
    position of that neighbour, and the cohesion force is the vector from
    the entity to the neighbour, clamped to [MAX_FORCE]: a multiple of that
    vector by a factor between 0 and 1. *)
Theorem cohesion_force_attracts (w : world) (ent a : N) (f : flock)
    (tick_res : Z) :
  a ∈ ents f → a ≠ ent →
  PFM_Vec2_Len (PFM_Vec2_Sub (xz_pos (entities w a)) (xz_pos (entities w ent)))
  < COHESION_NEIGHBOUR_RADIUS →
  (∀ b, b ∈ ents f → b ≠ ent → b ≠ a →
     COHESION_NEIGHBOUR_RADIUS
     <= PFM_Vec2_Len
          (PFM_Vec2_Sub (xz_pos (entities w b)) (xz_pos (entities w ent)))) →
  cohesion_force w ent f tick_res
  = vec2_truncate
      (PFM_Vec2_Sub (xz_pos (entities w a)) (xz_pos (entities w ent)))
      MAX_FORCE
  ∧ ∃ k, 0 <= k <= 1
         ∧ cohesion_force w ent f tick_res
           = PFM_Vec2_Scale
               (PFM_Vec2_Sub (xz_pos (entities w a))
                             (xz_pos (entities w ent)))
               k.
Proof.
  intros Ha Hne Hnear Hfar.
  assert (Hforce : cohesion_force w ent f tick_res
                   = vec2_truncate
                       (PFM_Vec2_Sub (xz_pos (entities w a))
                                     (xz_pos (entities w ent)))
                       MAX_FORCE).
  { unfold cohesion_force.
    rewrite (foldl_single (cohesion_body w ent) a).
    - rewrite decide_True by (by apply elem_of_elements).
      unfold cohesion_body. rewrite decide_False by done.
      destruct (Rlt_dec _ COHESION_NEIGHBOUR_RADIUS); [| done].
      rewrite decide_False by done. f_equal.
      apply vec2_eq;
        cbn [PFM_Vec2_Scale PFM_Vec2_Add PFM_Vec2_Sub vec2_zero raw0 raw1
             INR]; field.
    - apply NoDup_elements.
    - intros b [COM n] Hb Hba. apply elem_of_elements in Hb.
      unfold cohesion_body. destruct (decide (b = ent)); [done |].
      destruct (Rlt_dec _ COHESION_NEIGHBOUR_RADIUS) as [Hlt | _]; [| done].
      pose proof (Hfar b Hb ltac:(done) Hba). lra. }
  split; [done |]. rewrite Hforce.
  apply vec2_truncate_factor. unfold MAX_FORCE. lra.
Qed.


Lemma kh_foreach_single {A S : Type} `{!EqDecision A}
    (body : S → A → option S) (a : A) (l : list A) (s : S) :
  NoDup l →
  (∀ b s', b ∈ l → b ≠ a → body s' b = Some s') →
  kh_foreach body l s = if decide (a ∈ l) then body s a else Some s.
Proof.
  revert s. induction l as [| b l IH]; intros s Hnd Hskip.
  - rewrite decide_False; [done |]. apply not_elem_of_nil.
  - apply NoDup_cons in Hnd as [Hb Hnd]. cbn [kh_foreach].
    assert (Hskip' : ∀ c s', c ∈ l → c ≠ a → body s' c = Some s')
      by (intros c s' Hc; apply Hskip; by right).
    destruct (decide (b = a)) as [-> | Hne].
    + rewrite decide_True by left.
      destruct (body s a) as [s' |]; [| done]. cbn [mbind option_bind].
      rewrite IH by done. by rewrite decide_False by done.
    + rewrite (Hskip b s) by (done || left). cbn [mbind option_bind].
      rewrite IH by done.
      destruct (decide (a ∈ l)) as [Ha | Ha].
      * rewrite decide_True by (by right). done.
      * rewrite decide_False; [done |].
        intros [-> | Hin]%elem_of_cons; done.
Qed.

(** X29: alignment matches the neighbour. When exactly one other member of
    the flock is closer than [ALIGN_NEIGHBOUR_RADIUS], the alignment force
    is the difference between the velocity of that neighbour and the
    entity's own, clamped to [MAX_FORCE]; a neighbour whose velocity is
    shorter than [EPSILON] does not count, and the force is null. *)
Theorem alignment_force_matches_neighbour (w : world) (ent a : N)
    (f : flock) (tick_res : Z) (ms msa : movestate) :
  a ∈ ents f → a ≠ ent →
  s_entity_state_table w !! ent = Some ms →
  s_entity_state_table w !! a = Some msa →
  PFM_Vec2_Len (PFM_Vec2_Sub (xz_pos (entities w a)) (xz_pos (entities w ent)))
  < ALIGN_NEIGHBOUR_RADIUS →
  (∀ b, b ∈ ents f → b ≠ ent → b ≠ a →
     ALIGN_NEIGHBOUR_RADIUS
     <= PFM_Vec2_Len
          (PFM_Vec2_Sub (xz_pos (entities w b)) (xz_pos (entities w ent)))) →
  alignment_force w ent f tick_res
  = Some (if decide (PFM_Vec2_Len (velocity msa) < EPSILON) then vec2_zero
          else vec2_truncate (PFM_Vec2_Sub (velocity msa) (velocity ms))
                             MAX_FORCE).
Proof.
  intros Ha Hne Hms Hmsa Hnear Hfar.
  assert (Hskip : ∀ b s', b ∈ elements (ents f) → b ≠ a →
            alignment_body w ent s' b = Some s').
  { intros b [ret n] Hb Hba. apply elem_of_elements in Hb.
    unfold alignment_body. destruct (decide (b = ent)); [done |].
    destruct (Rlt_dec _ ALIGN_NEIGHBOUR_RADIUS) as [Hlt | _]; [| done].
    pose proof (Hfar b Hb ltac:(done) Hba). lra. }
  unfold alignment_force.
  rewrite (kh_foreach_single (alignment_body w ent) a);
    [| apply NoDup_elements | done].
  rewrite decide_True by (by apply elem_of_elements).
  unfold alignment_body. rewrite decide_False by done.
  destruct (Rlt_dec _ ALIGN_NEIGHBOUR_RADIUS); [| done].
  rewrite Hmsa. cbn [mbind option_bind].
  destruct (Rlt_dec (PFM_Vec2_Len (velocity msa)) EPSILON) as [Hslow | Hfast].
  - cbn [mbind option_bind]. rewrite decide_True by done.
    by rewrite decide_True.
  - cbn [mbind option_bind]. rewrite decide_False by done.
    rewrite Hms. cbn [mbind option_bind]. rewrite decide_False by done.
    do 2 f_equal.
    apply vec2_eq;
      cbn [PFM_Vec2_Scale PFM_Vec2_Add PFM_Vec2_Sub vec2_zero raw0 raw1 INR];
      field.
Qed.


(** *** A flock without a moving member *)



End Movement.

(** * The module on the sample data *)

Local Open Scope R_scope.

Lemma sample_skipped_1 :
  skipped sample_flag_static (sample_entities 1) = false.
Proof.
  unfold skipped. simpl. apply bool_decide_eq_false_2. lra.
Qed.

Lemma sample_skipped_2 :
  skipped sample_flag_static (sample_entities 2) = false.
Proof.
  unfold skipped. simpl. apply bool_decide_eq_false_2. lra.
Qed.

Lemma sample_skipped_3 :
  skipped sample_flag_static (sample_entities 3) = true.
Proof. reflexivity. Qed.

Lemma sample_skipped_4 :
  skipped sample_flag_static (sample_entities 4) = true.
Proof. unfold skipped. simpl. by apply bool_decide_eq_true_2. Qed.

Lemma sample_skipped_5 :
  skipped sample_flag_static (sample_entities 5) = false.
Proof.
  unfold skipped. simpl. apply bool_decide_eq_false_2. lra.
Qed.

Lemma sample_eligible :
  eligible sample_flag_static sample_entities [1%N; 3%N; 2%N] = [1%N; 2%N].
Proof.
  unfold eligible.
  rewrite filter_cons_True by apply sample_skipped_1.
  rewrite filter_cons_False by (by rewrite sample_skipped_3).
  rewrite filter_cons_True by apply sample_skipped_2.
  done.
Qed.

Lemma world_marching_made :
  make_flock_from_selection sample_flag_static true [1%N; 3%N; 2%N]
    sample_target (G_Move_Init sample_entities)
  = Some (true, world_marching).
Proof.
  unfold make_flock_from_selection, remove_selection, G_Move_Init.
  cbn [foldl entities s_flocks negb length remove_from_flocks].
  rewrite sample_skipped_1, sample_skipped_2, sample_skipped_3.
  unfold set_flocks.
  cbn [entities s_flocks s_entity_state_table notified kh_foreach].
  rewrite enroll_eligible_exact
    by (first [apply sample_skipped_1 | set_solver]).
  cbn [mbind option_bind entities s_flocks s_entity_state_table notified].
  rewrite enroll_skipped by apply sample_skipped_3.
  cbn [mbind option_bind].
  rewrite enroll_eligible_exact
    by (first [apply sample_skipped_2 | set_solver]).
  cbn [mbind option_bind entities s_flocks s_entity_state_table notified].
  unfold world_marching, kv_push, enrolled_state.
  rewrite lookup_insert_ne, lookup_empty by done.
  rewrite !decide_True
    by (unfold starts_motion;
        by rewrite ?lookup_insert_ne, lookup_empty by done).
  reflexivity.
Qed.

Lemma world_marching_reachable :
  reachable sample_flag_static flat_clamp flat_height atan2_of_atan
    world_marching.
Proof.
  exists sample_entities. eapply rtc_l; [| apply rtc_refl].
  eapply step_make_flock. apply world_marching_made.
Qed.

Lemma world_marching_registered : registered world_marching.
Proof.
  intros f Hf u Hu. apply list_elem_of_singleton in Hf as ->.
  simpl in Hu. unfold world_marching. simpl.
  apply elem_of_union in Hu as [Hu | Hu].
  - apply elem_of_singleton in Hu as ->. rewrite lookup_insert_eq. eauto.
  - apply elem_of_union in Hu as [Hu | Hu]; [| by apply elem_of_empty in Hu].
    apply elem_of_singleton in Hu as ->.
    rewrite lookup_insert_ne, lookup_insert_eq by done. eauto.
Qed.

Lemma world_arrived_registered : registered world_arrived.
Proof.
  intros f Hf u Hu. apply list_elem_of_singleton in Hf as ->.
  simpl in Hu. unfold world_arrived. simpl.
  apply elem_of_union in Hu as [Hu | Hu].
  - apply elem_of_singleton in Hu as ->. rewrite lookup_insert_eq. eauto.
  - apply elem_of_union in Hu as [Hu | Hu]; [| by apply elem_of_empty in Hu].
    apply elem_of_singleton in Hu as ->.
    rewrite lookup_insert_ne, lookup_insert_eq by done. eauto.
Qed.

Lemma world_backwards_registered : registered world_backwards.
Proof.
  intros f Hf u Hu. apply list_elem_of_singleton in Hf as ->.
  simpl in Hu. apply elem_of_singleton in Hu as ->.
  unfold world_backwards. simpl. rewrite lookup_insert_eq. eauto.
Qed.

Lemma world_arrived_flock_arrived :
  flock_arrived (s_entity_state_table world_arrived)
                (mk_flock ({[2%N]} ∪ ({[1%N]} ∪ ∅)) sample_target).
Proof.
  intros u Hu. exists arrived. split; [| done].
  simpl in Hu. unfold world_arrived. simpl.
  apply elem_of_union in Hu as [Hu | Hu].
  - apply elem_of_singleton in Hu as ->. by rewrite lookup_insert_eq.
  - apply elem_of_union in Hu as [Hu | Hu]; [| by apply elem_of_empty in Hu].
    apply elem_of_singleton in Hu as ->.
    by rewrite lookup_insert_ne, lookup_insert_eq by done.
Qed.

(** C1 on three ticks of the marching flock: the phases have only
    advanced. *)
Lemma phase_transitions_monotonic_witness :
  registered world_marching
  ∧ ∃ w',
      ticks flat_clamp flat_height atan2_of_atan 3 world_marching = Some w'
      ∧ ∀ u ms, s_entity_state_table world_marching !! u = Some ms →
          ∃ ms', s_entity_state_table w' !! u = Some ms'
            ∧ phase_le (state ms) (state ms')
            ∧ (state ms = STATE_SETTLING → state ms' ≠ STATE_MOVING)
            ∧ (state ms = STATE_ARRIVED → state ms' = STATE_ARRIVED).
Proof.
  split; [exact world_marching_registered |].
  exact (phase_transitions_monotonic flat_clamp flat_height atan2_of_atan 3
           world_marching world_marching_registered).
Defined.

(** C2 on the state after the first move order: it is reachable, and no
    agent is in two flocks there. *)
Lemma agent_in_at_most_one_flock_witness :
  reachable sample_flag_static flat_clamp flat_height atan2_of_atan
    world_marching
  ∧ one_flock (s_flocks world_marching).
Proof.
  split; [exact world_marching_reachable |].
  exact (proj1 (agent_in_at_most_one_flock sample_flag_static flat_clamp
                  flat_height atan2_of_atan world_marching
                  world_marching_reachable)).
Defined.




Lemma world_marching_first_state :
  s_entity_state_table world_marching !! 1%N = Some moving_at_rest.
Proof.
  unfold world_marching. simpl.
  by rewrite lookup_insert_ne, lookup_insert_eq by done.
Qed.

(** C9 on the arrive force of entity 1 towards the sample target. *)
Lemma arrive_force_meets_spec_witness :
  s_entity_state_table world_marching !! 1%N = Some moving_at_rest
  ∧ arrive_force world_marching 1 (mk_flock {[1%N]} sample_target) 30
    = Some (arrive_spec sample_target (xz_pos (sample_entities 1))
                        vec2_zero 30 30).
Proof.
  split; [exact world_marching_first_state |].
  exact (arrive_force_meets_spec world_marching 1
           (mk_flock {[1%N]} sample_target) 30 moving_at_rest
           world_marching_first_state).
Defined.

Lemma sample_eligible_NoDup :
  NoDup (eligible sample_flag_static (entities world_arrived)
                  [1%N; 3%N; 2%N]).
Proof.
  change (entities world_arrived) with sample_entities.
  rewrite sample_eligible. apply NoDup_cons. split; [set_solver |].
  apply NoDup_singleton.
Qed.

(** C8 on a move order for entities 1, 2 (both arrived) and 3 (static). *)
Lemma make_flock_motion_started_witness :
  NoDup (eligible sample_flag_static (entities world_arrived)
                  [1%N; 3%N; 2%N])
  ∧ ∃ w' emitted,
      make_flock_from_selection sample_flag_static true [1%N; 3%N; 2%N]
        sample_target world_arrived = Some (true, w')
      ∧ notified w' = notified world_arrived ++ emitted
      ∧ (∀ ev u, (ev, u) ∈ emitted ↔
           ev = EVENT_MOTION_START
           ∧ u ∈ eligible sample_flag_static (entities world_arrived)
                          [1%N; 3%N; 2%N]
           ∧ match s_entity_state_table world_arrived !! u with
             | None => True
             | Some ms => state ms = STATE_ARRIVED
             end)
      ∧ ∀ u, u ∈ eligible sample_flag_static (entities world_arrived)
                          [1%N; 3%N; 2%N] →
          match s_entity_state_table world_arrived !! u with
          | None =>
              s_entity_state_table w' !! u
              = Some (mk_movestate vec2_zero STATE_MOVING)
          | Some ms =>
              s_entity_state_table w' !! u
              = Some (mk_movestate (velocity ms) STATE_MOVING)
          end.
Proof.
  split; [exact sample_eligible_NoDup |].
  exact (make_flock_motion_started sample_flag_static [1%N; 3%N; 2%N]
           sample_target world_arrived sample_eligible_NoDup).
Defined.

(** C7 on the flock of two arrived members: it is gone after the tick. *)
Lemma arrived_flock_disbanded_witness :
  registered world_arrived
  ∧ ∃ w',
      on_30hz_tick flat_clamp flat_height atan2_of_atan world_arrived
      = Some w'
      ∧ mk_flock ({[2%N]} ∪ ({[1%N]} ∪ ∅)) sample_target ∉ s_flocks w'.
Proof.
  split; [exact world_arrived_registered |].
  destruct (arrived_flock_disbanded flat_clamp flat_height atan2_of_atan
              world_arrived world_arrived_registered) as [w' [Hrun Hgone]].
  exists w'. split; [exact Hrun |].
  apply (Hgone (mk_flock ({[2%N]} ∪ ({[1%N]} ∪ ∅)) sample_target)).
  - left.
  - exact world_arrived_flock_arrived.
Defined.


(** C6 fails as stated: the allocation fails after entities 1 and 2 have
    left their flock and the flock has been destroyed, and the call returns
    [false] with a registry that is not the one it was given. *)
Lemma alloc_failure_after_removal :
  make_flock_from_selection sample_flag_static false [1%N; 2%N]
    sample_target world_marching
  = Some (false, set_flocks world_marching [])
  ∧ s_flocks world_marching
    = [mk_flock ({[2%N]} ∪ ({[1%N]} ∪ ∅)) sample_target]
  ∧ s_flocks (set_flocks world_marching []) ≠ s_flocks world_marching.
Proof.
  split; [| split; [reflexivity | discriminate]].
  rewrite make_flock_alloc_failure. do 3 f_equal.
  apply Permutation_nil_r.
  rewrite remove_selection_spec. unfold carved_registry, eligible.
  change (entities world_marching) with sample_entities.
  rewrite filter_cons_True by apply sample_skipped_1.
  rewrite filter_cons_True by apply sample_skipped_2.
  rewrite filter_nil. unfold purge. simpl.
  rewrite filter_cons_False; [done |].
  intros Hne. apply Hne. simpl. set_solver.
Qed.

(** C5 fails on the code: a move order for a static entity and one without
    speed returns [true] and pushes a flock without a member after the flock
    of entity 1. *)
Lemma empty_flock_pushed :
  make_flock_from_selection sample_flag_static true [3%N; 4%N]
    sample_target world_single
  = Some (true,
          set_flocks world_single
            [mk_flock {[1%N]} sample_target; mk_flock ∅ sample_target]).
Proof.
  apply make_flock_nothing_eligible. unfold eligible.
  change (entities world_single) with sample_entities.
  rewrite filter_cons_False by (by rewrite sample_skipped_3).
  rewrite filter_cons_False by (by rewrite sample_skipped_4).
  done.
Qed.


(** ** A tick of the entity with a negative max_speed *)






(** ** A move order to a near point, and the tick after it *)







(** ** Arrival next to a flock-mate that has arrived *)

Lemma pair_elements : elements ({[1%N]} ∪ {[6%N]} : gset N) = [6%N; 1%N].
Proof. vm_compute. reflexivity. Qed.

Lemma pair_registered : registered world_pair.
Proof.
  intros f Hf u Hu. apply list_elem_of_singleton in Hf as ->.
  simpl in Hu. unfold world_pair. simpl.
  apply elem_of_union in Hu as [Hu | Hu];
    apply elem_of_singleton in Hu as ->.
  - rewrite lookup_insert_ne, lookup_insert_eq by done. eauto.
  - rewrite lookup_insert_eq. eauto.
Qed.

(** Entity 1 comes within the threshold of the target, where entity 6 has
    arrived: the tick notifies EVENT_MOTION_END for entity 1 and leaves it in
    the SETTLING phase, at rest. *)
Lemma pair_tick :
  ∃ w',
    on_30hz_tick flat_clamp flat_height atan2_of_atan world_pair = Some w'
    ∧ s_entity_state_table w' !! 1%N
      = Some (mk_movestate vec2_zero STATE_SETTLING)
    ∧ notified w' = [(EVENT_MOTION_END, 1%N)].
Proof.
  set (f := mk_flock ({[1%N]} ∪ {[6%N]}) near_target).
  assert (Hreg : ∀ u, u ∈ ents f →
                 is_Some (s_entity_state_table world_pair !! u))
    by (apply (pair_registered f); left).
  unfold on_30hz_tick. cbn [world_pair s_flocks length tick_flocks].
  fold world_pair. unfold tick_flock.
  cbn [world_pair s_flocks lookup list_lookup mbind option_bind].
  fold f. fold world_pair. cbn [ents f]. rewrite pair_elements.
  assert (Ht6 : s_entity_state_table world_pair !! 6%N = Some arrived)
    by (unfold world_pair; cbn [s_entity_state_table];
        apply lookup_insert_eq).
  assert (Ht1 : s_entity_state_table world_pair !! 1%N = Some moving_at_rest)
    by (unfold world_pair; cbn [s_entity_state_table];
        by rewrite lookup_insert_ne, lookup_insert_eq by done).
  assert (Hall : all_arrived (s_entity_state_table world_pair) [6%N; 1%N]
                 = Some false).
  { cbn [all_arrived]. rewrite Ht6. cbn [mbind option_bind].
    rewrite decide_False by (intros Hn; by apply Hn).
    rewrite Ht1. cbn [mbind option_bind]. by rewrite decide_True by done. }
  rewrite Hall. cbn [mbind option_bind kh_foreach].
  (* entity 6, which has arrived, is visited first *)
  destruct (tick_entity_total flat_clamp flat_height atan2_of_atan f
              world_pair 6 Hreg) as [w1 Hrun6].
  { apply elem_of_union. right. by apply elem_of_singleton. }
  rewrite Hrun6. cbn [mbind option_bind].
  pose proof (tick_entity_advances _ _ _ _ _ _ _ Hrun6) as Hadv6.
  destruct (tick_entity_untouched _ _ _ _ _ _ _ 1%N Hrun6) as (Ht1' & He1 & Hn1);
    [done |].
  destruct (adv_phase _ _ Hadv6 6%N arrived Ht6) as (ms6 & Ht6' & Hle6).
  apply phase_le_arrived in Hle6.
  destruct (tick_entity_position _ _ _ _ _ _ _ Hrun6)
    as (v6 & Hp6 & Hv6 & Hr6).
  pose proof (tick_entity_arrived_quiet _ _ _ _ _ _ _ _ Hrun6 Ht6 eq_refl)
    as Hquiet.
  assert (Hreg1 : ∀ u, u ∈ ents f → is_Some (s_entity_state_table w1 !! u)).
  { intros u Hu. destruct (Hreg u Hu) as [ms Hms].
    destruct (adv_phase _ _ Hadv6 u ms Hms) as (ms' & -> & _). eauto. }
  (* then entity 1 *)
  destruct (tick_entity_total flat_clamp flat_height atan2_of_atan f
              w1 1 Hreg1) as [w' Hrun1].
  { apply elem_of_union. left. by apply elem_of_singleton. }
  rewrite Hrun1. cbn [mbind option_bind].
  destruct (tick_entity_untouched _ _ _ _ _ _ _ 6%N Hrun1)
    as (_ & He6 & _); [done |].
  destruct (tick_entity_position _ _ _ _ _ _ _ Hrun1)
    as (v1 & Hp1 & Hv1 & Hr1).
  rewrite He1 in Hp1, Hv1, Hr1.
  change (entities world_pair) with sample_entities in *.
  cbn [sample_entities max_speed selection_radius xz_pos pos x z] in *.
  unfold TICK_RES, flat_clamp in *.
  apply PFM_Vec2_Len_bound in Hv1; [| lra].
  apply PFM_Vec2_Len_bound in Hv6; [| lra].
  destruct (tick_entity_arrival_overwritten _ _ _ f w1 w' 1 6
              moving_at_rest ms6 Hrun1) as [Hfinal Hnotified].
  - by rewrite Ht1'.
  - done.
  - rewrite Hp1. apply PFM_Vec2_Len_lt;
      [unfold ARRIVE_THRESHOLD_DIST; lra |].
    unfold ARRIVE_THRESHOLD_DIST, xz_pos, f, near_target.
    cbn [target_xz PFM_Vec2_Sub PFM_Vec2_Add raw0 raw1 pos x z].
    assert (-1 <= raw0 v1 <= 1) by nra. nra.
  - unfold adjacent_flock_members. cbn [ents f]. rewrite pair_elements.
    apply list_elem_of_filter. split; [| left]. split; [done |].
    rewrite Hp1, He6, Hp6, Hr1, Hr6.
    apply Rlt_le, PFM_Vec2_Len_lt;
      [unfold ADJACENCY_SEP_DIST; lra |].
    unfold ADJACENCY_SEP_DIST, xz_pos.
    cbn [PFM_Vec2_Sub PFM_Vec2_Add raw0 raw1 pos x z].
    assert (-1 <= raw0 v1 <= 1) by nra. assert (-1 <= raw0 v6 <= 1) by nra.
    assert (-1 <= raw1 v1 <= 1) by nra. assert (-1 <= raw1 v6 <= 1) by nra.
    nra.
  - done.
  - by left.
  - exists w'. split; [done |]. split; [done |].
    rewrite Hnotified, Hquiet. done.
Qed.

(** ** The further properties on the sample data *)




Lemma pair_member_1 : 1%N ∈ ents pair_flock.
Proof. unfold pair_flock. cbn [ents]. set_solver. Qed.

Lemma pair_member_6 : 6%N ∈ ents pair_flock.
Proof. unfold pair_flock. cbn [ents]. set_solver. Qed.

Lemma pair_distance :
  PFM_Vec2_Len (PFM_Vec2_Sub (xz_pos (entities world_pair 6))
                             (xz_pos (entities world_pair 1))) < 9.
Proof.
  apply PFM_Vec2_Len_lt; [lra |].
  change (entities world_pair) with sample_entities.
  unfold xz_pos. cbn [sample_entities pos x z PFM_Vec2_Sub raw0 raw1]. lra.
Qed.

Lemma pair_adjacent : 6%N ∈ adjacent_flock_members world_pair 1 pair_flock.
Proof.
  unfold adjacent_flock_members, pair_flock. cbn [ents].
  rewrite pair_elements. apply list_elem_of_filter. split; [| left].
  split; [done |]. rewrite PFM_Vec2_Len_Sub_comm.
  pose proof pair_distance as Hd.
  change (entities world_pair) with sample_entities in *.
  assert (Hr1 : selection_radius (sample_entities 1) = 1) by done.
  assert (Hr6 : selection_radius (sample_entities 6) = 1) by done.
  rewrite Hr1, Hr6. unfold ADJACENCY_SEP_DIST. lra.
Qed.

(** X4 on entities 1 and 6, three units apart in one flock. *)
Lemma adjacent_flock_members_symmetric_witness :
  1%N ∈ ents pair_flock
  ∧ 6%N ∈ adjacent_flock_members world_pair 1 pair_flock
  ∧ 1%N ∈ adjacent_flock_members world_pair 6 pair_flock.
Proof.
  split; [exact pair_member_1 |]. split; [exact pair_adjacent |].
  exact (adjacent_flock_members_symmetric world_pair 6 1 pair_flock
           pair_member_1 pair_adjacent).
Defined.


Lemma marching_far_from_target :
  ARRIVE_SLOWING_RADIUS
  <= PFM_Vec2_Len (PFM_Vec2_Sub (target_xz marching_flock)
                                (xz_pos (entities world_marching 1))).
Proof.
  apply PFM_Vec2_Len_ge.
  change (entities world_marching) with sample_entities.
  unfold xz_pos, ARRIVE_SLOWING_RADIUS, marching_flock, sample_target.
  cbn [sample_entities pos x z PFM_Vec2_Sub raw0 raw1 target_xz]. lra.
Qed.

(** X6 on entity 1 of the marching flock, 100 units from the target. *)
Lemma arrive_force_far_is_seek_witness :
  ARRIVE_SLOWING_RADIUS
  <= PFM_Vec2_Len (PFM_Vec2_Sub (target_xz marching_flock)
                                (xz_pos (entities world_marching 1)))
  ∧ arrive_force world_marching 1 marching_flock 30
    = (λ seek, vec2_truncate seek MAX_FORCE)
        <$> seek_force world_marching 1 marching_flock 30.
Proof.
  split; [exact marching_far_from_target |].
  exact (proj1 (arrive_force_far_is_seek world_marching 1 marching_flock 30
                  marching_far_from_target)).
Defined.

(** X7 on the unit vector of the x axis. *)
Lemma dir_quat_from_velocity_unit_witness :
  EPSILON < PFM_Vec2_Len (mk_vec2 1 0)
  ∧ ∃ q, dir_quat_from_velocity atan2_of_atan (mk_vec2 1 0) = Some q
         ∧ qx q * qx q + qy q * qy q + qz q * qz q + qw q * qw q = 1.
Proof.
  assert (H : EPSILON < PFM_Vec2_Len (mk_vec2 1 0)).
  { rewrite PFM_Vec2_Len_axis by done. rewrite Rabs_R1. unfold EPSILON. lra. }
  split; [exact H |].
  destruct (proj1 (dir_quat_from_velocity_unit atan2_of_atan (mk_vec2 1 0)) H)
    as (q & Hq & _ & _ & Hunit).
  exists q. split; [exact Hq | exact Hunit].
Defined.







Lemma pair_state_6 :
  s_entity_state_table world_pair !! 6%N
  = Some (mk_movestate vec2_zero STATE_ARRIVED).
Proof. unfold world_pair. simpl. by rewrite lookup_insert_eq. Qed.

Lemma pair_speed_6 : 0 <= max_speed (entities world_pair 6).
Proof. simpl. lra. Qed.

Lemma pair_on_the_spot :
  on_the_spot flat_clamp flat_height (entities world_pair 6).
Proof. split; [done |]. simpl. done. Qed.

(** X9 on entity 6, which has arrived, in the flock entity 1 is marching
    in: the tick does not write to it. *)
Lemma arrived_agent_left_at_rest_witness :
  registered world_pair
  ∧ 0 <= max_speed (entities world_pair 6)
  ∧ ∃ w',
      on_30hz_tick flat_clamp flat_height atan2_of_atan world_pair = Some w'
      ∧ s_entity_state_table w' !! 6%N
        = Some (mk_movestate vec2_zero STATE_ARRIVED)
      ∧ entities w' 6 = entities world_pair 6.
Proof.
  split; [exact pair_registered |]. split; [exact pair_speed_6 |].
  destruct (arrived_agent_left_at_rest flat_clamp flat_height atan2_of_atan
              world_pair 6 pair_registered pair_state_6 pair_speed_6)
    as (w' & Hrun & Ht & _ & _ & Hspot).
  exists w'. split; [exact Hrun |]. split; [exact Ht |].
  exact (Hspot pair_on_the_spot).
Defined.

Lemma world_marching_bystander (f : flock) :
  f ∈ s_flocks world_marching → 3%N ∉ ents f.
Proof.
  intros Hf. apply list_elem_of_singleton in Hf as ->. simpl. set_solver.
Qed.

(** X10 on the marching flock: the static entity 3, a member of no flock,
    is left as it was. *)
Lemma tick_moves_on_terrain_witness :
  registered world_marching
  ∧ ∃ w',
      on_30hz_tick flat_clamp flat_height atan2_of_atan world_marching
      = Some w'
      ∧ untouched 3 world_marching w'.
Proof.
  split; [exact world_marching_registered |].
  destruct (tick_moves_on_terrain flat_clamp flat_height atan2_of_atan
              world_marching world_marching_registered)
    as (w' & Hrun & _ & Hout).
  exists w'. split; [exact Hrun |].
  exact (Hout 3%N world_marching_bystander).
Defined.

(** X11 on the marching flock. *)
Lemma tick_notifies_motion_end_only_witness :
  registered world_marching
  ∧ ∃ w' evs,
      on_30hz_tick flat_clamp flat_height atan2_of_atan world_marching
      = Some w'
      ∧ notified w' = notified world_marching ++ evs
      ∧ ∀ ev u, (ev, u) ∈ evs → ev = EVENT_MOTION_END.
Proof.
  split; [exact world_marching_registered |].
  destruct (tick_notifies_motion_end_only flat_clamp flat_height
              atan2_of_atan world_marching world_marching_registered)
    as (w' & evs & Hrun & Hn & Hevs).
  exists w', evs. split; [exact Hrun |]. split; [exact Hn |].
  intros ev u Hin. exact (proj1 (Hevs ev u Hin)).
Defined.

Lemma world_marching_one_flock : one_flock (s_flocks world_marching).
Proof.
  exact (reachable_one_flock sample_flag_static flat_clamp flat_height
           atan2_of_atan world_marching world_marching_reachable).
Qed.

(** X12 on the marching flock: the tick keeps the flocks that have not
    arrived, and those only. *)
Lemma tick_keeps_unarrived_flocks_witness :
  registered world_marching ∧ one_flock (s_flocks world_marching)
  ∧ ∃ w',
      on_30hz_tick flat_clamp flat_height atan2_of_atan world_marching
      = Some w'
      ∧ ∀ f, f ∈ s_flocks w'
             ↔ f ∈ s_flocks world_marching
               ∧ ¬ flock_arrived (s_entity_state_table world_marching) f.
Proof.
  split; [exact world_marching_registered |].
  split; [exact world_marching_one_flock |].
  exact (tick_keeps_unarrived_flocks flat_clamp flat_height atan2_of_atan
           world_marching world_marching_registered
           world_marching_one_flock).
Defined.

(** X13 on the state after the first move order: two ticks run. *)
Lemma tick_runs_in_reachable_states_witness :
  reachable sample_flag_static flat_clamp flat_height atan2_of_atan
    world_marching
  ∧ ∃ w', ticks flat_clamp flat_height atan2_of_atan 2 world_marching
          = Some w'.
Proof.
  split; [exact world_marching_reachable |].
  destruct (tick_runs_in_reachable_states sample_flag_static flat_clamp
              flat_height atan2_of_atan world_marching 2
              world_marching_reachable) as (w' & Hrun & _).
  exists w'. exact Hrun.
Defined.

Lemma world_marching_steps :
  rtc (step sample_flag_static flat_clamp flat_height atan2_of_atan)
      (G_Move_Init sample_entities) world_marching.
Proof.
  apply rtc_once. eapply step_make_flock. exact world_marching_made.
Qed.

(** X14 from the state after [G_Move_Init] to the state after the first
    move order: a tick there creates and deletes no MotionState. *)
Lemma motion_state_never_deleted_witness :
  rtc (step sample_flag_static flat_clamp flat_height atan2_of_atan)
      (G_Move_Init sample_entities) world_marching
  ∧ ∀ w'',
      on_30hz_tick flat_clamp flat_height atan2_of_atan world_marching
      = Some w'' →
      (is_Some (s_entity_state_table w'' !! 1%N)
       ↔ is_Some (s_entity_state_table world_marching !! 1%N)).
Proof.
  split; [exact world_marching_steps |].
  exact (proj2 (motion_state_never_deleted sample_flag_static flat_clamp
                  flat_height atan2_of_atan (G_Move_Init sample_entities)
                  world_marching 1 world_marching_steps)).
Defined.

Lemma sample_bystander :
  3%N ∉ eligible sample_flag_static (entities (G_Move_Init sample_entities))
          [1%N; 3%N; 2%N].
Proof.
  change (entities (G_Move_Init sample_entities)) with sample_entities.
  rewrite sample_eligible. set_solver.
Qed.

(** X16 on the first move order: the static entity 3 is selected but not
    enrolled, and gets no MotionState. *)
Lemma make_flock_spares_bystanders_witness :
  make_flock_from_selection sample_flag_static true [1%N; 3%N; 2%N]
    sample_target (G_Move_Init sample_entities)
  = Some (true, world_marching)
  ∧ (3%N ∉ eligible sample_flag_static
             (entities (G_Move_Init sample_entities)) [1%N; 3%N; 2%N])
  ∧ s_entity_state_table world_marching !! 3%N
    = s_entity_state_table (G_Move_Init sample_entities) !! 3%N.
Proof.
  split; [exact world_marching_made |]. split; [exact sample_bystander |].
  exact (proj1 (proj2
           (make_flock_spares_bystanders sample_flag_static true
              [1%N; 3%N; 2%N] sample_target (G_Move_Init sample_entities)
              world_marching true 3 world_marching_made sample_bystander))).
Defined.

Lemma sample_eligible_nonempty :
  eligible sample_flag_static (entities world_arrived) [1%N; 3%N; 2%N] ≠ [].
Proof.
  change (entities world_arrived) with sample_entities.
  by rewrite sample_eligible.
Qed.

(** X17 on the order for entities 1, 2 and 3 given twice, the second time
    with another target. *)
Lemma make_flock_again_witness :
  NoDup (eligible sample_flag_static (entities world_arrived)
                  [1%N; 3%N; 2%N])
  ∧ eligible sample_flag_static (entities world_arrived) [1%N; 3%N; 2%N]
    ≠ []
  ∧ ∃ w1 w2,
      make_flock_from_selection sample_flag_static true [1%N; 3%N; 2%N]
        sample_target world_arrived = Some (true, w1)
      ∧ make_flock_from_selection sample_flag_static true [1%N; 3%N; 2%N]
          near_target w1 = Some (true, w2)
      ∧ s_entity_state_table w2 = s_entity_state_table w1
      ∧ notified w2 = notified w1.
Proof.
  split; [exact sample_eligible_NoDup |].
  split; [exact sample_eligible_nonempty |].
  destruct (make_flock_again sample_flag_static [1%N; 3%N; 2%N]
              sample_target near_target world_arrived
              sample_eligible_NoDup sample_eligible_nonempty)
    as (w1 & w2 & old & H1 & H2 & _ & _ & Ht & Hn & _).
  exists w1, w2. split; [exact H1 |]. split; [exact H2 |].
  split; [exact Ht | exact Hn].
Defined.

Lemma pair_distinct : 6%N ≠ 1%N.
Proof. done. Qed.

Lemma pair_within_separation :
  PFM_Vec2_Len (PFM_Vec2_Sub (xz_pos (entities world_pair 6))
                             (xz_pos (entities world_pair 1)))
  < selection_radius (entities world_pair 1) + 8.
Proof.
  pose proof pair_distance as Hd.
  assert (Hr : selection_radius (entities world_pair 1) = 1) by done.
  rewrite Hr. lra.
Qed.

Lemma pair_no_other (b : N) :
  b ∈ ents pair_flock → b ≠ 1%N → b ≠ 6%N →
  selection_radius (entities world_pair 1) + 8
  <= PFM_Vec2_Len (PFM_Vec2_Sub (xz_pos (entities world_pair b))
                                (xz_pos (entities world_pair 1))).
Proof.
  unfold pair_flock. cbn [ents]. intros Hb H1 H6. exfalso. set_solver.
Qed.

(** X18 on entity 1 and its only flock-mate, entity 6: the separation force
    on entity 1 points away from entity 6. *)
Lemma separation_force_repels_witness :
  6%N ∈ ents pair_flock
  ∧ PFM_Vec2_Len (PFM_Vec2_Sub (xz_pos (entities world_pair 6))
                               (xz_pos (entities world_pair 1)))
    < selection_radius (entities world_pair 1) + 8
  ∧ ∃ k, 0 <= k
         ∧ separation_force world_pair 1 pair_flock 30 8
           = PFM_Vec2_Scale
               (PFM_Vec2_Sub (xz_pos (entities world_pair 6))
                             (xz_pos (entities world_pair 1)))
               (- k).
Proof.
  split; [exact pair_member_6 |]. split; [exact pair_within_separation |].
  exact (proj2 (separation_force_repels world_pair 1 6 pair_flock 30 8
                  pair_member_6 pair_distinct pair_within_separation
                  pair_no_other)).
Defined.

Lemma arrived_not_moving : state arrived ≠ STATE_MOVING.
Proof. done. Qed.

(** X19 on entity 6, which has arrived: the force on it is the same for
    two targets of its flock. *)
Lemma settled_force_ignores_target_witness :
  s_entity_state_table world_pair !! 6%N = Some arrived
  ∧ total_steering_force world_pair 6
      (mk_flock ({[1%N]} ∪ {[6%N]}) near_target) 30
    = total_steering_force world_pair 6
        (mk_flock ({[1%N]} ∪ {[6%N]}) sample_target) 30.
Proof.
  split; [exact pair_state_6 |].
  exact (settled_force_ignores_target world_pair 6 ({[1%N]} ∪ {[6%N]})
           near_target sample_target 30 arrived pair_state_6
           arrived_not_moving).
Defined.

Lemma world_backwards_settling_registered :
  registered world_backwards_settling.
Proof.
  intros f Hf u Hu. apply list_elem_of_singleton in Hf as ->.
  simpl in Hu. apply elem_of_singleton in Hu as ->.
  unfold world_backwards_settling. simpl. rewrite lookup_insert_eq. eauto.
Qed.

Lemma world_backwards_settling_state :
  s_entity_state_table world_backwards_settling !! 5%N
  = Some (mk_movestate vec2_zero STATE_SETTLING).
Proof. unfold world_backwards_settling. simpl. by rewrite lookup_insert_eq. Qed.

Lemma sample_speed_5 : max_speed (entities world_backwards_settling 5) <= 0.
Proof. simpl. lra. Qed.

(** X20 on entity 5, of negative [max_speed]: it is still settling after
    three ticks. *)
Lemma settling_without_speed_goes_on_witness :
  registered world_backwards_settling
  ∧ max_speed (entities world_backwards_settling 5) <= 0
  ∧ ∃ w' ms',
      ticks flat_clamp flat_height atan2_of_atan 3 world_backwards_settling
      = Some w'
      ∧ s_entity_state_table w' !! 5%N = Some ms'
      ∧ state ms' = STATE_SETTLING.
Proof.
  split; [exact world_backwards_settling_registered |].
  split; [exact sample_speed_5 |].
  destruct (settling_without_speed_goes_on flat_clamp flat_height
              atan2_of_atan world_backwards_settling 5
              (mk_movestate vec2_zero STATE_SETTLING) 3
              world_backwards_settling_registered
              world_backwards_settling_state eq_refl sample_speed_5)
    as (w' & ms' & Hrun & Hms' & Hst & _).
  exists w', ms'. split; [exact Hrun |]. split; [exact Hms' | exact Hst].
Defined.

Lemma sample_selection_nonempty : [1%N; 3%N; 2%N] ≠ ([] : list N).
Proof. done. Qed.

Lemma sample_marker_fresh : 9%N ∉ [1%N; 3%N; 2%N].
Proof. set_solver. Qed.

(** X21 on a right click with entities 1, 2 and 3 selected: the marker
    entity 9 is appended to the markers and the flock is formed. *)
Lemma on_mousedown_orders_witness :
  button sample_click = 3%Z
  ∧ raycast sample_click = Some (mk_vec3 100 0 0)
  ∧ ∃ m',
      on_mousedown sample_flag_static 3 sample_click [1%N; 3%N; 2%N]
        (Some (9%N, sample_marker)) true sample_module = Some m'
      ∧ s_move_markers m' = [9%N].
Proof.
  split; [reflexivity |]. split; [reflexivity |].
  destruct (on_mousedown_orders sample_flag_static 3 sample_click
              [1%N; 3%N; 2%N] 9 sample_marker true sample_module
              (mk_vec3 100 0 0) eq_refl eq_refl eq_refl eq_refl
              sample_selection_nonempty sample_marker_fresh
              sample_eligible_NoDup)
    as (m' & old & Hrun & Hmarkers & _).
  exists m'. split; [exact Hrun | exact Hmarkers].
Defined.

Lemma sample_nothing_eligible :
  eligible sample_flag_static (entities world_single) [3%N; 4%N] = [].
Proof.
  unfold eligible. change (entities world_single) with sample_entities.
  rewrite filter_cons_False by (by rewrite sample_skipped_3).
  rewrite filter_cons_False by (by rewrite sample_skipped_4).
  done.
Qed.

(** X22 on the order for the static entity 3 and entity 4, which has no
    speed: the tick that follows does what it does without the order. *)
Lemma idle_order_undone_by_tick_witness :
  eligible sample_flag_static (entities world_single) [3%N; 4%N] = []
  ∧ ∃ w',
      make_flock_from_selection sample_flag_static true [3%N; 4%N]
        sample_target world_single = Some (true, w')
      ∧ on_30hz_tick flat_clamp flat_height atan2_of_atan w'
        = on_30hz_tick flat_clamp flat_height atan2_of_atan world_single.
Proof.
  split; [exact sample_nothing_eligible |].
  destruct (idle_order_undone_by_tick sample_flag_static flat_clamp
              flat_height atan2_of_atan [3%N; 4%N] sample_target
              world_single sample_nothing_eligible)
    as (w' & Hrun & _ & Htick).
  exists w'. split; [exact Hrun | exact Htick].
Defined.

Lemma marching_flock_listed : marching_flock ∈ s_flocks world_marching.
Proof. left. Qed.

Lemma marching_member_1 : 1%N ∈ ents marching_flock.
Proof. unfold marching_flock. cbn [ents]. set_solver. Qed.



(** X24 on entity 1 of the marching flock. *)
Lemma moving_agent_transitions_witness :
  registered world_marching ∧ one_flock (s_flocks world_marching)
  ∧ s_entity_state_table world_marching !! 1%N = Some moving_at_rest
  ∧ ∃ w' ms',
      on_30hz_tick flat_clamp flat_height atan2_of_atan world_marching
      = Some w'
      ∧ s_entity_state_table w' !! 1%N = Some ms'
      ∧ (state ms' = STATE_SETTLING →
         ∃ a msa, a ∈ ents marching_flock ∧ a ≠ 1%N
                  ∧ s_entity_state_table w' !! a = Some msa
                  ∧ state msa ≠ STATE_MOVING).
Proof.
  split; [exact world_marching_registered |].
  split; [exact world_marching_one_flock |].
  split; [exact world_marching_first_state |].
  destruct (moving_agent_transitions flat_clamp flat_height atan2_of_atan
              world_marching marching_flock 1 moving_at_rest
              world_marching_registered world_marching_one_flock
              marching_flock_listed marching_member_1
              world_marching_first_state eq_refl)
    as (w' & ms' & Hrun & Hms' & _ & _ & Hset).
  exists w', ms'. split; [exact Hrun |]. split; [exact Hms' | exact Hset].
Defined.

(** X25 on the first move order. *)
Lemma make_flock_enrolls_eligible_witness :
  make_flock_from_selection sample_flag_static true [1%N; 3%N; 2%N]
    sample_target (G_Move_Init sample_entities)
  = Some (true, world_marching)
  ∧ ∃ old new_flock,
      s_flocks world_marching = old ++ [new_flock]
      ∧ target_xz new_flock = sample_target
      ∧ ∀ u, u ∈ ents new_flock
             ↔ u ∈ [1%N; 3%N; 2%N]
               ∧ N.land (flags (entities (G_Move_Init sample_entities) u))
                        sample_flag_static = 0%N
               ∧ max_speed (entities (G_Move_Init sample_entities) u) ≠ 0.
Proof.
  split; [exact world_marching_made |].
  destruct (make_flock_enrolls_eligible sample_flag_static [1%N; 3%N; 2%N]
              sample_target (G_Move_Init sample_entities) world_marching
              world_marching_made)
    as (old & new_flock & Hfl & Htarget & Hmem & _).
  exists old, new_flock. split; [exact Hfl |].
  split; [exact Htarget | exact Hmem].
Defined.

Lemma marching_far_apart (b : N) :
  b ∈ ents marching_flock → b ≠ 1%N →
  COHESION_NEIGHBOUR_RADIUS
  <= PFM_Vec2_Len (PFM_Vec2_Sub (xz_pos (entities world_marching b))
                                (xz_pos (entities world_marching 1)))
  ∧ selection_radius (entities world_marching 1)
    + MOVE_SEPARATION_BUFFER_DIST
    <= PFM_Vec2_Len (PFM_Vec2_Sub (xz_pos (entities world_marching b))
                                  (xz_pos (entities world_marching 1))).
Proof.
  unfold marching_flock. cbn [ents]. intros Hb Hne.
  assert (b = 2%N) as -> by set_solver.
  assert (Hr : selection_radius (entities world_marching 1) = 1) by done.
  rewrite Hr.
  unfold COHESION_NEIGHBOUR_RADIUS, MOVE_SEPARATION_BUFFER_DIST.
  split; apply PFM_Vec2_Len_ge;
    change (entities world_marching) with sample_entities;
    unfold xz_pos; cbn [sample_entities pos x z PFM_Vec2_Sub raw0 raw1]; lra.
Qed.

(** X26 on entity 1 of the marching flock, 50 units from entity 2. *)
Lemma far_agent_steered_by_arrive_witness :
  s_entity_state_table world_marching !! 1%N = Some moving_at_rest
  ∧ ∃ arrive,
      arrive_force world_marching 1 marching_flock 30 = Some arrive
      ∧ total_steering_force world_marching 1 marching_flock 30
        = Some (PFM_Vec2_Scale arrive MOVE_ARRIVE_FORCE_SCALE).
Proof.
  split; [exact world_marching_first_state |].
  destruct (far_agent_steered_by_arrive world_marching 1 marching_flock 30
              moving_at_rest world_marching_first_state eq_refl
              marching_far_apart)
    as (arrive & Har & _ & _ & _ & Htotal).
  exists arrive. split; [exact Har | exact Htotal].
Defined.


Lemma pair_within (radius : R) :
  9 <= radius →
  PFM_Vec2_Len (PFM_Vec2_Sub (xz_pos (entities world_pair 6))
                             (xz_pos (entities world_pair 1))) < radius.
Proof. intros Hr. pose proof pair_distance. lra. Qed.

Lemma pair_nobody_else (radius : R) (b : N) :
  b ∈ ents pair_flock → b ≠ 1%N → b ≠ 6%N →
  radius
  <= PFM_Vec2_Len (PFM_Vec2_Sub (xz_pos (entities world_pair b))
                                (xz_pos (entities world_pair 1))).
Proof.
  unfold pair_flock. cbn [ents]. intros Hb H1 H6. exfalso. set_solver.
Qed.

Lemma cohesion_radius_wide : 9 <= COHESION_NEIGHBOUR_RADIUS.
Proof. unfold COHESION_NEIGHBOUR_RADIUS. lra. Qed.

Lemma align_radius_wide : 9 <= ALIGN_NEIGHBOUR_RADIUS.
Proof. unfold ALIGN_NEIGHBOUR_RADIUS. lra. Qed.

(** X28 on entity 1 and its only flock-mate, entity 6: cohesion pulls
    entity 1 towards entity 6. *)
Lemma cohesion_force_attracts_witness :
  6%N ∈ ents pair_flock
  ∧ PFM_Vec2_Len (PFM_Vec2_Sub (xz_pos (entities world_pair 6))
                               (xz_pos (entities world_pair 1)))
    < COHESION_NEIGHBOUR_RADIUS
  ∧ ∃ k, 0 <= k <= 1
         ∧ cohesion_force world_pair 1 pair_flock 30
           = PFM_Vec2_Scale
               (PFM_Vec2_Sub (xz_pos (entities world_pair 6))
                             (xz_pos (entities world_pair 1)))
               k.
Proof.
  split; [exact pair_member_6 |].
  split; [exact (pair_within _ cohesion_radius_wide) |].
  exact (proj2 (cohesion_force_attracts world_pair 1 6 pair_flock 30
                  pair_member_6 pair_distinct
                  (pair_within _ cohesion_radius_wide)
                  (pair_nobody_else COHESION_NEIGHBOUR_RADIUS))).
Defined.

Lemma pair_state_1 :
  s_entity_state_table world_pair !! 1%N = Some moving_at_rest.
Proof.
  unfold world_pair. simpl.
  by rewrite lookup_insert_ne, lookup_insert_eq by done.
Qed.

(** X29 on entity 1 and entity 6, which is at rest: no alignment force. *)
Lemma alignment_force_matches_neighbour_witness :
  s_entity_state_table world_pair !! 1%N = Some moving_at_rest
  ∧ s_entity_state_table world_pair !! 6%N = Some arrived
  ∧ alignment_force world_pair 1 pair_flock 30
    = Some (if decide (PFM_Vec2_Len (velocity arrived) < EPSILON)
            then vec2_zero
            else vec2_truncate
                   (PFM_Vec2_Sub (velocity arrived)
                                 (velocity moving_at_rest))
                   MAX_FORCE).
Proof.
  split; [exact pair_state_1 |]. split; [exact pair_state_6 |].
  exact (alignment_force_matches_neighbour world_pair 1 6 pair_flock 30
           moving_at_rest arrived pair_member_6 pair_distinct pair_state_1
           pair_state_6 (pair_within _ align_radius_wide)
           (pair_nobody_else ALIGN_NEIGHBOUR_RADIUS)).
Defined.



